(** * KRIHS sentiment collector: a shallow embedding of [pj_krihs_sentiment.py]

    The development follows the source file section by section: the dataset
    registry and [build_url], the region directory, [score_weather],
    [parse_table_icons], the period utilities [month_iter] and [next_month],
    [collect] and [collect_incremental]; then the storage helpers
    [get_supabase_client], [upsert_krihs_rows] and
    [get_latest_ym_from_supabase], the main block, and the pure helpers of
    the dashboard, [pj_krihs_streamlit_map.py]: [get_recent_ym_list],
    [get_year_options], [get_month_options], [prev_n_months], [ym_label],
    [weather_score_to_color] and the marker sizes of [main].

    Conventions.
    - A Python [str] that comes from a rendered page is a list of Unicode
      code points ([ustring]); literals are written in UTF-8 and decoded by
      [u].  Dataset keys and URLs are plain [string]s.
    - A Python [int] is a [Z]; [Optional[T]] is [option T].
    - A raised exception is a value of [exn]; a call that may raise returns
      [result].
    - The rendering engine is an oracle from a URL to either a page snapshot
      or the exception the engine raised.
    - [collect] and [collect_incremental] are given twice: first with the
      period loop as the only place that raises, then, as [collect_run] and
      [collect_incremental_run], with the output directory, the browser,
      the CSV file and the storage helpers as calls that can raise. *)

From Stdlib Require Import ZArith NArith List Sorted Bool Lia.
From Stdlib Require Import Ascii String DecimalString DecimalZ DecimalPos.
From Stdlib Require Import Permutation.
Import ListNotations.

Local Open Scope Z_scope.

(* ================================================================== *)
(** * Python text primitives *)
(* ================================================================== *)

Module PyStr.

(** A Python string, as the sequence of its code points. *)
Definition ustring := list N.

(** UTF-8 decoding, used to write the Korean literals of the source
    legibly.  Truncated sequences are dropped; no literal below has one. *)
Fixpoint utf8_decode (bs : list N) : ustring :=
  match bs with
  | [] => []
  | b0 :: t0 =>
    if (b0 <? 128)%N then b0 :: utf8_decode t0
    else match t0 with
    | [] => []
    | b1 :: t1 =>
      if (b0 <? 224)%N
      then ((b0 - 192) * 64 + (b1 - 128))%N :: utf8_decode t1
      else match t1 with
      | [] => []
      | b2 :: t2 =>
        if (b0 <? 240)%N
        then ((b0 - 224) * 4096 + (b1 - 128) * 64 + (b2 - 128))%N
               :: utf8_decode t2
        else match t2 with
        | [] => []
        | b3 :: t3 =>
          ((b0 - 240) * 262144 + (b1 - 128) * 4096
             + (b2 - 128) * 64 + (b3 - 128))%N :: utf8_decode t3
        end
      end
    end
  end.

Definition u (s : string) : ustring :=
  utf8_decode (map N_of_ascii (list_ascii_of_string s)).

Definition ueqb (a b : ustring) : bool :=
  if list_eq_dec N.eq_dec a b then true else false.

(** [s.startswith(p)] *)
Fixpoint startswith (s p : ustring) : bool :=
  match p with
  | [] => true
  | c :: p' =>
    match s with
    | [] => false
    | d :: s' => (c =? d)%N && startswith s' p'
    end
  end.

(** [s.replace(" ", "")]: every U+0020 is removed, wherever it stands. *)
Definition remove_spaces (s : ustring) : ustring :=
  filter (fun c => negb (c =? 32)%N) s.

(** [str.isspace] on one code point: the characters [str.strip()] removes. *)
Definition isspace (c : N) : bool :=
  ((9 <=? c) && (c <=? 13) || (28 <=? c) && (c <=? 32)
   || (c =? 133) || (c =? 160) || (c =? 5760)
   || (8192 <=? c) && (c <=? 8202)
   || (c =? 8232) || (c =? 8233) || (c =? 8239) || (c =? 8287)
   || (c =? 12288))%N.

Fixpoint lstrip (s : ustring) : ustring :=
  match s with
  | [] => []
  | c :: s' => if isspace c then lstrip s' else s
  end.

(** [s.strip()] *)
Definition strip (s : ustring) : ustring :=
  rev (lstrip (rev (lstrip s))).

End PyStr.
Import PyStr.

(* ================================================================== *)
(** * Exceptions and dictionaries *)
(* ================================================================== *)

Inductive exn : Set :=
| KeyError (key : string)          (* a missing dictionary key *)
| EngineError (msg : string).      (* raised by the rendering engine *)

Inductive result (A : Type) : Type :=
| Ok (a : A)
| Raise (e : exn).
Arguments Ok {A} a.
Arguments Raise {A} e.

(** [x or d] for an optional integer: [None] and [0] are both falsy. *)
Definition py_or (x : option Z) (d : Z) : Z :=
  match x with
  | Some v => if v =? 0 then d else v
  | None => d
  end.

(** [str(n)] for an integer. *)
Definition py_str (n : Z) : string := NilZero.string_of_int (Z.to_int n).

(** [f"{n:02d}"]: sign-aware zero padding to width two. *)
Definition fmt_02d (n : Z) : string :=
  if (0 <=? n) && (n <? 10) then ("0" ++ py_str n)%string else py_str n.

(** A dictionary in insertion order.  Assigning to a key that is present
    replaces its value where it stands; a new key goes to the end. *)
Section Dict.
Context {K V : Type} (eqb : K -> K -> bool).

Fixpoint dict_get (d : list (K * V)) (k : K) : option V :=
  match d with
  | [] => None
  | (k', v) :: d' => if eqb k' k then Some v else dict_get d' k
  end.

Fixpoint dict_set (d : list (K * V)) (k : K) (v : V) : list (K * V) :=
  match d with
  | [] => [(k, v)]
  | (k', v') :: d' =>
    if eqb k' k then (k', v) :: d' else (k', v') :: dict_set d' k v
  end.

End Dict.

(* ================================================================== *)
(** * 1. Datasets and the request URL *)
(* ================================================================== *)

Record Dataset : Set := mkDataset { path : string; default_item : Z }.

Definition DATASETS : list (string * Dataset) :=
  [ ("market_consume", mkDataset "SystemIntro" 2);
    ("house_consume",  mkDataset "Mind_House" 7);
    ("house_sale",     mkDataset "Mind_House_Cur" 12);
    ("house_rent",     mkDataset "Mind_Rent_Cur" 14);
    ("land_consume",   mkDataset "Mind_Land" 6) ]%string.

Definition BASE : string := "https://kremap.krihs.re.kr/menu2".

(** [DATASETS[key]] *)
Definition datasets_getitem (key : string) : result Dataset :=
  match dict_get String.eqb DATASETS key with
  | Some ds => Ok ds
  | None => Raise (KeyError key)
  end.

(** ** [urllib.parse.urlencode] *)

Definition hex_digit (n : N) : ascii :=
  ascii_of_N (if (n <? 10)%N then 48 + n else 55 + n).

(** The characters [quote_plus] never escapes: letters, digits and [_.-~]. *)
Definition always_safe (c : ascii) : bool :=
  let n := N_of_ascii c in
  ((48 <=? n) && (n <=? 57) || (65 <=? n) && (n <=? 90)
   || (97 <=? n) && (n <=? 122)
   || (n =? 95) || (n =? 46) || (n =? 45) || (n =? 126))%N.

Fixpoint quote_plus (s : string) : string :=
  match s with
  | EmptyString => EmptyString
  | String c s' =>
    if always_safe c then String c (quote_plus s')
    else if (N_of_ascii c =? 32)%N then String "+" (quote_plus s')
    else String "%" (String (hex_digit (N_of_ascii c / 16))
                       (String (hex_digit (N_of_ascii c mod 16))
                          (quote_plus s')))
  end.

Definition urlencode (params : list (string * string)) : string :=
  String.concat "&"
    (map (fun kv => (quote_plus (fst kv) ++ "=" ++ quote_plus (snd kv))%string)
         params).

Definition build_url (dataset_key : string) (year month : Z)
                     (item_cd : option Z) : result string :=
  match datasets_getitem dataset_key with
  | Raise e => Raise e
  | Ok ds =>
    let params :=
      [ ("area_cd", "11"); ("Gbn", "MONTH");
        ("year", py_str year); ("month", fmt_02d month) ]%string in
    let params :=
      if String.eqb (path ds) "SystemIntro"
      then dict_set String.eqb params "jin"%string "Jindan"%string
      else params in
    let params :=
      dict_set String.eqb params "item_cd"%string
               (py_str (py_or item_cd (default_item ds))) in
    Ok (BASE ++ "/" ++ path ds ++ "?" ++ urlencode params)%string
  end.

(* ================================================================== *)
(** * 2. The 25 districts of Seoul *)
(* ================================================================== *)

Definition SEOUL_GU_MAP : list (ustring * (string * string)) :=
  [ (u "종로구",   ("11110", "jongro"));
    (u "중구",     ("11140", "jung"));
    (u "용산구",   ("11170", "yongsan"));
    (u "성동구",   ("11200", "seongdong"));
    (u "광진구",   ("11215", "gwangjin"));
    (u "동대문구", ("11230", "dongdaemun"));
    (u "중랑구",   ("11260", "jungrang"));
    (u "성북구",   ("11290", "seongbuk"));
    (u "강북구",   ("11305", "gangbok"));
    (u "도봉구",   ("11320", "dobong"));
    (u "노원구",   ("11350", "nowon"));
    (u "은평구",   ("11380", "eunpyeung"));
    (u "서대문구", ("11410", "seodaemun"));
    (u "마포구",   ("11440", "mapo"));
    (u "양천구",   ("11470", "yangcheon"));
    (u "강서구",   ("11500", "gangseo"));
    (u "구로구",   ("11530", "guro"));
    (u "금천구",   ("11545", "geumcheon"));
    (u "영등포구", ("11560", "yeongdeungpo"));
    (u "동작구",   ("11590", "dongjak"));
    (u "관악구",   ("11620", "gwanak"));
    (u "서초구",   ("11650", "seocho"));
    (u "강남구",   ("11680", "gangnam"));
    (u "송파구",   ("11710", "songpa"));
    (u "강동구",   ("11740", "gangdong")) ]%string.

(** [SEOUL_GU_MAP.get(gu_name, ("", ""))] *)
Definition gu_lookup (gu_name : ustring) : string * string :=
  match dict_get ueqb SEOUL_GU_MAP gu_name with
  | Some ca => ca
  | None => (EmptyString, EmptyString)
  end.

(** Decimal digits, the range of the Unicode database's decimal property. *)
Inductive decimal_digit : Set :=
  d0 | d1 | d2 | d3 | d4 | d5 | d6 | d7 | d8 | d9.

Definition digit_value (d : decimal_digit) : Z :=
  match d with
  | d0 => 0 | d1 => 1 | d2 => 2 | d3 => 3 | d4 => 4
  | d5 => 5 | d6 => 6 | d7 => 7 | d8 => 8 | d9 => 9
  end.

(** The table that knows no decimal digit outside ASCII. *)
Definition ascii_digits_only : N -> option decimal_digit := fun _ => None.

Section Scorer.

(** The decimal property of the code points from U+0080 on, as the
    interpreter's Unicode database has it.  The pattern class [\d] and
    [int] both read it; the repository does not define it. *)
Variable unicode_decimal : N -> option decimal_digit.

(** The decimal value of a code point, if it is a decimal digit. *)
Definition py_decimal (c : N) : option Z :=
  if (c <? 128)%N
  then if ((48 <=? c) && (c <=? 57))%N then Some (Z.of_N c - 48) else None
  else option_map digit_value (unicode_decimal c).

(* ================================================================== *)
(** * 3. Scoring the weather icon *)
(* ================================================================== *)

Definition PLUS : N := 43.
Definition MINUS : N := 45.
Definition DAN : N := 45800.  (* U+B2E8 *)
Definition GYE : N := 44228.  (* U+ACC4 *)

(** The pattern [([+-])(\d)단계] tried at the head of [s]: group 1 as a code
    point and [int] of group 2. *)
Definition match_here (s : ustring) : option (N * Z) :=
  match s with
  | sg :: dg :: c3 :: c4 :: _ =>
    if ((sg =? PLUS) || (sg =? MINUS))%N
    then match py_decimal dg with
         | Some step =>
           if ((c3 =? DAN) && (c4 =? GYE))%N then Some (sg, step) else None
         | None => None
         end
    else None
  | _ => None
  end.

(** [re.search]: the leftmost position where the pattern matches. *)
Fixpoint re_search (s : ustring) : option (N * Z) :=
  match match_here s with
  | Some r => Some r
  | None =>
    match s with
    | [] => None
    | _ :: s' => re_search s'
    end
  end.

Inductive phase : Set := Contraction | Expansion | Stability.

Definition phase_of (alt : ustring) : option phase :=
  if startswith alt (u "수축") then Some Contraction
  else if startswith alt (u "확장") then Some Expansion
  else if startswith alt (u "안정") then Some Stability
  else None.

(** [sign] and [step] of the source, from the search result. *)
Definition sign_step (m : option (N * Z)) : Z * Z :=
  match m with
  | Some (g1, step) => (if (g1 =? MINUS)%N then -1 else 1, step)
  | None => (0, 0)
  end.

Definition score_weather (alt_text : ustring) : option Z :=
  match alt_text with
  | [] => None
  | _ =>
    let alt := remove_spaces alt_text in
    let phase := phase_of alt in
    let '(sign, step) := sign_step (re_search alt) in
    match phase with
    | Some Contraction => Some (- (step + 1))
    | Some Expansion => Some (step + 1)
    | Some Stability => Some (sign * step)
    | None => None
    end
  end.


End Scorer.

(* ================================================================== *)
(** * 4. Reading the table off the page *)
(* ================================================================== *)

(** A page as the locators of [parse_table_icons] see it: the tables whose
    id contains [GridView], each with its [tr] elements, each [tr] with the
    inner text of its [td] elements and the [alt] attribute of its [img]
    elements ([None] when the attribute is missing), all in document
    order. *)
Record Row : Set := mkRow {
  tds : list ustring;
  imgs : list (option ustring)
}.
Definition Table : Set := list Row.
Definition Page : Set := list Table.

(** Descriptors of one region: [{"weather": ..., "mom": ...}]. *)
Record Icons : Set := mkIcons { weather : ustring; mom : ustring }.

(** [max(range(len(sizes)), key=lambda i: sizes[i])] scans from the left and
    replaces its candidate only on a strictly larger key. *)
Fixpoint max_index_from (best : nat) (best_size : nat) (i : nat)
                        (sizes : list nat) : nat :=
  match sizes with
  | [] => best
  | v :: rest =>
    if (best_size <? v)%nat
    then max_index_from i v (S i) rest
    else max_index_from best best_size (S i) rest
  end.

Definition max_index (sizes : list nat) : nat :=
  match sizes with
  | [] => O
  | v :: rest => max_index_from 0 v 1 rest
  end.

Definition is_nil {A} (l : list A) : bool :=
  match l with [] => true | _ => false end.

(** [(img.get_attribute("alt") or "").strip()] of every image, the empty
    results dropped. *)
Definition collect_alts (r : Row) : list ustring :=
  filter (fun a => negb (is_nil a))
         (map (fun a => strip (match a with Some s => s | None => [] end))
              (imgs r)).

Definition HEADER_CAPTION : ustring := u "지역명".

(** One pass of the loop body over a [tr]: [None] stands for [continue]. *)
Definition parse_row (r : Row) : option (ustring * Icons) :=
  if (List.length (tds r) <? 2)%nat then None
  else
    let region := strip (nth 0 (tds r) []) in
    if is_nil region || ueqb region HEADER_CAPTION then None
    else
      let alts := collect_alts r in
      let weather_alt :=
        if (1 <=? List.length alts)%nat then nth 0 alts [] else [] in
      let mom_alt :=
        if (2 <=? List.length alts)%nat then last alts [] else [] in
      Some (region, mkIcons weather_alt mom_alt).

Fixpoint parse_rows (rows : list Row) (data : list (ustring * Icons))
  : list (ustring * Icons) :=
  match rows with
  | [] => data
  | r :: rows' =>
    match parse_row r with
    | None => parse_rows rows' data
    | Some (region, v) => parse_rows rows' (dict_set ueqb data region v)
    end
  end.

(** The table [parse_table_icons] settles on, when there is a candidate. *)
Definition select_table (page : Page) : option Table :=
  match page with
  | [] => None
  | _ =>
    let sizes := map (fun t => List.length t) page in
    Some (nth (max_index sizes) page [])
  end.

Definition parse_table_icons (page : Page) : list (ustring * Icons) :=
  match select_table page with
  | None => []
  | Some table => parse_rows table []
  end.

(* ================================================================== *)
(** * 5. Month utilities *)
(* ================================================================== *)

(** A (year, month) tuple; Python compares tuples lexicographically. *)
Definition ym : Set := (Z * Z)%type.

Definition ym_le (a b : ym) : bool :=
  (fst a <? fst b) || (fst a =? fst b) && (snd a <=? snd b).

Definition ym_lt (a b : ym) : bool :=
  (fst a <? fst b) || (fst a =? fst b) && (snd a <? snd b).

(** [a > b] *)
Definition ym_gt (a b : ym) : bool := ym_lt b a.

Definition next_month (year month : Z) : ym :=
  let month := month + 1 in
  if month >? 12 then (year + 1, 1) else (year, month).

(** The [while] loop of [month_iter], unrolled at most [fuel] times. *)
Fixpoint month_iter_loop (fuel : nat) (y m : Z) (end_ym : ym) : list ym :=
  match fuel with
  | O => []
  | S fuel' =>
    if ym_le (y, m) end_ym
    then (y, m) ::
         (let m := m + 1 in
          if m >? 12
          then month_iter_loop fuel' (y + 1) 1 end_ym
          else month_iter_loop fuel' y m end_ym)
    else []
  end.

(** A number of iterations the loop cannot exceed: it drops by one at every
    pass and is at least 12 whenever the loop condition holds. *)
Definition month_iter_bound (y m : Z) (end_ym : ym) : nat :=
  Z.to_nat ((fst end_ym - y + 1) * 12 + Z.max 0 (12 - m)).

(** [month_iter(start_ym, end_ym)] with [end_ym] given: the values the
    generator yields, in order.  The default of a missing [end_ym], the
    current month, is resolved by [collect] below, the only caller that
    may pass [None]. *)
Definition month_iter (start_ym end_ym : ym) : list ym :=
  let '(y, m) := start_ym in
  month_iter_loop (month_iter_bound y m end_ym) y m end_ym.

(* ================================================================== *)
(** * 6. Collecting *)
(* ================================================================== *)

(** One persisted observation, the dictionary [collect] appends. *)
Record ObsRow : Set := mkObsRow {
  r_dataset : string;
  r_item_cd : Z;
  r_year : Z;
  r_month : Z;
  r_region_name : ustring;
  r_region_code : string;
  r_region_alias : string;
  r_weather : ustring;
  r_weather_score : option Z;
  r_mom : ustring;
  r_url : string
}.

(** What a run does to the outside, in order. *)
Inductive event : Set :=
| EvGoto (url : string)                       (* new page, navigated to url *)
| EvClose (url : string)                      (* page.close() *)
| EvWarnNoData (key : string) (y m : Z)       (* [WARN] No data *)
| EvOk (key : string) (y m : Z) (n : nat)     (* [OK] ... rows=n *)
| EvCsv (rows : list ObsRow)                  (* CSV written *)
| EvUpsert (table_name : string) (rows : list ObsRow)
| EvInfoFresh (key : string) (start_ym : ym)
| EvInfoResume (key : string) (latest start_ym end_ym : ym)
| EvUpToDate (key : string).

(** The collaborators of a run. *)
Record World : Type := mkWorld {
  (** [date.today()] as (year, month) *)
  today : ym;
  (** navigating a fresh page to a URL and letting it settle: the page as
      the locators then see it, or the exception the engine raised *)
  goto : string -> result Page;
  (** [get_latest_ym_from_supabase(dataset_key, table_name)] *)
  latest_ym : string -> string -> option ym
}.

Section Collect.

Variable unicode_decimal : N -> option decimal_digit.
Variable w : World.

(** [item_cd or DATASETS[dataset_key].default_item]; the registry is only
    consulted when the override is falsy. *)
Definition row_item_cd (dataset_key : string) (item_cd : option Z)
  : result Z :=
  let fallback :=
    match datasets_getitem dataset_key with
    | Ok ds => Ok (default_item ds)
    | Raise e => Raise e
    end in
  match item_cd with
  | Some v => if v =? 0 then fallback else Ok v
  | None => fallback
  end.

(** The inner [for gu_name, v in table.items()] loop. *)
Fixpoint append_rows (dataset_key : string) (item_cd : option Z)
    (y m : Z) (url : string) (table : list (ustring * Icons))
    (rows : list ObsRow) : result (list ObsRow) :=
  match table with
  | [] => Ok rows
  | (gu_name, v) :: table' =>
    let '(region_code, alias) := gu_lookup gu_name in
    let score := score_weather unicode_decimal (weather v) in
    match row_item_cd dataset_key item_cd with
    | Raise e => Raise e
    | Ok code =>
      append_rows dataset_key item_cd y m url table'
        (rows ++ [mkObsRow dataset_key code y m gu_name region_code alias
                           (weather v) score (mom v) url])
    end
  end.

(** The [for y, m in month_iter(...)] loop.  [build_url] runs before the
    [try]; everything from [page.goto] on runs inside it, and the [finally]
    clause closes the page on either exit. *)
Fixpoint collect_loop (dataset_key : string) (item_cd : option Z)
    (periods : list ym) (rows : list ObsRow) (log : list event)
  : result (list ObsRow) * list event :=
  match periods with
  | [] => (Ok rows, log)
  | (y, m) :: periods' =>
    match build_url dataset_key y m item_cd with
    | Raise e => (Raise e, log)
    | Ok url =>
      match goto w url with
      | Raise e => (Raise e, log ++ [EvGoto url; EvClose url])
      | Ok page =>
        let table := parse_table_icons page in
        let warn :=
          if is_nil table then [EvWarnNoData dataset_key y m] else [] in
        match append_rows dataset_key item_cd y m url table rows with
        | Raise e => (Raise e, log ++ [EvGoto url] ++ warn ++ [EvClose url])
        | Ok rows' =>
          collect_loop dataset_key item_cd periods' rows'
            (log ++ [EvGoto url] ++ warn
                 ++ [EvOk dataset_key y m (List.length table); EvClose url])
        end
      end
    end
  end.

(** [collect], with the period loop as the only place that raises: the
    creation of the output directory, the browser, the CSV file and the
    call of [upsert_krihs_rows] are taken not to raise, and the last two
    appear as events only.  [collect_run], further down, is the same
    function with each of these calls as it can fail. *)
Definition collect (dataset_key : string) (start_ym : ym)
    (end_ym : option ym) (item_cd : option Z) (save_csv : bool)
    (save_supabase : bool) (supabase_table : string)
  : result (list ObsRow) * list event :=
  let end_ym := match end_ym with Some e => e | None => today w end in
  match collect_loop dataset_key item_cd (month_iter start_ym end_ym) [] []
  with
  | (Raise e, log) => (Raise e, log)
  | (Ok rows, log) =>
    let log :=
      if save_csv && negb (is_nil rows) then log ++ [EvCsv rows] else log in
    let log :=
      if save_supabase then log ++ [EvUpsert supabase_table rows] else log in
    (Ok rows, log)
  end.

(* ================================================================== *)
(** * 7. Incremental collection *)
(* ================================================================== *)

(** The first period still to collect. *)
Definition incremental_start (latest : option ym) (default_start_ym : ym)
  : ym :=
  match latest with
  | None => default_start_ym
  | Some (ly, lm) => next_month ly lm
  end.

(** [collect_incremental] over [collect], with the lookup of line 351 as
    the answer [latest_ym] of the world; [collect_incremental_run], further
    down, has the lookup itself and what it can raise. *)
Definition collect_incremental (dataset_key : string)
    (default_start_ym : ym) (end_ym : option ym) (item_cd : option Z)
    (save_csv : bool) (save_supabase : bool) (supabase_table : string)
  : result (list ObsRow) * list event :=
  let latest := latest_ym w dataset_key supabase_table in
  let end_ym := match end_ym with Some e => e | None => today w end in
  let start_ym := incremental_start latest default_start_ym in
  let info :=
    match latest with
    | None => EvInfoFresh dataset_key start_ym
    | Some l => EvInfoResume dataset_key l start_ym end_ym
    end in
  if ym_gt start_ym end_ym
  then (Ok [], [info; EvUpToDate dataset_key])
  else
    let '(r, log) :=
      collect dataset_key start_ym (Some end_ym) item_cd save_csv
              save_supabase supabase_table in
    (r, info :: log).

End Collect.

(* ================================================================== *)
(** * Vocabulary of the statements *)
(* ================================================================== *)

(** A calendar period: the month lies in 1..12. *)
Definition valid_ym (p : ym) : Prop := 1 <= snd p <= 12.

(** Every element is followed by its [next_month]. *)
Fixpoint consecutive (l : list ym) : Prop :=
  match l with
  | [] => True
  | a :: t =>
    match t with
    | [] => True
    | b :: _ => b = next_month (fst a) (snd a) /\ consecutive t
    end
  end.

(** The key is one of the five of the registry. *)
Definition registered (key : string) : Prop := In key (map fst DATASETS).

(** The URLs a run navigated to, and the URLs whose page it closed. *)
Fixpoint fetched (log : list event) : list string :=
  match log with
  | [] => []
  | EvGoto url :: log' => url :: fetched log'
  | _ :: log' => fetched log'
  end.

Fixpoint closed (log : list event) : list string :=
  match log with
  | [] => []
  | EvClose url :: log' => url :: closed log'
  | _ :: log' => closed log'
  end.

(** The periods for which an empty extraction was logged. *)
Fixpoint warned (log : list event) : list ym :=
  match log with
  | [] => []
  | EvWarnNoData _ y m :: log' => (y, m) :: warned log'
  | _ :: log' => warned log'
  end.

(** The URL of a period, for a registered key. *)
Definition planned_url (key : string) (item_cd : option Z) (p : ym)
  : string :=
  match build_url key (fst p) (snd p) item_cd with
  | Ok url => url
  | Raise _ => EmptyString
  end.

(** The row built from one entry of the extracted table. *)
Definition make_row (tbl : N -> option decimal_digit) (key : string)
    (code : Z) (p : ym) (url : string) (gv : ustring * Icons) : ObsRow :=
  mkObsRow key code (fst p) (snd p) (fst gv)
           (fst (gu_lookup (fst gv))) (snd (gu_lookup (fst gv)))
           (weather (snd gv)) (score_weather tbl (weather (snd gv)))
           (mom (snd gv)) url.

(** The rows one loaded page contributes. *)
Definition period_rows (tbl : N -> option decimal_digit) (key : string)
    (code : Z) (p : ym) (url : string) (page : Page) : list ObsRow :=
  map (make_row tbl key code p url) (parse_table_icons page).

(** The rows of a window all of whose pages load. *)
Definition window_rows (tbl : N -> option decimal_digit) (w : World)
    (key : string) (item_cd : option Z) (code : Z) (periods : list ym)
  : list ObsRow :=
  flat_map (fun p =>
              let url := planned_url key item_cd p in
              match goto w url with
              | Ok page => period_rows tbl key code p url page
              | Raise _ => []
              end) periods.

(** The page of the period loads and the extraction finds nothing. *)
Definition empty_extraction (w : World) (key : string) (item_cd : option Z)
    (p : ym) : bool :=
  match goto w (planned_url key item_cd p) with
  | Ok page => is_nil (parse_table_icons page)
  | Raise _ => false
  end.

(** The batches handed to the storage gateway. *)
Fixpoint upserts (log : list event) : list (list ObsRow) :=
  match log with
  | [] => []
  | EvUpsert _ rows :: log' => rows :: upserts log'
  | _ :: log' => upserts log'
  end.

(** The icons the last row naming [region] carries, among the rows that
    are not skipped. *)
Fixpoint last_icons (rows : list Row) (region : ustring) : option Icons :=
  match rows with
  | [] => None
  | r :: rows' =>
    match last_icons rows' region with
    | Some v => Some v
    | None =>
      match parse_row r with
      | Some (k, v) => if ueqb k region then Some v else None
      | None => None
      end
    end
  end.

(** ** The request URL as the interface description writes it

    [<base>/<path>?area_cd=11&Gbn=MONTH&year=<Y>&month=<MM>&item_cd=<code>]
    followed by [&jin=Jindan] for the composite dataset. *)
Definition two_digits (n : Z) : string :=
  String (ascii_of_N (48 + Z.to_N (n / 10)))
    (String (ascii_of_N (48 + Z.to_N (n mod 10))) EmptyString).

Definition spec_url (ds : Dataset) (year month code : Z) : string :=
  (BASE ++ "/" ++ path ds ++ "?area_cd=11&Gbn=MONTH&year=" ++ py_str year
        ++ "&month=" ++ two_digits month ++ "&item_cd=" ++ py_str code
        ++ (if String.eqb (path ds) "SystemIntro" then "&jin=Jindan" else ""))
  %string.

(** The URL [build_url] assembles: the marker stands before the item code. *)
Definition code_url (ds : Dataset) (year month code : Z) : string :=
  (BASE ++ "/" ++ path ds ++ "?area_cd=11&Gbn=MONTH&year=" ++ py_str year
        ++ "&month=" ++ two_digits month
        ++ (if String.eqb (path ds) "SystemIntro" then "&jin=Jindan" else "")
        ++ "&item_cd=" ++ py_str code)%string.

(** The item code the specification prescribes: the override when given. *)
Definition spec_item_code (ds : Dataset) (item_cd : option Z) : Z :=
  match item_cd with
  | Some v => v
  | None => default_item ds
  end.

(** Per-period isolation as the error-handling design words it: a run over
    a registered dataset returns its rows and visits every planned period,
    whatever the engine raises. *)
Definition isolates_failures (tbl : N -> option decimal_digit) (w : World)
    (key : string) (start_ym end_ym : ym) : Prop :=
  exists rows log,
    collect tbl w key start_ym (Some end_ym) None false false EmptyString
      = (Ok rows, log)
    /\ fetched log = map (planned_url key None) (month_iter start_ym end_ym).

(** Every character is one [quote_plus] leaves alone. *)
Fixpoint all_safe (s : string) : bool :=
  match s with
  | EmptyString => true
  | String c s' => always_safe c && all_safe s'
  end.

(** Position [i] holds a greatest element of [l], and no earlier position
    holds one as great. *)
Definition first_max (l : list nat) (i : nat) : Prop :=
  exists v,
    nth_error l i = Some v
    /\ (forall j x, nth_error l j = Some x -> (x <= v)%nat)
    /\ (forall j x, (j < i)%nat -> nth_error l j = Some x -> (x < v)%nat).

(** A page on which the January 2024 request of [house_rent] times out and
    every other request shows one district. *)
Definition flaky_world : World :=
  mkWorld (2024, 2)
    (fun url =>
       if String.eqb url (planned_url "house_rent" None (2024, 1))
       then Raise (EngineError "Timeout 60000ms exceeded")
       else Ok [[mkRow [u "종로구"; u ""] [Some (u "확장+1단계")]]])
    (fun _ _ => None).

(** ** The scoring pattern, read declaratively *)

(** [sign] of the source for a matched sign character. *)
Definition sign_of (g : N) : Z := if (g =? MINUS)%N then -1 else 1.

(** The pattern [[+-]<digit>단계] stands in [alt] right after [pre], with
    sign character [g] and a digit of value [n]. *)
Definition occurs_at (tbl : N -> option decimal_digit) (alt pre : ustring)
    (g : N) (n : Z) : Prop :=
  exists d suf,
    alt = pre ++ g :: d :: u "단계" ++ suf
    /\ (g = PLUS \/ g = MINUS)
    /\ py_decimal tbl d = Some n.

(** ... and nowhere further to the left: the match [re.search] reports. *)
Definition first_match (tbl : N -> option decimal_digit) (alt : ustring)
    (g : N) (n : Z) : Prop :=
  exists pre,
    occurs_at tbl alt pre g n
    /\ forall pre' g' n', occurs_at tbl alt pre' g' n' ->
                          (List.length pre <= List.length pre')%nat.

Definition no_match (tbl : N -> option decimal_digit) (alt : ustring)
  : Prop :=
  forall pre g n, ~ occurs_at tbl alt pre g n.

(** The contraction rule read with whitespace stripping in the sense of
    [str.strip]: a descriptor that, stripped, starts with the contraction
    token and first shows the pattern with a digit of value [n] scores
    -(n+1). *)
Definition rule_after_strip (tbl : N -> option decimal_digit) : Prop :=
  forall alt_text g n,
    let alt := strip alt_text in
    first_match tbl alt g n ->
    startswith alt (u "수축") = true ->
    score_weather tbl alt_text = Some (- (n + 1)).

(** A horizontal tab. *)
Definition TAB : N := 9%N.

(** The range the data model gives the weather score. *)
Definition in_score_range (s : option Z) : Prop :=
  match s with
  | None => True
  | Some z => -4 <= z <= 4
  end.

(* ================================================================== *)
(** * 0. The storage helpers of the collector *)
(* ================================================================== *)

(** Exceptions of the storage path: [RuntimeError], which the helpers
    catch by name, and any other exception. *)
Inductive py_exn : Set :=
| RuntimeError (msg : string)
| OtherError (msg : string).

Inductive outcome (A : Type) : Type :=
| Done (a : A)
| Thrown (e : py_exn).
Arguments Done {A} a.
Arguments Thrown {A} e.

(** The environment and the storage service, as the helpers meet them. *)
Record Storage : Type := mkStorage {
  (** [os.getenv("SUPABASE_URL", "")] and
      [os.getenv("SUPABASE_SERVICE_KEY", "")] after [load_dotenv()] *)
  env_url : string;
  env_key : string;
  (** [create_client(url, key)] *)
  create_client : string -> string -> outcome unit;
  (** [client.table(t).upsert(rows).execute()]: the number of rows in
      [res.data], 0 when there is none, or the exception raised *)
  upsert_execute : string -> list ObsRow -> outcome nat;
  (** the latest-period query for a table and a dataset: the rows of
      [res.data] with [int] applied to year and month, or the exception
      raised by the call or by the conversion *)
  select_latest : string -> string -> outcome (list ym)
}.

(** What the storage helpers do to the outside. *)
Inductive st_event : Set :=
| StInfoEmpty                                  (* [INFO] rows empty *)
| StWarnInit (msg : string)                    (* [WARN] client init failed *)
| StUpsertCall (table_name : string) (rows : list ObsRow)
| StUpserted (n : nat) (table_name : string)   (* [Supabase] upsert done *)
| StErrUpsert (e : py_exn)                     (* [ERROR] during upsert *)
| StSelectCall (table_name : string) (key : string)
| StErrSelect (e : py_exn).                    (* [ERROR] during query *)

Definition str_empty (s : string) : bool :=
  match s with EmptyString => true | _ => false end.

Definition get_supabase_client (st : Storage) : outcome unit :=
  if str_empty (env_url st) || str_empty (env_key st)
  then Thrown (RuntimeError "Supabase URL or KEY is not set")
  else create_client st (env_url st) (env_key st).

Definition upsert_krihs_rows (st : Storage) (rows : list ObsRow)
    (table_name : string) : outcome unit * list st_event :=
  if is_nil rows then (Done tt, [StInfoEmpty])
  else
    match get_supabase_client st with
    | Thrown (RuntimeError msg) => (Done tt, [StWarnInit msg])
    | Thrown e => (Thrown e, [])
    | Done _ =>
      match upsert_execute st table_name rows with
      | Done inserted =>
        (Done tt, [StUpsertCall table_name rows;
                   StUpserted inserted table_name])
      | Thrown e =>
        (Done tt, [StUpsertCall table_name rows; StErrUpsert e])
      end
    end.

Definition get_latest_ym_from_supabase (st : Storage) (dataset_key : string)
    (table_name : string) : outcome (option ym) * list st_event :=
  match get_supabase_client st with
  | Thrown (RuntimeError msg) => (Done None, [StWarnInit msg])
  | Thrown e => (Thrown e, [])
  | Done _ =>
    match select_latest st table_name dataset_key with
    | Thrown e =>
      (Done None, [StSelectCall table_name dataset_key; StErrSelect e])
    | Done [] => (Done None, [StSelectCall table_name dataset_key])
    | Done (row :: _) =>
      (Done (Some row), [StSelectCall table_name dataset_key])
    end
  end.

(** The rows the helpers handed to the service. *)
Fixpoint sent (log : list st_event) : list (list ObsRow) :=
  match log with
  | [] => []
  | StUpsertCall _ rows :: log' => rows :: sent log'
  | _ :: log' => sent log'
  end.

(* ================================================================== *)
(** * 6 and 7 again: a run with everything that can raise *)
(* ================================================================== *)

(** The calls of [collect] outside the period loop that can raise, next
    to the storage helpers. *)
Record Host : Type := mkHost {
  (** [Path(out_path).parent.mkdir(parents=True, exist_ok=True)] *)
  mkdir_parent : string -> outcome unit;
  (** entering [sync_playwright()], [chromium.launch] and [new_context] *)
  browser_start : outcome unit;
  (** [ctx.close()] and [browser.close()] after the loop *)
  browser_stop : outcome unit;
  (** opening [out_path] and writing the header and the rows *)
  write_csv : string -> list ObsRow -> outcome unit
}.

(** An exception that leaves a run: one of the period loop, or one of the
    directory, the browser, the CSV file or the storage helpers. *)
Inductive run_exn : Set :=
| LoopExn (e : exn)
| HostExn (e : py_exn).

Inductive run_result (A : Type) : Type :=
| Returned (a : A)
| Raised (e : run_exn).
Arguments Returned {A} a.
Arguments Raised {A} e.

(** What a whole run does to the outside, in order. *)
Inductive run_event : Set :=
| RLoop (e : event)                                (* loop and [INFO] lines *)
| RCsv (out_path : string) (rows : list ObsRow)    (* CSV file written *)
| RStore (e : st_event).                           (* storage helper *)

(** Lines 292-303 of [collect]: the CSV file, then the upsert, then the
    return.  An exception of the file or of [upsert_krihs_rows] is not
    caught. *)
Definition save_rows (h : Host) (st : Storage) (rows : list ObsRow)
    (save_csv : bool) (out_path : string) (save_supabase : bool)
    (supabase_table : string)
  : run_result (list ObsRow) * list run_event :=
  let upsert (tr : list run_event) :=
    if save_supabase then
      match upsert_krihs_rows st rows supabase_table with
      | (Thrown e, sl) => (Raised (HostExn e), tr ++ map RStore sl)
      | (Done _, sl) => (Returned rows, tr ++ map RStore sl)
      end
    else (Returned rows, tr) in
  if save_csv && negb (is_nil rows) then
    match write_csv h out_path rows with
    | Thrown e => (Raised (HostExn e), [])
    | Done _ => upsert [RCsv out_path rows]
    end
  else upsert [].

(** [collect], lines 238-303, with the storage helper of section 0 in the
    place of line 301.  An exception of the loop leaves through the [with]
    block, past lines 289-303. *)
Definition collect_run (tbl : N -> option decimal_digit) (w : World)
    (h : Host) (st : Storage) (dataset_key : string) (start_ym : ym)
    (end_ym : option ym) (item_cd : option Z) (save_csv : bool)
    (out_path : string) (save_supabase : bool) (supabase_table : string)
  : run_result (list ObsRow) * list run_event :=
  match mkdir_parent h out_path with
  | Thrown e => (Raised (HostExn e), [])
  | Done _ =>
    match browser_start h with
    | Thrown e => (Raised (HostExn e), [])
    | Done _ =>
      let end_ym := match end_ym with Some e => e | None => today w end in
      match collect_loop tbl w dataset_key item_cd
                         (month_iter start_ym end_ym) [] [] with
      | (Raise e, log) => (Raised (LoopExn e), map RLoop log)
      | (Ok rows, log) =>
        match browser_stop h with
        | Thrown e => (Raised (HostExn e), map RLoop log)
        | Done _ =>
          let '(r, tr) :=
            save_rows h st rows save_csv out_path save_supabase
                      supabase_table in
          (r, map RLoop log ++ tr)
        end
      end
    end
  end.

(** [collect_incremental], lines 340-380, with
    [get_latest_ym_from_supabase] of section 0 in the place of line 351:
    what the lookup raises is not caught. *)
Definition collect_incremental_run (tbl : N -> option decimal_digit)
    (w : World) (h : Host) (st : Storage) (dataset_key : string)
    (default_start_ym : ym) (end_ym : option ym) (item_cd : option Z)
    (save_csv : bool) (out_path : string) (save_supabase : bool)
    (supabase_table : string)
  : run_result (list ObsRow) * list run_event :=
  match get_latest_ym_from_supabase st dataset_key supabase_table with
  | (Thrown e, sl) => (Raised (HostExn e), map RStore sl)
  | (Done latest, sl) =>
    let end_ym := match end_ym with Some e => e | None => today w end in
    let start_ym := incremental_start latest default_start_ym in
    let info :=
      match latest with
      | None => EvInfoFresh dataset_key start_ym
      | Some l => EvInfoResume dataset_key l start_ym end_ym
      end in
    if ym_gt start_ym end_ym
    then (Returned [],
          map RStore sl ++ [RLoop info; RLoop (EvUpToDate dataset_key)])
    else
      let '(r, tr) :=
        collect_run tbl w h st dataset_key start_ym (Some end_ym) item_cd
                    save_csv out_path save_supabase supabase_table in
      (r, map RStore sl ++ RLoop info :: tr)
  end.

(** The parts of a trace. *)
Fixpoint loop_events (tr : list run_event) : list event :=
  match tr with
  | [] => []
  | RLoop e :: tr' => e :: loop_events tr'
  | _ :: tr' => loop_events tr'
  end.

Fixpoint store_events (tr : list run_event) : list st_event :=
  match tr with
  | [] => []
  | RStore e :: tr' => e :: store_events tr'
  | _ :: tr' => store_events tr'
  end.

Fixpoint csv_files (tr : list run_event) : list (string * list ObsRow) :=
  match tr with
  | [] => []
  | RCsv out_path rows :: tr' => (out_path, rows) :: csv_files tr'
  | _ :: tr' => csv_files tr'
  end.

(** Neither the directory, the browser nor the CSV file raises. *)
Definition host_ok (h : Host) : Prop :=
  (forall out_path, mkdir_parent h out_path = Done tt)
  /\ browser_start h = Done tt
  /\ browser_stop h = Done tt
  /\ (forall out_path rows, write_csv h out_path rows = Done tt).

(** Creating the client raises nothing but, at most, the [RuntimeError]
    of a missing credential. *)
Definition client_ok (st : Storage) : Prop :=
  forall msg, get_supabase_client st <> Thrown (OtherError msg).

(** A result of the period loop as the result of a whole run. *)
Definition of_loop {A} (r : result A) : run_result A :=
  match r with
  | Ok a => Returned a
  | Raise e => Raised (LoopExn e)
  end.

(* ================================================================== *)
(** * The dashboard helpers of [pj_krihs_streamlit_map.py] *)
(* ================================================================== *)

(** [sorted(l)]: a stable insertion into ascending order. *)
Section Sorting.
Context {A : Type} (ltb : A -> A -> bool).

Fixpoint insert_sorted (x : A) (l : list A) : list A :=
  match l with
  | [] => [x]
  | y :: l' => if ltb x y then x :: l else y :: insert_sorted x l'
  end.

Definition py_sorted (l : list A) : list A :=
  fold_left (fun acc x => insert_sorted x acc) l [].

End Sorting.

Definition ym_eqb (a b : ym) : bool :=
  (fst a =? fst b) && (snd a =? snd b).

Fixpoint mem_ym (k : ym) (seen : list ym) : bool :=
  match seen with
  | [] => false
  | k' :: seen' => ym_eqb k' k || mem_ym k seen'
  end.

(** The [for row in res.data] loop of [get_recent_ym_list], with its
    [continue] and its [break]. *)
Fixpoint recent_loop (data : list ym) (seen : list ym) (ym_desc : list ym)
  : list ym :=
  match data with
  | [] => ym_desc
  | key :: data' =>
    if mem_ym key seen then recent_loop data' seen ym_desc
    else
      let seen := key :: seen in
      let ym_desc := ym_desc ++ [key] in
      if (36 <=? List.length ym_desc)%nat then ym_desc
      else recent_loop data' seen ym_desc
  end.

Section Dashboard.

(** [res.data] of the (year, month) query for a dataset, with [int]
    applied to both columns: the client is taken to be there and the call
    to succeed. *)
Variable select_ym : string -> list ym.

Definition get_recent_ym_list (dataset : string) : list ym :=
  match select_ym dataset with
  | [] => []
  | data => py_sorted ym_lt (recent_loop data [] [])
  end.

(** [sorted({y for (y, _) in ym_list})] *)
Definition get_year_options (dataset : string) : list Z :=
  let ym_list := get_recent_ym_list dataset in
  py_sorted Z.ltb (nodup Z.eq_dec (map fst ym_list)).

(** [sorted({m for (y, m) in ym_list if y == year})] *)
Definition get_month_options (dataset : string) (year : Z) : list Z :=
  let ym_list := get_recent_ym_list dataset in
  py_sorted Z.ltb
    (nodup Z.eq_dec
       (map snd (filter (fun p : ym => fst p =? year) ym_list))).

End Dashboard.

(** The loop of [prev_n_months]. *)
Fixpoint prev_n_months_loop (n : nat) (y m : Z) : list ym :=
  match n with
  | O => []
  | S n' =>
    (y, m) ::
    (let m := m - 1 in
     if m <? 1 then prev_n_months_loop n' (y - 1) 12
     else prev_n_months_loop n' y m)
  end.

(** [prev_n_months(year, month, n)]; [range(n)] is empty for [n <= 0]. *)
Definition prev_n_months (year month n : Z) : list ym :=
  prev_n_months_loop (Z.to_nat n) year month.

Definition ym_label (y m : Z) : string :=
  (py_str y ++ "-" ++ fmt_02d m)%string.

Definition SCORE_COLOR_MAP : list (Z * string) :=
  [ (-4, "#08306b"); (-3, "#2171b5"); (-2, "#6baed6"); (-1, "#c6dbef");
    (0, "#f7f7f7");
    (1, "#fee0d2"); (2, "#fc9272"); (3, "#fb6a4a"); (4, "#cb181d") ]%string.

Definition DEFAULT_COLOR : string := "#d9d9d9".

(** The scores [weather_score_to_color] is modelled on: [None], the empty
    string it tests for, and an integer. *)
Inductive score_value : Set :=
| ScoreNone
| ScoreEmpty
| ScoreInt (z : Z).

Definition weather_score_to_color (score : score_value) : string :=
  match score with
  | ScoreNone => DEFAULT_COLOR
  | ScoreEmpty => DEFAULT_COLOR
  | ScoreInt z =>
    let s := Z.max (-4) (Z.min 4 z) in
    match dict_get Z.eqb SCORE_COLOR_MAP s with
    | Some c => c
    | None => DEFAULT_COLOR
    end
  end.

(** The marker sizes of [main]: [radii], the loop that fills [radius_map]
    from [enumerate(reversed(ym_list))], and [radius_map.get(ym_str, 8)].
    [None] stands for the [IndexError] of [radii[idx]]. *)
Definition radii : list Z := [6; 9; 12].

Fixpoint fill_radius_map (idx : nat) (yms : list ym)
    (radius_map : list (string * Z)) : option (list (string * Z)) :=
  match yms with
  | [] => Some radius_map
  | (y, mth) :: yms' =>
    match nth_error radii idx with
    | None => None
    | Some r =>
      fill_radius_map (S idx) yms'
        (dict_set String.eqb radius_map (ym_label y mth) r)
    end
  end.

Definition main_radius_map (year month : Z) : option (list (string * Z)) :=
  fill_radius_map 0 (rev (prev_n_months year month 3)) [].

Definition marker_radius (radius_map : list (string * Z)) (ym_str : string)
  : Z :=
  match dict_get String.eqb radius_map ym_str with
  | Some r => r
  | None => 8
  end.

(* ================================================================== *)
(** * 8. The main block of the collector *)
(* ================================================================== *)

(** [f"output/{key}_incremental.csv"] *)
Definition csv_path (key : string) : string :=
  ("output/" ++ key ++ "_incremental.csv")%string.

(** The [for key in targets] loop of the main block: one incremental run
    per dataset, from January 2015 to the current month, with the CSV file
    and the upsert switched on.  Each dataset's trace is kept under its
    key; nothing is caught, so an exception ends the loop. *)
Fixpoint main_loop (tbl : N -> option decimal_digit) (w : World)
    (h : Host) (st : Storage) (targets : list string) (end_ym : ym)
  : run_result unit * list (string * list run_event) :=
  match targets with
  | [] => (Returned tt, [])
  | key :: targets' =>
    match collect_incremental_run tbl w h st key (2015, 1) (Some end_ym)
            None true (csv_path key) true "krihs_mindicons" with
    | (Raised e, tr) => (Raised e, [(key, tr)])
    | (Returned _, tr) =>
      let '(r, logs) := main_loop tbl w h st targets' end_ym in
      (r, (key, tr) :: logs)
    end
  end.

Definition main_block (tbl : N -> option decimal_digit) (w : World)
    (h : Host) (st : Storage)
  : run_result unit * list (string * list run_event) :=
  main_loop tbl w h st (map fst DATASETS) (today w).

(** No whitespace at either end. *)
Definition trimmed (s : ustring) : Prop :=
  (forall c t, s = c :: t -> isspace c = false)
  /\ (forall c t, s = t ++ [c] -> isspace c = false).

(** ** Vocabulary of the further statements *)

(** [k in d] for a dictionary with the keys [keys]. *)
Fixpoint mem_key (k : ustring) (keys : list ustring) : bool :=
  match keys with
  | [] => false
  | k' :: keys' => ueqb k' k || mem_key k keys'
  end.

(** The regions of the rows of a table that are not skipped, in order. *)
Fixpoint row_regions (rows : list Row) : list ustring :=
  match rows with
  | [] => []
  | r :: rows' =>
    match parse_row r with
    | Some (k, _) => k :: row_regions rows'
    | None => row_regions rows'
    end
  end.


(** The month before a period. *)
Definition prev_month (p : ym) : ym :=
  if snd p - 1 <? 1 then (fst p - 1, 12) else (fst p, snd p - 1).

(** The position of a calendar period on the line of months. *)
Definition month_index (p : ym) : Z := 12 * fst p + snd p.

(** The logical key of a row. *)
Definition row_key (r : ObsRow) : string * ustring * Z * Z :=
  (r_dataset r, r_region_name r, r_year r, r_month r).

(** The score of a row as the dashboard function takes it. *)
Definition score_arg (s : option Z) : score_value :=
  match s with
  | Some z => ScoreInt z
  | None => ScoreNone
  end.

(** Sample values: a row, a storage without its key, one whose upsert
    call fails and one that holds two periods. *)
Definition sample_row : ObsRow :=
  mkObsRow "house_rent" 14 2024 2 (u "종로구") "11110" "jongro"
           (u "확장+1단계") (Some 2) [] EmptyString.

Definition storage_without_key : Storage :=
  mkStorage "https://example.supabase.co" EmptyString
            (fun _ _ => Done tt) (fun _ _ => Done 1%nat)
            (fun _ _ => Done []).

Definition storage_failing_upsert : Storage :=
  mkStorage "https://example.supabase.co" "secret"
            (fun _ _ => Done tt) (fun _ _ => Thrown (OtherError "503"))
            (fun _ _ => Done [(2024, 9); (2024, 8)]).

(** A host on which nothing raises, and a storage whose client cannot be
    created for a reason other than a missing credential. *)
Definition quiet_host : Host :=
  mkHost (fun _ => Done tt) (Done tt) (Done tt) (fun _ _ => Done tt).

Definition storage_refusing_client : Storage :=
  mkStorage "https://example.supabase.co" "secret"
            (fun _ _ => Thrown (OtherError "Invalid API key"))
            (fun _ _ => Done 1%nat) (fun _ _ => Done []).

(** The CSV files a run wrote. *)
Fixpoint csvs (log : list event) : list (list ObsRow) :=
  match log with
  | [] => []
  | EvCsv rows :: log' => rows :: csvs log'
  | _ :: log' => csvs log'
  end.

(* ================================================================== *)
(** * Facts about the text primitives *)
(* ================================================================== *)

Lemma ueqb_eq a b : ueqb a b = true <-> a = b.
Proof.
  unfold ueqb. destruct (list_eq_dec N.eq_dec a b); split; congruence.
Qed.

Lemma ueqb_refl a : ueqb a a = true.
Proof. apply ueqb_eq. reflexivity. Qed.

(* ================================================================== *)
(** * Facts about the month utilities *)
(* ================================================================== *)

Lemma ym_le_spec a b :
  ym_le a b = true <-> fst a < fst b \/ (fst a = fst b /\ snd a <= snd b).
Proof. unfold ym_le. destruct a, b; simpl. lia. Qed.

Lemma ym_lt_spec a b :
  ym_lt a b = true <-> fst a < fst b \/ (fst a = fst b /\ snd a < snd b).
Proof. unfold ym_lt. destruct a, b; simpl. lia. Qed.

Lemma ym_gt_not_le a b : ym_gt a b = negb (ym_le a b).
Proof.
  unfold ym_gt.
  destruct (ym_lt b a) eqn:E1, (ym_le a b) eqn:E2; try reflexivity.
  - apply ym_lt_spec in E1. apply ym_le_spec in E2. lia.
  - assert (H1 : ~ (fst b < fst a \/ fst b = fst a /\ snd b < snd a))
      by (rewrite <- ym_lt_spec; congruence).
    assert (H2 : ~ (fst a < fst b \/ fst a = fst b /\ snd a <= snd b))
      by (rewrite <- ym_le_spec; congruence).
    lia.
Qed.

Lemma next_month_gt y m : ym_lt (y, m) (next_month y m) = true.
Proof.
  apply ym_lt_spec. unfold next_month.
  destruct (m + 1 >? 12) eqn:E; simpl; lia.
Qed.

(** More fuel than the bound changes nothing: the bound always suffices. *)
Lemma month_iter_loop_fuel e : forall fuel y m,
  (month_iter_bound y m e <= fuel)%nat ->
  month_iter_loop fuel y m e = month_iter_loop (month_iter_bound y m e) y m e.
Proof.
  induction fuel as [|fuel IH]; intros y m Hb.
  - replace (month_iter_bound y m e) with O by lia. reflexivity.
  - destruct (ym_le (y, m) e) eqn:Hle.
    + assert (Hpos : exists k, month_iter_bound y m e = S k
                /\ (if m + 1 >? 12
                    then month_iter_bound (y + 1) 1 e = k
                    else month_iter_bound y (m + 1) e = k)).
      { apply ym_le_spec in Hle. simpl in Hle.
        exists (Nat.pred (month_iter_bound y m e)).
        unfold month_iter_bound in *.
        destruct (m + 1 >? 12) eqn:E; split; lia. }
      destruct Hpos as (k & Hk & Hstep).
      rewrite Hk. simpl. rewrite Hle.
      destruct (m + 1 >? 12) eqn:E.
      * rewrite IH by lia. now rewrite Hstep.
      * rewrite IH by lia. now rewrite Hstep.
    + simpl. rewrite Hle.
      destruct (month_iter_bound y m e); simpl; [|rewrite Hle]; reflexivity.
Qed.

(** The loop equation of the generator. *)
Lemma month_iter_unfold y m e :
  month_iter (y, m) e =
  if ym_le (y, m) e then (y, m) :: month_iter (next_month y m) e else [].
Proof.
  unfold month_iter at 1.
  destruct (ym_le (y, m) e) eqn:Hle.
  - assert (Hb : exists k, month_iter_bound y m e = S k).
    { apply ym_le_spec in Hle. simpl in Hle.
      exists (Nat.pred (month_iter_bound y m e)).
      unfold month_iter_bound. lia. }
    destruct Hb as (k & Hk). rewrite Hk. simpl. rewrite Hle.
    f_equal. unfold next_month, month_iter.
    assert (Hstep : if m + 1 >? 12
                    then month_iter_bound (y + 1) 1 e = k
                    else month_iter_bound y (m + 1) e = k).
    { apply ym_le_spec in Hle. simpl in Hle.
      unfold month_iter_bound in *. destruct (m + 1 >? 12) eqn:E; lia. }
    destruct (m + 1 >? 12); now rewrite Hstep.
  - destruct (month_iter_bound y m e); simpl; [|rewrite Hle]; reflexivity.
Qed.

(** Induction along the iterations of [month_iter]. *)
Lemma month_iter_ind (e : ym) (P : ym -> list ym -> Prop) :
  (forall y m, ym_le (y, m) e = false -> P (y, m) []) ->
  (forall y m, ym_le (y, m) e = true ->
     P (next_month y m) (month_iter (next_month y m) e) ->
     P (y, m) ((y, m) :: month_iter (next_month y m) e)) ->
  forall s, P s (month_iter s e).
Proof.
  intros Hstop Hstep.
  assert (H : forall n y m, (month_iter_bound y m e <= n)%nat ->
                            P (y, m) (month_iter (y, m) e)).
  { induction n as [|n IH]; intros y m Hb; rewrite month_iter_unfold;
      destruct (ym_le (y, m) e) eqn:Hle; try (now apply Hstop).
    - exfalso. apply ym_le_spec in Hle. simpl in Hle.
      unfold month_iter_bound in Hb. lia.
    - apply Hstep; [exact Hle|].
      unfold next_month. apply ym_le_spec in Hle. simpl in Hle.
      destruct (m + 1 >? 12) eqn:E; apply IH;
        unfold month_iter_bound in *; lia. }
  intros [y m]. apply (H (month_iter_bound y m e)). lia.
Qed.

Lemma month_iter_empty s e : ym_gt s e = true -> month_iter s e = [].
Proof.
  intros H. rewrite ym_gt_not_le in H. destruct s as [y m].
  rewrite month_iter_unfold.
  destruct (ym_le (y, m) e); [discriminate|reflexivity].
Qed.

Lemma month_iter_head s e :
  ym_le s e = true -> exists rest, month_iter s e = s :: rest.
Proof.
  destruct s as [y m]. intros H. rewrite month_iter_unfold, H. eauto.
Qed.

Lemma month_iter_consecutive s e : consecutive (month_iter s e).
Proof.
  apply (month_iter_ind e (fun _ l => consecutive l)).
  - intros; exact I.
  - intros y m _ IH. destruct (next_month y m) as [y' m'] eqn:En.
    rewrite month_iter_unfold in *.
    destruct (ym_le (y', m') e); simpl; auto.
Qed.

Lemma month_iter_sorted s e :
  Sorted (fun a b => ym_lt a b = true) (month_iter s e).
Proof.
  apply (month_iter_ind e
           (fun _ l => Sorted (fun a b => ym_lt a b = true) l)).
  - intros; constructor.
  - intros y m _ IH. constructor; [exact IH|].
    destruct (next_month y m) as [y' m'] eqn:En.
    rewrite month_iter_unfold.
    destruct (ym_le (y', m') e); constructor.
    rewrite <- En. apply next_month_gt.
Qed.

Lemma next_month_valid y m : valid_ym (y, m) -> valid_ym (next_month y m).
Proof.
  unfold valid_ym, next_month. simpl.
  destruct (m + 1 >? 12) eqn:E; simpl; lia.
Qed.

Lemma next_month_least y m p :
  valid_ym (y, m) -> valid_ym p -> ym_lt (y, m) p = true ->
  ym_le (next_month y m) p = true.
Proof.
  unfold valid_ym. intros Hv Hp Hlt. apply ym_lt_spec in Hlt.
  apply ym_le_spec. unfold next_month. destruct p as [py pm]. simpl in *.
  destruct (m + 1 >? 12) eqn:E; simpl; lia.
Qed.

Lemma month_iter_In s e p :
  valid_ym s ->
  (In p (month_iter s e) <->
   valid_ym p /\ ym_le s p = true /\ ym_le p e = true).
Proof.
  revert p.
  apply (month_iter_ind e
           (fun s l => forall p, valid_ym s ->
              (In p l <->
               valid_ym p /\ ym_le s p = true /\ ym_le p e = true))).
  - intros y m Hle p Hv. split; [intros []|].
    intros (_ & H1 & H2). exfalso.
    apply ym_le_spec in H1, H2.
    assert (Hn : ~ (fst (y, m) < fst e
                    \/ fst (y, m) = fst e /\ snd (y, m) <= snd e))
      by (rewrite <- ym_le_spec; congruence).
    simpl in *. lia.
  - intros y m Hle IH p Hv. simpl. rewrite (IH p (next_month_valid _ _ Hv)).
    split.
    + intros [<-|(Hp & H1 & H2)].
      * split; [exact Hv|]. split; [|exact Hle].
        apply ym_le_spec. simpl. lia.
      * split; [exact Hp|]. split; [|exact H2].
        pose proof (next_month_gt y m) as Hg.
        apply ym_lt_spec in Hg. apply ym_le_spec in H1.
        apply ym_le_spec. simpl in *. lia.
    + intros (Hp & H1 & H2).
      destruct (ym_lt (y, m) p) eqn:Hlt.
      * right. split; [exact Hp|]. split; [|exact H2].
        now apply next_month_least.
      * left. apply ym_le_spec in H1.
        assert (Hn : ~ (fst (y, m) < fst p
                        \/ fst (y, m) = fst p /\ snd (y, m) < snd p))
          by (rewrite <- ym_lt_spec; congruence).
        destruct p as [py pm]. simpl in *. f_equal; lia.
Qed.

Lemma last_cons_default {A} (l : list A) : forall a d d',
  last (a :: l) d = last (a :: l) d'.
Proof.
  induction l as [|b l IH]; intros a d d'; [reflexivity|].
  change (last (b :: l) d = last (b :: l) d'). apply IH.
Qed.

Lemma month_iter_last s e :
  valid_ym s -> valid_ym e -> ym_le s e = true ->
  last (month_iter s e) s = e.
Proof.
  intros Hs He. revert Hs.
  apply (month_iter_ind e
           (fun s l => valid_ym s -> ym_le s e = true -> last l s = e)).
  - intros y m Hle _ H. congruence.
  - intros y m _ IH Hv Hle.
    destruct (next_month y m) as [y' m'] eqn:En.
    rewrite month_iter_unfold in *.
    destruct (ym_le (y', m') e) eqn:Hle'.
    + specialize (IH ltac:(rewrite <- En; now apply next_month_valid) eq_refl).
      remember (month_iter (next_month y' m') e) as tl.
      change (last ((y', m') :: tl) (y, m) = e).
      rewrite <- IH. apply last_cons_default.
    + simpl. apply ym_le_spec in Hle.
      assert (Hn : ~ (fst (y', m') < fst e
                      \/ fst (y', m') = fst e /\ snd (y', m') <= snd e))
        by (rewrite <- ym_le_spec; congruence).
      unfold valid_ym, next_month in *. destruct e as [ey em].
      destruct (m + 1 >? 12) eqn:E; inversion En; subst; simpl in *;
        f_equal; lia.
Qed.

(** C6 — Period sequencing.  [month_iter start end] is empty when
    [start > end]; for calendar periods with [start <= end] it begins at
    [start] and ends at [end]; each element is followed by its successor,
    so the sequence ascends strictly; it holds exactly the calendar periods
    between the bounds; on ((2024,11),(2025,2)) it is the four periods
    expected.  [next_month] gives the least calendar period above its
    argument, rolls the year over from month 12 and otherwise adds one
    month: (2024,12) gives (2025,1) and (2024,5) gives (2024,6). *)
Theorem period_sequencing :
  (forall s e, ym_gt s e = true -> month_iter s e = []) /\
  (forall s e, valid_ym s -> valid_ym e -> ym_le s e = true ->
     hd_error (month_iter s e) = Some s /\ last (month_iter s e) s = e) /\
  (forall s e, consecutive (month_iter s e)
               /\ Sorted (fun a b => ym_lt a b = true) (month_iter s e)) /\
  (forall s e p, valid_ym s ->
     (In p (month_iter s e) <->
      valid_ym p /\ ym_le s p = true /\ ym_le p e = true)) /\
  month_iter (2024, 11) (2025, 2)
    = [(2024, 11); (2024, 12); (2025, 1); (2025, 2)] /\
  (forall y m, valid_ym (y, m) ->
     valid_ym (next_month y m) /\
     ym_lt (y, m) (next_month y m) = true /\
     (forall p, valid_ym p -> ym_lt (y, m) p = true ->
                ym_le (next_month y m) p = true) /\
     next_month y m = if m =? 12 then (y + 1, 1) else (y, m + 1)) /\
  next_month 2024 12 = (2025, 1) /\
  next_month 2024 5 = (2024, 6).
Proof.
  split; [exact month_iter_empty|].
  split.
  { intros s e Hs He Hle. split; [|now apply month_iter_last].
    destruct (month_iter_head s e Hle) as (rest & ->). reflexivity. }
  split.
  { intros s e. split; [apply month_iter_consecutive|apply month_iter_sorted]. }
  split; [exact month_iter_In|].
  split; [reflexivity|].
  split; [|split; reflexivity].
  intros y m Hv. split; [now apply next_month_valid|].
  split; [apply next_month_gt|].
  split; [intros p Hp Hlt; now apply next_month_least|].
  unfold valid_ym, next_month in *. simpl in Hv.
  destruct (m + 1 >? 12) eqn:E, (m =? 12) eqn:E'; try reflexivity; lia.
Qed.

Lemma period_sequencing_witness :
  month_iter (2025, 3) (2025, 2) = []
  /\ last (month_iter (2024, 11) (2025, 2)) (2024, 11) = (2025, 2)
  /\ In (2025, 1) (month_iter (2024, 11) (2025, 2))
  /\ next_month 2024 12 = (2025, 1).
Proof.
  destruct period_sequencing as (H1 & H2 & _ & H4 & _ & H6 & _).
  split; [apply H1; reflexivity|].
  split; [apply H2; [unfold valid_ym; simpl; lia
                    |unfold valid_ym; simpl; lia|reflexivity]|].
  split; [apply H4; unfold valid_ym; simpl;
          repeat split; try lia; reflexivity|].
  destruct (H6 2024 12) as (_ & _ & _ & H); [unfold valid_ym; simpl; lia|].
  exact H.
Defined.

(* ================================================================== *)
(** * Facts about the scorer *)
(* ================================================================== *)

Section ScorerFacts.

Variable tbl : N -> option decimal_digit.

Lemma u_dangye : u "단계" = [DAN; GYE].
Proof. reflexivity. Qed.

Lemma py_decimal_range c v : py_decimal tbl c = Some v -> 0 <= v <= 9.
Proof.
  unfold py_decimal. destruct (c <? 128)%N.
  - destruct ((48 <=? c) && (c <=? 57))%N eqn:E; [|discriminate].
    intros [= <-]. apply andb_prop in E as [E1 E2].
    apply N.leb_le in E1, E2. lia.
  - destruct (tbl c) as [d|]; [|discriminate].
    intros [= <-]. destruct d; simpl; lia.
Qed.

Lemma match_here_Some s g n :
  match_here tbl s = Some (g, n) <-> occurs_at tbl s [] g n.
Proof.
  unfold occurs_at. rewrite u_dangye. simpl. split.
  - destruct s as [|sg [|dg [|c3 [|c4 rest]]]]; try discriminate. simpl.
    destruct ((sg =? PLUS) || (sg =? MINUS))%N eqn:Esg; [|discriminate].
    destruct (py_decimal tbl dg) as [step|] eqn:Edg; [|discriminate].
    destruct ((c3 =? DAN) && (c4 =? GYE))%N eqn:Ec; [|discriminate].
    intros [= <- <-]. apply andb_prop in Ec as [E3 E4].
    apply N.eqb_eq in E3, E4. subst c3 c4.
    exists dg, rest. split; [reflexivity|]. split; [|exact Edg].
    apply orb_prop in Esg as [E|E]; apply N.eqb_eq in E; auto.
  - intros (d & suf & -> & Hg & Hd).
    destruct Hg as [->| ->]; unfold match_here; rewrite Hd; reflexivity.
Qed.

Lemma occurs_at_cons c alt pre g n :
  occurs_at tbl (c :: alt) (c :: pre) g n <-> occurs_at tbl alt pre g n.
Proof.
  unfold occurs_at. split; intros (d & suf & H & Hg & Hd); exists d, suf;
    (split; [|split; assumption]).
  - simpl in H. now inversion H.
  - simpl. now rewrite H.
Qed.

Lemma occurs_at_head c c' alt pre g n :
  occurs_at tbl (c :: alt) (c' :: pre) g n -> c' = c.
Proof. intros (d & suf & H & _). simpl in H. now inversion H. Qed.

Lemma re_search_unfold s :
  re_search tbl s =
  match match_here tbl s with
  | Some r => Some r
  | None => match s with [] => None | _ :: s' => re_search tbl s' end
  end.
Proof. destruct s; reflexivity. Qed.

(** [re_search] reports the leftmost occurrence. *)
Lemma re_search_first alt g n :
  first_match tbl alt g n -> re_search tbl alt = Some (g, n).
Proof.
  intros (pre & Hocc & Hleft). revert alt Hocc Hleft.
  induction pre as [|c pre IH]; intros alt Hocc Hleft.
  - apply match_here_Some in Hocc.
    rewrite re_search_unfold. now rewrite Hocc.
  - destruct alt as [|c' alt].
    { destruct Hocc as (d & suf & H & _). discriminate. }
    pose proof (occurs_at_head _ _ _ _ _ _ Hocc) as ->.
    rewrite re_search_unfold.
    destruct (match_here tbl (c' :: alt)) as [[g' n']|] eqn:Em.
    + apply match_here_Some in Em. apply Hleft in Em. simpl in Em. lia.
    + apply IH.
      * now apply occurs_at_cons in Hocc.
      * intros pre' g' n' H'.
        apply (occurs_at_cons c') in H'. apply Hleft in H'. simpl in H'. lia.
Qed.

Lemma re_search_none alt : no_match tbl alt -> re_search tbl alt = None.
Proof.
  induction alt as [|c alt IH]; intros Hno.
  - reflexivity.
  - rewrite re_search_unfold.
    destruct (match_here tbl (c :: alt)) as [[g n]|] eqn:Em.
    + apply match_here_Some in Em. now apply Hno in Em.
    + apply IH. intros pre g n H. apply (occurs_at_cons c) in H.
      now apply Hno in H.
Qed.

Lemma re_search_range alt g n :
  re_search tbl alt = Some (g, n) -> 0 <= n <= 9.
Proof.
  induction alt as [|c alt IH]; rewrite re_search_unfold.
  - discriminate.
  - destruct (match_here tbl (c :: alt)) as [[g' n']|] eqn:Em.
    + intros [= <- <-]. apply match_here_Some in Em.
      destruct Em as (d & suf & _ & _ & Hd).
      now apply py_decimal_range in Hd.
    + exact IH.
Qed.

Lemma score_weather_nonempty alt_text :
  alt_text <> [] ->
  score_weather tbl alt_text =
  let alt := remove_spaces alt_text in
  let ss := sign_step (re_search tbl alt) in
  match phase_of alt with
  | Some Contraction => Some (- (snd ss + 1))
  | Some Expansion => Some (snd ss + 1)
  | Some Stability => Some (fst ss * snd ss)
  | None => None
  end.
Proof.
  intros Hne. destruct alt_text as [|c t]; [congruence|].
  unfold score_weather. cbv zeta.
  destruct (sign_step (re_search tbl (remove_spaces (c :: t)))).
  reflexivity.
Qed.

Lemma startswith_nonempty alt_text c p :
  startswith (remove_spaces alt_text) (c :: p) = true -> alt_text <> [].
Proof. intros H ->. discriminate. Qed.

Lemma startswith_cons c s d p :
  startswith (c :: s) (d :: p) = (d =? c)%N && startswith s p.
Proof. reflexivity. Qed.

Lemma phase_of_cases alt :
  (startswith alt (u "수축") = true -> phase_of alt = Some Contraction) /\
  (startswith alt (u "확장") = true -> phase_of alt = Some Expansion) /\
  (startswith alt (u "안정") = true -> phase_of alt = Some Stability) /\
  (startswith alt (u "수축") = false -> startswith alt (u "확장") = false ->
   startswith alt (u "안정") = false -> phase_of alt = None).
Proof.
  unfold phase_of.
  change (u "수축") with [49688; 52629]%N.
  change (u "확장") with [54869; 51109]%N.
  change (u "안정") with [50504; 51221]%N.
  destruct alt as [|c alt].
  { repeat split; intros; try discriminate; reflexivity. }
  rewrite !startswith_cons.
  destruct (49688 =? c)%N eqn:E1; destruct (54869 =? c)%N eqn:E2;
    destruct (50504 =? c)%N eqn:E3;
    try (apply N.eqb_eq in E1); try (apply N.eqb_eq in E2);
    try (apply N.eqb_eq in E3); try lia;
    rewrite ?andb_true_l, ?andb_false_l;
    repeat split; intros; try discriminate;
    repeat match goal with
           | H : startswith _ _ = _ |- _ => rewrite H
           end; reflexivity.
Qed.

(** Any score lies between -10 and 10. *)
Lemma score_weather_bound alt_text z :
  score_weather tbl alt_text = Some z -> -10 <= z <= 10.
Proof.
  destruct alt_text as [|c t]; [discriminate|].
  rewrite score_weather_nonempty by discriminate. cbv zeta.
  destruct (re_search tbl (remove_spaces (c :: t))) as [[g n]|] eqn:Es.
  - apply re_search_range in Es. simpl.
    destruct (phase_of _) as [[]|]; intros [= <-];
      destruct (g =? MINUS)%N; lia.
  - simpl. destruct (phase_of _) as [[]|]; intros [= <-]; lia.
Qed.

End ScorerFacts.

(** C2 (amended) — Scoring rule.  The scorer removes every space
    character U+0020 from the descriptor and nothing else: a tab or any
    other whitespace stays.  With [alt] the descriptor after that removal:
    when the pattern [[+-]N단계] first occurs in [alt] with sign character
    [g] and digit value [n], a descriptor that starts with the contraction
    token scores -(n+1), one that starts with the expansion token scores
    n+1, one that starts with the stability token scores sign(g)*n; when
    the pattern does not occur these scores are -1, 1 and 0; a descriptor
    that starts with none of the three tokens, and the empty descriptor,
    have no score.  The four examples of the specification hold; spaces
    inside the token or the pattern do not change the score, while a
    leading tab leaves the descriptor without a score and a tab inside the
    pattern hides the magnitude. *)
Theorem scoring_rule (tbl : N -> option decimal_digit) :
  (remove_spaces [] = []
   /\ (forall s, remove_spaces (32%N :: s) = remove_spaces s)
   /\ (forall c s, c <> 32%N ->
                   remove_spaces (c :: s) = c :: remove_spaces s)) /\
  (forall alt_text g n,
     let alt := remove_spaces alt_text in
     first_match tbl alt g n ->
     (startswith alt (u "수축") = true ->
      score_weather tbl alt_text = Some (- (n + 1))) /\
     (startswith alt (u "확장") = true ->
      score_weather tbl alt_text = Some (n + 1)) /\
     (startswith alt (u "안정") = true ->
      score_weather tbl alt_text = Some (sign_of g * n))) /\
  (forall alt_text,
     let alt := remove_spaces alt_text in
     no_match tbl alt ->
     (startswith alt (u "수축") = true ->
      score_weather tbl alt_text = Some (-1)) /\
     (startswith alt (u "확장") = true ->
      score_weather tbl alt_text = Some 1) /\
     (startswith alt (u "안정") = true ->
      score_weather tbl alt_text = Some 0)) /\
  (forall alt_text,
     let alt := remove_spaces alt_text in
     startswith alt (u "수축") = false ->
     startswith alt (u "확장") = false ->
     startswith alt (u "안정") = false ->
     score_weather tbl alt_text = None) /\
  score_weather tbl [] = None /\
  score_weather tbl (u "수축+2단계") = Some (-3) /\
  score_weather tbl (u "확장-1단계") = Some 2 /\
  score_weather tbl (u "안정-2단계") = Some (-2) /\
  score_weather tbl (u "안정") = Some 0 /\
  score_weather tbl (u " 수 축 + 2 단 계 ") = Some (-3) /\
  score_weather tbl (TAB :: u "수축+2단계") = None /\
  score_weather tbl (u "수축+" ++ TAB :: u "2단계") = Some (-1).
Proof.
  split; [|split; [|split; [|split]]].
  - split; [reflexivity|]. split; [reflexivity|].
    intros c s Hc. unfold remove_spaces. cbn [filter].
    destruct (c =? 32)%N eqn:E; [apply N.eqb_eq in E; contradiction|].
    reflexivity.
  - intros alt_text g n alt Hm.
    apply re_search_first in Hm.
    destruct (phase_of_cases alt) as (Hc & He & Hs & _).
    repeat split; intros Hp;
      rewrite score_weather_nonempty
        by (eapply startswith_nonempty; exact Hp);
      cbv zeta; fold alt; rewrite Hm;
      [rewrite (Hc Hp)|rewrite (He Hp)|rewrite (Hs Hp)]; reflexivity.
  - intros alt_text alt Hm.
    apply re_search_none in Hm.
    destruct (phase_of_cases alt) as (Hc & He & Hs & _).
    repeat split; intros Hp;
      rewrite score_weather_nonempty
        by (eapply startswith_nonempty; exact Hp);
      cbv zeta; fold alt; rewrite Hm;
      [rewrite (Hc Hp)|rewrite (He Hp)|rewrite (Hs Hp)]; reflexivity.
  - intros alt_text alt H1 H2 H3.
    destruct alt_text as [|c t]; [reflexivity|].
    rewrite score_weather_nonempty by discriminate.
    cbv zeta. fold alt.
    destruct (phase_of_cases alt) as (_ & _ & _ & Hn).
    now rewrite (Hn H1 H2 H3).
  - repeat split; reflexivity.
Qed.

Lemma no_match_short tbl alt :
  (List.length alt < 4)%nat -> no_match tbl alt.
Proof.
  intros Hlen pre g n (d & suf & H & _).
  apply (f_equal (@List.length N)) in H.
  rewrite length_app in H. simpl in H. lia.
Qed.

(** A pattern right after a two-character phase token is the first one. *)
Lemma first_match_after_token tbl a b g d n suf :
  (g = PLUS \/ g = MINUS) -> py_decimal tbl d = Some n ->
  a <> PLUS -> a <> MINUS -> b <> PLUS -> b <> MINUS ->
  first_match tbl (a :: b :: g :: d :: u "단계" ++ suf) g n.
Proof.
  intros Hg Hd Ha1 Ha2 Hb1 Hb2. exists [a; b]. split.
  - exists d, suf. auto.
  - intros pre' g' n' (d' & suf' & H & Hg' & _).
    destruct pre' as [|a' [|b' pre'']]; simpl; try lia; exfalso;
      simpl in H; inversion H; subst; destruct Hg'; congruence.
Qed.

Lemma scoring_rule_witness :
  score_weather ascii_digits_only (u " 수 축 + 2 단계") = Some (- (2 + 1))
  /\ score_weather ascii_digits_only (u "안 정") = Some 0
  /\ score_weather ascii_digits_only (TAB :: u "확장+1단계") = None.
Proof.
  destruct (scoring_rule ascii_digits_only) as (_ & H1 & H2 & H3 & _).
  split; [|split].
  - refine (proj1 (H1 (u " 수 축 + 2 단계") PLUS 2 _) eq_refl).
    apply (first_match_after_token ascii_digits_only
             49688%N 52629%N PLUS 50%N 2 []);
      try (now left); try reflexivity; discriminate.
  - refine (proj2 (proj2 (H2 (u "안 정") _)) eq_refl).
    apply no_match_short. vm_compute. lia.
  - apply H3; reflexivity.
Defined.

(** C2 — whitespace other than the space is not removed: behind a tab, a
    contraction descriptor of magnitude 2 has no score, although the text
    with its whitespace stripped, at the ends or everywhere, starts with
    the contraction token and shows the pattern. *)
Lemma scoring_rule_counterexample :
  strip (TAB :: u "수축+2단계") = u "수축+2단계"
  /\ filter (fun c => negb (isspace c)) (TAB :: u "수축+2단계")
     = u "수축+2단계"
  /\ score_weather ascii_digits_only (u "수축+2단계") = Some (-3)
  /\ score_weather ascii_digits_only (TAB :: u "수축+2단계") = None
  /\ ~ rule_after_strip ascii_digits_only.
Proof.
  split; [reflexivity|]. split; [reflexivity|]. split; [reflexivity|].
  split; [reflexivity|].
  intros H.
  specialize (H (TAB :: u "수축+2단계") PLUS 2).
  cbv zeta in H.
  change (strip (TAB :: u "수축+2단계"))
    with (49688%N :: 52629%N :: PLUS :: 50%N :: u "단계" ++ []) in H.
  assert (Hm : first_match ascii_digits_only
                 (49688%N :: 52629%N :: PLUS :: 50%N :: u "단계" ++ [])
                 PLUS 2).
  { apply first_match_after_token;
      try (now left); try reflexivity; discriminate. }
  specialize (H Hm eq_refl). discriminate H.
Qed.

(* ================================================================== *)
(** * Facts about the registry and the URL builder *)
(* ================================================================== *)

Lemma dict_get_None {V} (d : list (string * V)) k :
  dict_get String.eqb d k = None <-> ~ In k (map fst d).
Proof.
  induction d as [|[k' v] d IH]; simpl.
  - tauto.
  - destruct (String.eqb k' k) eqn:E.
    + apply String.eqb_eq in E. split; [discriminate|]. intros H. tauto.
    + apply String.eqb_neq in E. rewrite IH. tauto.
Qed.

Lemma datasets_getitem_unregistered key :
  ~ registered key -> datasets_getitem key = Raise (KeyError key).
Proof.
  intros H. apply dict_get_None in H. unfold datasets_getitem.
  now rewrite H.
Qed.

Lemma datasets_getitem_registered key :
  registered key -> exists ds, datasets_getitem key = Ok ds.
Proof.
  intros H. unfold datasets_getitem.
  destruct (dict_get String.eqb DATASETS key) eqn:E; [eauto|].
  apply dict_get_None in E. contradiction.
Qed.

Lemma dict_get_Some {V} (d : list (string * V)) k v :
  dict_get String.eqb d k = Some v -> In (k, v) d.
Proof.
  induction d as [|[k' v'] d IH]; simpl; [discriminate|].
  destruct (String.eqb k' k) eqn:E.
  - apply String.eqb_eq in E. intros [= ->]. subst. auto.
  - auto.
Qed.

Lemma datasets_getitem_Ok key ds :
  datasets_getitem key = Ok ds ->
  registered key /\ In (key, ds) DATASETS.
Proof.
  unfold datasets_getitem, registered.
  destruct (dict_get String.eqb DATASETS key) as [v|] eqn:E; [|discriminate].
  intros [= ->]. apply dict_get_Some in E. split; [|exact E].
  change key with (fst (key, ds)). now apply in_map.
Qed.

Lemma quote_plus_safe s : all_safe s = true -> quote_plus s = s.
Proof.
  induction s as [|c s IH]; simpl; [reflexivity|].
  intros H. apply andb_prop in H as [Hc Hs]. now rewrite Hc, IH.
Qed.

Lemma uint_safe d : all_safe (NilEmpty.string_of_uint d) = true.
Proof. induction d; simpl; auto. Qed.

Lemma py_str_safe n : all_safe (py_str n) = true.
Proof.
  unfold py_str. destruct n as [|p|p]; [reflexivity| |];
    unfold Z.to_int, NilZero.string_of_int, NilZero.string_of_uint;
    [|change (all_safe (String "-" ?s)) with (all_safe s)];
    destruct (Pos.to_uint p) eqn:E;
    try reflexivity; rewrite <- E; try apply uint_safe.
Qed.

Lemma fmt_02d_safe n : all_safe (fmt_02d n) = true.
Proof.
  unfold fmt_02d. destruct ((0 <=? n) && (n <? 10)).
  - simpl. apply py_str_safe.
  - apply py_str_safe.
Qed.

Lemma fmt_02d_two_digits n : 0 <= n < 100 -> fmt_02d n = two_digits n.
Proof.
  intros H.
  assert (Hn : forall k : nat, (k < 100)%nat ->
                 fmt_02d (Z.of_nat k) = two_digits (Z.of_nat k)).
  { intros k Hk. do 100 (destruct k as [|k]; [reflexivity|]). lia. }
  rewrite <- (Z2Nat.id n) by lia. apply Hn. lia.
Qed.

(** The URL of a registered dataset, for any year and month. *)
Lemma build_url_registered key ds year month item_cd :
  datasets_getitem key = Ok ds ->
  build_url key year month item_cd =
  Ok (BASE ++ "/" ++ path ds ++ "?area_cd=11&Gbn=MONTH&year=" ++ py_str year
           ++ "&month=" ++ fmt_02d month
           ++ (if String.eqb (path ds) "SystemIntro"
               then "&jin=Jindan" else "")
           ++ "&item_cd=" ++ py_str (py_or item_cd (default_item ds)))%string.
Proof.
  intros H. unfold build_url. rewrite H. f_equal. f_equal. f_equal. f_equal.
  destruct (String.eqb (path ds) "SystemIntro"); unfold urlencode; simpl;
    rewrite !quote_plus_safe
      by (apply py_str_safe || apply fmt_02d_safe); reflexivity.
Qed.

(** C3 (amended) — URL input validation.  For a key that is not in the
    registry [build_url] raises [KeyError] and builds no URL.  The month is
    not checked: for a registered key every year and every month, inside
    1..12 or not, gives a URL, with the month printed by the [02d] format. *)
Theorem url_validation key year month item_cd :
  (~ registered key ->
   build_url key year month item_cd = Raise (KeyError key)) /\
  (registered key ->
   exists ds,
     datasets_getitem key = Ok ds /\
     build_url key year month item_cd =
     Ok (BASE ++ "/" ++ path ds ++ "?area_cd=11&Gbn=MONTH&year="
              ++ py_str year ++ "&month=" ++ fmt_02d month
              ++ (if String.eqb (path ds) "SystemIntro"
                  then "&jin=Jindan" else "")
              ++ "&item_cd=" ++ py_str (py_or item_cd (default_item ds)))
        %string).
Proof.
  split.
  - intros H. unfold build_url.
    now rewrite (datasets_getitem_unregistered key H).
  - intros H. destruct (datasets_getitem_registered key H) as (ds & Hds).
    exists ds. split; [exact Hds|]. now apply build_url_registered.
Qed.

Lemma url_validation_witness :
  build_url "rent" 2023 4 None = Raise (KeyError "rent")
  /\ exists ds, datasets_getitem "house_rent" = Ok ds
       /\ build_url "house_rent" 2023 0 None =
          Ok (BASE ++ "/" ++ path ds ++ "?area_cd=11&Gbn=MONTH&year="
                   ++ py_str 2023 ++ "&month=" ++ fmt_02d 0
                   ++ (if String.eqb (path ds) "SystemIntro"
                       then "&jin=Jindan" else "")
                   ++ "&item_cd=" ++ py_str (py_or None (default_item ds)))
             %string.
Proof.
  split.
  - apply (url_validation "rent" 2023 4 None).
    unfold registered. simpl.
    intros H; repeat (destruct H as [H|H]; [discriminate|]); exact H.
  - apply (url_validation "house_rent" 2023 0 None).
    unfold registered. simpl. tauto.
Defined.

(** C3 — a month outside 1..12 is accepted and a URL is built. *)
Lemma url_validation_counterexample :
  build_url "house_rent" 2023 13 None =
  Ok ("https://kremap.krihs.re.kr/menu2/Mind_Rent_Cur"
        ++ "?area_cd=11&Gbn=MONTH&year=2023&month=13&item_cd=14")%string.
Proof. reflexivity. Qed.

(** C7 (amended) — URL shape.  For a registered key with record [ds], any
    year, a month in 1..12 and any override, [build_url] returns
    [<base>/<path>?area_cd=11&Gbn=MONTH&year=<Y>&month=<MM>[&jin=Jindan]&item_cd=<code>]:
    the month has two digits, the marker stands before the item code and is
    there exactly for the dataset whose path is [SystemIntro], which is
    [market_consume], and the code is the override when one is given and is
    not zero, the default of the dataset otherwise.  On
    ("house_rent", 2023, 4) the URL carries item code 14. *)
Theorem url_shape key ds year month item_cd :
  datasets_getitem key = Ok ds ->
  1 <= month <= 12 ->
  build_url key year month item_cd =
    Ok (code_url ds year month
          (match item_cd with
           | Some v => if v =? 0 then default_item ds else v
           | None => default_item ds
           end))
  /\ (String.eqb (path ds) "SystemIntro" = true <-> key = "market_consume"%string)
  /\ build_url "house_rent" 2023 4 None =
     Ok ("https://kremap.krihs.re.kr/menu2/Mind_Rent_Cur"
           ++ "?area_cd=11&Gbn=MONTH&year=2023&month=04&item_cd=14")%string.
Proof.
  intros Hds Hm. split; [|split; [|reflexivity]].
  - rewrite (build_url_registered _ _ _ _ _ Hds).
    rewrite fmt_02d_two_digits by lia. reflexivity.
  - apply datasets_getitem_Ok in Hds as [_ Hin]. simpl in Hin.
    repeat (destruct Hin as [Hin|Hin];
            [inversion Hin; subst; simpl; split; congruence|]).
    destruct Hin.
Qed.

Lemma url_shape_witness :
  build_url "market_consume" 2024 12 (Some 3) =
  Ok ("https://kremap.krihs.re.kr/menu2/SystemIntro"
        ++ "?area_cd=11&Gbn=MONTH&year=2024&month=12&jin=Jindan&item_cd=3")
     %string.
Proof.
  refine (proj1 (url_shape "market_consume" (mkDataset "SystemIntro" 2)
                           2024 12 (Some 3) eq_refl _)).
  lia.
Defined.

(** C7 — for the composite dataset the marker does not come last, and an
    override of zero is not used. *)
Lemma url_shape_counterexample :
  build_url "market_consume" 2023 4 None =
    Ok ("https://kremap.krihs.re.kr/menu2/SystemIntro"
          ++ "?area_cd=11&Gbn=MONTH&year=2023&month=04&jin=Jindan&item_cd=2")
       %string
  /\ spec_url (mkDataset "SystemIntro" 2) 2023 4
              (spec_item_code (mkDataset "SystemIntro" 2) None) =
     ("https://kremap.krihs.re.kr/menu2/SystemIntro"
        ++ "?area_cd=11&Gbn=MONTH&year=2023&month=04&item_cd=2&jin=Jindan")
     %string
  /\ build_url "market_consume" 2023 4 None <>
     Ok (spec_url (mkDataset "SystemIntro" 2) 2023 4
                  (spec_item_code (mkDataset "SystemIntro" 2) None))
  /\ build_url "house_rent" 2023 4 (Some 0) <>
     Ok (spec_url (mkDataset "Mind_Rent_Cur" 14) 2023 4
                  (spec_item_code (mkDataset "Mind_Rent_Cur" 14) (Some 0))).
Proof.
  split; [reflexivity|]. split; [reflexivity|].
  split; vm_compute; discriminate.
Qed.

(* ================================================================== *)
(** * Facts about the collector *)
(* ================================================================== *)

Section CollectFacts.

Variable tbl : N -> option decimal_digit.
Variable w : World.

Lemma fetched_app l1 l2 : fetched (l1 ++ l2) = fetched l1 ++ fetched l2.
Proof.
  induction l1 as [|ev l1 IH]; [reflexivity|].
  destruct ev; simpl; rewrite IH; reflexivity.
Qed.

Lemma closed_app l1 l2 : closed (l1 ++ l2) = closed l1 ++ closed l2.
Proof.
  induction l1 as [|ev l1 IH]; [reflexivity|].
  destruct ev; simpl; rewrite IH; reflexivity.
Qed.

Lemma warned_app l1 l2 : warned (l1 ++ l2) = warned l1 ++ warned l2.
Proof.
  induction l1 as [|ev l1 IH]; [reflexivity|].
  destruct ev; simpl; rewrite IH; reflexivity.
Qed.

Lemma upserts_app l1 l2 : upserts (l1 ++ l2) = upserts l1 ++ upserts l2.
Proof.
  induction l1 as [|ev l1 IH]; [reflexivity|].
  destruct ev; simpl; rewrite IH; reflexivity.
Qed.

Lemma row_item_cd_registered key ds item_cd :
  datasets_getitem key = Ok ds ->
  row_item_cd key item_cd = Ok (py_or item_cd (default_item ds)).
Proof.
  intros H. unfold row_item_cd, py_or. rewrite H.
  destruct item_cd as [v|]; [destruct (v =? 0)|]; reflexivity.
Qed.

Lemma planned_url_registered key ds item_cd y m :
  datasets_getitem key = Ok ds ->
  build_url key y m item_cd = Ok (planned_url key item_cd (y, m)).
Proof.
  intros H. unfold planned_url. simpl.
  now rewrite (build_url_registered _ _ _ _ _ H).
Qed.

Lemma append_rows_Ok key item_cd code y m url table :
  row_item_cd key item_cd = Ok code ->
  forall rows,
    append_rows tbl key item_cd y m url table rows =
    Ok (rows ++ map (make_row tbl key code (y, m) url) table).
Proof.
  intros H. induction table as [|[gu v] table IH]; intros rows; simpl.
  - now rewrite app_nil_r.
  - destruct (gu_lookup gu) as [rc al] eqn:E. rewrite H, IH, <- app_assoc.
    unfold make_row at 2. simpl. now rewrite E.
Qed.

(** What holds of every appended row holds of every returned row. *)
Lemma append_rows_inv (P : ObsRow -> Prop) key item_cd y m url :
  (forall code gv, row_item_cd key item_cd = Ok code ->
                   P (make_row tbl key code (y, m) url gv)) ->
  forall table rows rows',
    Forall P rows ->
    append_rows tbl key item_cd y m url table rows = Ok rows' ->
    Forall P rows'.
Proof.
  intros HP table rows rows' Hrows.
  destruct (row_item_cd key item_cd) as [code|e] eqn:Ec.
  - rewrite (append_rows_Ok _ _ _ _ _ _ _ Ec). intros [= <-].
    apply Forall_app. split; [exact Hrows|].
    apply Forall_forall. intros r Hr. apply in_map_iff in Hr as (gv & <- & _).
    now apply HP.
  - destruct table as [|[gu v] table]; simpl.
    + now intros [= <-].
    + destruct (gu_lookup gu). now rewrite Ec.
Qed.

Lemma collect_loop_inv (P : ObsRow -> Prop) key item_cd :
  (forall code p url gv, row_item_cd key item_cd = Ok code ->
                         P (make_row tbl key code p url gv)) ->
  forall periods rows log rows' log',
    Forall P rows ->
    collect_loop tbl w key item_cd periods rows log = (Ok rows', log') ->
    Forall P rows'.
Proof.
  intros HP. induction periods as [|[y m] periods IH];
    intros rows log rows' log' Hrows; simpl.
  - now intros [= <- _].
  - destruct (build_url key y m item_cd) as [url|]; [|discriminate].
    destruct (goto w url) as [page|]; [|discriminate].
    destruct (append_rows tbl key item_cd y m url (parse_table_icons page) rows)
      as [rows1|] eqn:Ea; [|discriminate].
    apply IH.
    eapply (append_rows_inv P); [|exact Hrows|exact Ea].
    intros code gv Hc. now apply HP.
Qed.

Lemma collect_inv (P : ObsRow -> Prop) key item_cd :
  (forall code p url gv, row_item_cd key item_cd = Ok code ->
                         P (make_row tbl key code p url gv)) ->
  forall s e csv sup table rows log,
    collect tbl w key s e item_cd csv sup table = (Ok rows, log) ->
    Forall P rows.
Proof.
  intros HP s e csv sup table rows log. unfold collect.
  destruct (collect_loop tbl w key item_cd _ [] []) as [[rows1|] log1] eqn:El;
    [|discriminate].
  intros [= <- _]. eapply (collect_loop_inv P); [exact HP| |exact El].
  constructor.
Qed.

(** A window all of whose pages load. *)
Lemma collect_loop_all_load key ds item_cd :
  datasets_getitem key = Ok ds ->
  forall periods rows log,
    (forall p, In p periods ->
       exists page, goto w (planned_url key item_cd p) = Ok page) ->
    exists log',
      collect_loop tbl w key item_cd periods rows log =
        (Ok (rows ++ window_rows tbl w key item_cd
                       (py_or item_cd (default_item ds)) periods), log')
      /\ fetched log' = fetched log ++ map (planned_url key item_cd) periods
      /\ closed log' = closed log ++ map (planned_url key item_cd) periods
      /\ warned log' =
         warned log ++ filter (empty_extraction w key item_cd) periods
      /\ upserts log' = upserts log.
Proof.
  intros Hds. induction periods as [|[y m] periods IH]; intros rows log Hload.
  - exists log. simpl. rewrite !app_nil_r. auto.
  - destruct (Hload (y, m) (or_introl eq_refl)) as (page & Hpage).
    simpl. rewrite (planned_url_registered _ _ _ _ _ Hds), Hpage.
    rewrite (append_rows_Ok _ _ _ _ _ _ _
               (row_item_cd_registered _ _ item_cd Hds)).
    match goal with
    | |- context [collect_loop _ _ _ _ _ ?r ?l] =>
      destruct (IH r l) as (log' & Hrun & Hf & Hc & Hw & Hu)
    end.
    { intros p Hp. apply Hload. now right. }
    exists log'. rewrite Hrun, Hf, Hc, Hw, Hu.
    unfold empty_extraction at 2. rewrite Hpage.
    rewrite !fetched_app, !closed_app, !warned_app, !upserts_app.
    unfold period_rows. rewrite <- !app_assoc.
    destruct (is_nil (parse_table_icons page)); simpl;
      rewrite ?app_nil_r; auto.
Qed.

(** A window whose first failing page is that of [p]. *)
Lemma collect_loop_failure key ds item_cd p post e :
  datasets_getitem key = Ok ds ->
  goto w (planned_url key item_cd p) = Raise e ->
  forall pre rows log,
    (forall q, In q pre ->
       exists page, goto w (planned_url key item_cd q) = Ok page) ->
    exists log',
      collect_loop tbl w key item_cd (pre ++ p :: post) rows log =
        (Raise e, log')
      /\ fetched log' =
         fetched log ++ map (planned_url key item_cd) (pre ++ [p])
      /\ closed log' =
         closed log ++ map (planned_url key item_cd) (pre ++ [p])
      /\ upserts log' = upserts log.
Proof.
  intros Hds Hfail. induction pre as [|[y m] pre IH]; intros rows log Hload.
  - destruct p as [y m]. simpl.
    rewrite (planned_url_registered _ _ _ _ _ Hds), Hfail.
    eexists. split; [reflexivity|].
    rewrite !fetched_app, !closed_app, !upserts_app. simpl.
    rewrite ?app_nil_r. auto.
  - destruct (Hload (y, m) (or_introl eq_refl)) as (page & Hpage).
    simpl. rewrite (planned_url_registered _ _ _ _ _ Hds), Hpage.
    rewrite (append_rows_Ok _ _ _ _ _ _ _
               (row_item_cd_registered _ _ item_cd Hds)).
    match goal with
    | |- context [collect_loop _ _ _ _ _ ?r ?l] =>
      destruct (IH r l) as (log' & Hrun & Hf & Hc & Hu)
    end.
    { intros q Hq. apply Hload. now right. }
    exists log'. rewrite Hrun, Hf, Hc, Hu.
    rewrite !fetched_app, !closed_app, !upserts_app.
    rewrite <- !app_assoc.
    destruct (is_nil (parse_table_icons page)); simpl;
      rewrite ?app_nil_r; auto.
Qed.

End CollectFacts.

(* ================================================================== *)
(** * Facts about the table extractor *)
(* ================================================================== *)

Lemma max_index_from_first_max : forall sizes prefix best bv,
  nth_error prefix best = Some bv ->
  first_max prefix best ->
  first_max (prefix ++ sizes)
            (max_index_from best bv (List.length prefix) sizes).
Proof.
  induction sizes as [|v rest IH]; intros prefix best bv Hb Hfm; simpl.
  - now rewrite app_nil_r.
  - replace (prefix ++ v :: rest) with ((prefix ++ [v]) ++ rest)
      by (now rewrite <- app_assoc).
    replace (S (List.length prefix)) with (List.length (prefix ++ [v]))
      by (rewrite length_app; simpl; lia).
    destruct Hfm as (bv' & Hb' & Hmax & Hfirst).
    assert (bv' = bv) as -> by congruence.
    assert (Hlt : (best < List.length prefix)%nat)
      by (apply nth_error_Some; congruence).
    destruct (bv <? v)%nat eqn:E.
    + apply Nat.ltb_lt in E.
      assert (Hv : nth_error (prefix ++ [v]) (List.length prefix) = Some v).
      { rewrite nth_error_app2 by lia. now rewrite Nat.sub_diag. }
      rewrite length_app at 1. simpl. rewrite Nat.add_1_r.
      replace (S (List.length prefix)) with (List.length (prefix ++ [v]))
        by (rewrite length_app; simpl; lia).
      apply IH; [exact Hv|]. exists v. split; [exact Hv|]. split.
      * intros j x Hj.
        destruct (Nat.lt_ge_cases j (List.length prefix)) as [Hjl|Hjl].
        -- rewrite nth_error_app1 in Hj by lia. apply Hmax in Hj. lia.
        -- rewrite nth_error_app2 in Hj by lia.
           destruct (j - List.length prefix)%nat as [|k];
             simpl in Hj; [injection Hj; lia|].
           destruct k; discriminate.
      * intros j x Hjl Hj. rewrite nth_error_app1 in Hj by lia.
        apply Hmax in Hj. lia.
    + apply Nat.ltb_ge in E.
      apply IH; [now rewrite nth_error_app1 by lia|].
      exists bv. split; [now rewrite nth_error_app1 by lia|]. split.
      * intros j x Hj.
        destruct (Nat.lt_ge_cases j (List.length prefix)) as [Hjl|Hjl].
        -- rewrite nth_error_app1 in Hj by lia. now apply Hmax in Hj.
        -- rewrite nth_error_app2 in Hj by lia.
           destruct (j - List.length prefix)%nat as [|k];
             simpl in Hj; [injection Hj; lia|].
           destruct k; discriminate.
      * intros j x Hjl Hj. rewrite nth_error_app1 in Hj by lia.
        now apply (Hfirst j).
Qed.

Lemma max_index_first_max sizes :
  sizes <> [] -> first_max sizes (max_index sizes).
Proof.
  destruct sizes as [|v rest]; [congruence|]. intros _.
  apply (max_index_from_first_max rest [v] 0 v eq_refl).
  exists v. split; [reflexivity|]. split.
  - intros [|[|j]] x Hj; simpl in Hj; try discriminate.
    injection Hj. lia.
  - intros j x Hj. lia.
Qed.

Lemma dict_get_set {V} (d : list (ustring * V)) k v k' :
  dict_get ueqb (dict_set ueqb d k v) k' =
  if ueqb k k' then Some v else dict_get ueqb d k'.
Proof.
  induction d as [|[k0 v0] d IH]; simpl.
  - reflexivity.
  - destruct (ueqb k0 k) eqn:E0.
    + apply ueqb_eq in E0. subst k0. simpl.
      destruct (ueqb k k'); reflexivity.
    + simpl. destruct (ueqb k0 k') eqn:E1.
      * apply ueqb_eq in E1. subst k0.
        destruct (ueqb k k') eqn:E2; [|reflexivity].
        apply ueqb_eq in E2. subst k. now rewrite ueqb_refl in E0.
      * exact IH.
Qed.

(** After the loop a region maps to the icons of the last row naming it. *)
Lemma parse_rows_get region : forall rows data,
  dict_get ueqb (parse_rows rows data) region =
  match last_icons rows region with
  | Some v => Some v
  | None => dict_get ueqb data region
  end.
Proof.
  induction rows as [|r rows IH]; intros data; simpl.
  - reflexivity.
  - destruct (parse_row r) as [[k v]|]; rewrite IH;
      destruct (last_icons rows region); try reflexivity.
    rewrite dict_get_set. destruct (ueqb k region); reflexivity.
Qed.

Lemma collect_alts_nonempty r : Forall (fun a => a <> []) (collect_alts r).
Proof.
  apply Forall_forall. intros a Ha. unfold collect_alts in Ha.
  apply filter_In in Ha as [_ Ha]. now destruct a.
Qed.

(** C8 — Table selection.  On a page with candidates the extractor reads
    its mapping off a table with the most rows, and the first of them in
    document order: the mapping is the one the row loop builds from that
    table, so a region has the icons of the last row of that table naming
    it.  With a 3-row and a 40-row candidate, in either order, the mapping
    is read off the 40-row one; of two candidates with as many rows the
    first is read; on a page without candidates the mapping is empty. *)
Theorem table_selection :
  (forall page : Page, page <> [] ->
     exists i t,
       select_table page = Some t
       /\ nth_error page i = Some t
       /\ (forall j t', nth_error page j = Some t' ->
                        (List.length t' <= List.length t)%nat)
       /\ (forall j t', (j < i)%nat -> nth_error page j = Some t' ->
                        (List.length t' < List.length t)%nat)
       /\ parse_table_icons page = parse_rows t []
       /\ (forall region,
             dict_get ueqb (parse_table_icons page) region
             = last_icons t region)) /\
  (forall t3 t40 : Table,
     List.length t3 = 3%nat -> List.length t40 = 40%nat ->
     (select_table [t3; t40] = Some t40 /\ select_table [t40; t3] = Some t40)
     /\ parse_table_icons [t3; t40] = parse_rows t40 []
     /\ parse_table_icons [t40; t3] = parse_rows t40 []) /\
  (forall t1 t2 : Table,
     List.length t1 = List.length t2 ->
     parse_table_icons [t1; t2] = parse_rows t1 []) /\
  select_table [] = None /\
  parse_table_icons [] = [].
Proof.
  split; [|split; [|split; [|split; reflexivity]]].
  - intros page Hne.
    assert (Hs : map (fun t : Table => List.length t) page <> [])
      by (destruct page; [congruence|discriminate]).
    destruct (max_index_first_max _ Hs) as (v & Hv & Hmax & Hfirst).
    set (i := max_index (map (fun t : Table => List.length t) page)) in *.
    rewrite nth_error_map in Hv.
    destruct (nth_error page i) as [t|] eqn:Et; [|discriminate].
    simpl in Hv. injection Hv as <-.
    assert (Hsel : select_table page = Some t).
    { unfold select_table. destruct page; [congruence|].
      fold i. f_equal. now apply nth_error_nth. }
    assert (Hparse : parse_table_icons page = parse_rows t []).
    { unfold parse_table_icons. now rewrite Hsel. }
    exists i, t.
    split; [exact Hsel|]. split; [exact Et|]. split; [|split; [|split]].
    + intros j t' Hj. apply (Hmax j). now rewrite nth_error_map, Hj.
    + intros j t' Hlt Hj. apply (Hfirst j); [exact Hlt|].
      now rewrite nth_error_map, Hj.
    + exact Hparse.
    + intros region. rewrite Hparse, parse_rows_get.
      now destruct (last_icons t region).
  - intros t3 t40 H3 H40. unfold parse_table_icons, select_table.
    simpl. rewrite H3, H40. repeat split; reflexivity.
  - intros t1 t2 Hlen. unfold parse_table_icons, select_table.
    cbn [map max_index max_index_from nth]. rewrite Hlen.
    rewrite Nat.ltb_irrefl. reflexivity.
Qed.

(** Two candidates with one row each, naming different districts: the
    first is read.  A one-row candidate before a two-row one: the second
    is read. *)
Lemma table_selection_witness :
  parse_table_icons
    [[mkRow [u "종로구"; u ""] [Some (u "확장+1단계")]];
     [mkRow [u "중구"; u ""] [Some (u "수축-2단계")]]]
  = [(u "종로구", mkIcons (u "확장+1단계") [])]
  /\ dict_get ueqb
       (parse_table_icons
          [[mkRow [u "종로구"; u ""] [Some (u "확장+1단계")]];
           [mkRow [u "중구"; u ""] [Some (u "수축-2단계")];
            mkRow [u "용산구"; u ""] [Some (u "안정")]]])
       (u "종로구") = None
  /\ parse_table_icons
       [repeat (mkRow [u "중구"; u ""] [Some (u "안정")]) 40;
        repeat (mkRow [u "종로구"; u ""] [Some (u "안정")]) 3]
     = [(u "중구", mkIcons (u "안정") [])].
Proof.
  destruct table_selection as (H & H' & Ht & _). split; [|split].
  - exact (eq_trans
             (Ht [mkRow [u "종로구"; u ""] [Some (u "확장+1단계")]]
                 [mkRow [u "중구"; u ""] [Some (u "수축-2단계")]] eq_refl)
             eq_refl).
  - destruct (H [[mkRow [u "종로구"; u ""] [Some (u "확장+1단계")]];
                 [mkRow [u "중구"; u ""] [Some (u "수축-2단계")];
                  mkRow [u "용산구"; u ""] [Some (u "안정")]]])
      as (i & t & _ & Hi & Hm & _ & _ & Hg); [discriminate|].
    refine (eq_trans (Hg (u "종로구")) _).
    destruct i as [|[|[|i]]]; simpl in Hi; try discriminate;
      injection Hi as <-.
    + specialize (Hm 1%nat _ eq_refl). simpl in Hm. lia.
    + reflexivity.
  - exact (eq_trans
             (proj2 (proj2 (H' (repeat (mkRow [u "종로구"; u ""]
                                          [Some (u "안정")]) 3)
                               (repeat (mkRow [u "중구"; u ""]
                                          [Some (u "안정")]) 40)
                               eq_refl eq_refl)))
             eq_refl).
Defined.

(** C9 — Row extraction.  A row with fewer than two cells is skipped, and
    so is a row whose first cell, stripped, is empty or is the header
    caption.  Any other row yields its region with the stripped, non-empty
    alt texts of its images read in document order: the weather descriptor
    is the first of them, the month-over-month descriptor is the last of
    them when there are at least two and is empty otherwise, in particular
    when there is exactly one.  In the mapping returned for a page a region
    carries the descriptors of the last row of the selected table that
    names it. *)
Theorem row_extraction :
  (forall r, (List.length (tds r) < 2)%nat -> parse_row r = None) /\
  (forall r, strip (nth 0 (tds r) []) = []
             \/ strip (nth 0 (tds r) []) = u "지역명" ->
             parse_row r = None) /\
  (forall r,
     let region := strip (nth 0 (tds r) []) in
     let alts :=
       filter (fun a => negb (is_nil a))
              (map (fun a => strip (match a with Some s => s | None => [] end))
                   (imgs r)) in
     (2 <= List.length (tds r))%nat ->
     region <> [] -> region <> u "지역명" ->
     Forall (fun a => a <> []) alts /\
     exists v,
       parse_row r = Some (region, v)
       /\ weather v = hd [] alts
       /\ ((2 <= List.length alts)%nat -> mom v = last alts [])
       /\ ((List.length alts < 2)%nat -> mom v = [])
       /\ (forall a, alts = [a] -> weather v = a /\ mom v = [])) /\
  (forall page region,
     dict_get ueqb (parse_table_icons page) region =
     match select_table page with
     | Some table => last_icons table region
     | None => None
     end).
Proof.
  split; [|split; [|split]].
  - intros r H. unfold parse_row. apply Nat.ltb_lt in H. now rewrite H.
  - intros r H. unfold parse_row.
    destruct (List.length (tds r) <? 2)%nat; [reflexivity|].
    destruct H as [-> | ->]; [reflexivity|].
    unfold HEADER_CAPTION. rewrite ueqb_refl, orb_true_r. reflexivity.
  - intros r region alts Hlen Hne Hcap.
    split; [apply collect_alts_nonempty|].
    assert (Ha : collect_alts r = alts) by reflexivity.
    assert (Hr : strip (nth 0 (tds r) []) = region) by reflexivity.
    clearbody region alts.
    unfold parse_row. apply Nat.ltb_ge in Hlen. rewrite Hlen, Hr, Ha.
    assert (En : is_nil region = false)
      by (destruct region; [contradiction|reflexivity]).
    destruct (ueqb region HEADER_CAPTION) eqn:Ec;
      [apply ueqb_eq in Ec; contradiction|].
    rewrite En. cbn [orb].
    eexists. split; [reflexivity|]. cbn [weather mom]. unfold ustring in *.
    split; [destruct alts; reflexivity|].
    split; [|split].
    + intros H.
      destruct (Nat.leb_spec 2 (List.length alts)); [reflexivity|lia].
    + intros H.
      destruct (Nat.leb_spec 2 (List.length alts)); [lia|reflexivity].
    + intros a ->. split; reflexivity.
  - intros page region. unfold parse_table_icons.
    destruct (select_table page) as [table|]; [|reflexivity].
    rewrite parse_rows_get. now destruct (last_icons table region).
Qed.

Lemma row_extraction_witness :
  parse_row (mkRow [u "종로구"] [Some (u "수축+1단계")]) = None
  /\ parse_row (mkRow [u "지역명"; u "날씨"] []) = None
  /\ exists v,
       parse_row (mkRow [u " 종로구 "; u ""]
                        [None; Some (u " 수축+1단계 "); Some (u " ")])
         = Some (u "종로구", v)
       /\ weather v = u "수축+1단계" /\ mom v = [].
Proof.
  destruct row_extraction as (H1 & H2 & H3 & _).
  split; [apply H1; simpl; lia|]. split.
  - apply H2. right. reflexivity.
  - destruct (H3 (mkRow [u " 종로구 "; u ""]
                        [None; Some (u " 수축+1단계 "); Some (u " ")]))
      as (_ & v & Hv & Hw & _ & _ & Hone).
    + simpl. lia.
    + discriminate.
    + discriminate.
    + exists v. split; [exact Hv|].
      apply (Hone (u "수축+1단계")). reflexivity.
Defined.

(* ================================================================== *)
(** * Runs of the collector *)
(* ================================================================== *)

Section Runs.

Variable tbl : N -> option decimal_digit.
Variable w : World.

(** Either every page of the window loads or there is a first one that
    does not. *)
Lemma load_or_fail key item_cd periods :
  (forall p, In p periods ->
     exists page, goto w (planned_url key item_cd p) = Ok page)
  \/ (exists pre p post e,
        periods = pre ++ p :: post
        /\ (forall q, In q pre ->
              exists page, goto w (planned_url key item_cd q) = Ok page)
        /\ goto w (planned_url key item_cd p) = Raise e).
Proof.
  induction periods as [|p periods IH].
  - left. intros p [].
  - destruct (goto w (planned_url key item_cd p)) as [page|e] eqn:E.
    + destruct IH as [H|(pre & q & post & e & -> & Hpre & Hq)].
      * left. intros p' [<-|Hp]; eauto.
      * right. exists (p :: pre), q, post, e.
        split; [reflexivity|]. split; [|exact Hq].
        intros q' [<-|Hq']; eauto.
    + right. exists [], p, periods, e.
      split; [reflexivity|]. split; [intros q []|exact E].
Qed.

Lemma collect_all_load key ds s e item_cd csv sup table :
  datasets_getitem key = Ok ds ->
  (forall p, In p (month_iter s e) ->
     exists page, goto w (planned_url key item_cd p) = Ok page) ->
  exists log,
    collect tbl w key s (Some e) item_cd csv sup table =
      (Ok (window_rows tbl w key item_cd (py_or item_cd (default_item ds))
                       (month_iter s e)), log)
    /\ fetched log = map (planned_url key item_cd) (month_iter s e)
    /\ closed log = map (planned_url key item_cd) (month_iter s e)
    /\ warned log = filter (empty_extraction w key item_cd) (month_iter s e).
Proof.
  intros Hds Hload. unfold collect.
  destruct (collect_loop_all_load tbl w key ds item_cd Hds
              (month_iter s e) [] [] Hload)
    as (log' & Hrun & Hf & Hc & Hw & _).
  rewrite Hrun. simpl app. eexists. split; [reflexivity|].
  destruct (csv && negb (is_nil _)), sup;
    rewrite ?fetched_app, ?closed_app, ?warned_app, Hf, Hc, Hw; simpl;
    rewrite ?app_nil_r; auto.
Qed.

Lemma collect_failure key ds s e item_cd csv sup table pre p post exn0 :
  datasets_getitem key = Ok ds ->
  month_iter s e = pre ++ p :: post ->
  (forall q, In q pre ->
     exists page, goto w (planned_url key item_cd q) = Ok page) ->
  goto w (planned_url key item_cd p) = Raise exn0 ->
  exists log,
    collect tbl w key s (Some e) item_cd csv sup table = (Raise exn0, log)
    /\ fetched log = map (planned_url key item_cd) (pre ++ [p])
    /\ closed log = map (planned_url key item_cd) (pre ++ [p])
    /\ upserts log = [].
Proof.
  intros Hds Hsplit Hload Hfail. unfold collect. rewrite Hsplit.
  destruct (collect_loop_failure tbl w key ds item_cd p post exn0 Hds Hfail
              pre [] [] Hload)
    as (log' & Hrun & Hf & Hc & Hu).
  rewrite Hrun. exists log'. auto.
Qed.

Lemma append_rows_zero key y m url table : forall rows,
  append_rows tbl key (Some 0) y m url table rows =
  append_rows tbl key None y m url table rows.
Proof.
  induction table as [|[gu v] table IH]; intros rows; simpl;
    [reflexivity|].
  destruct (gu_lookup gu). unfold row_item_cd. simpl.
  destruct (datasets_getitem key); [apply IH|reflexivity].
Qed.

Lemma collect_loop_zero key periods : forall rows log,
  collect_loop tbl w key (Some 0) periods rows log =
  collect_loop tbl w key None periods rows log.
Proof.
  induction periods as [|[y m] periods IH]; intros rows log; simpl;
    [reflexivity|].
  change (build_url key y m (Some 0)) with (build_url key y m None).
  destruct (build_url key y m None) as [url|]; [|reflexivity].
  destruct (goto w url) as [page|]; [|reflexivity].
  rewrite append_rows_zero.
  destruct (append_rows tbl key None y m url (parse_table_icons page) rows);
    [apply IH|reflexivity].
Qed.

Lemma collect_zero key s e csv sup table :
  collect tbl w key s e (Some 0) csv sup table =
  collect tbl w key s e None csv sup table.
Proof. unfold collect. now rewrite collect_loop_zero. Qed.

End Runs.

(** C1 (amended) — Failure handling per period.  For a registered dataset:
    when every page of the window loads, the run returns the rows of all
    periods in order, every period is fetched and its page closed, and a
    period whose extraction is empty is logged and contributes no row while
    the loop goes on; when the page of some period fails to load, the pages
    of the periods up to and including it are fetched and closed, the
    exception leaves [collect], no later period is fetched, no row is
    returned and nothing is handed to the storage gateway. *)
Theorem failure_propagation (tbl : N -> option decimal_digit) (w : World)
    key ds item_cd csv sup table s e :
  datasets_getitem key = Ok ds ->
  let periods := month_iter s e in
  let url := planned_url key item_cd in
  ((forall p, In p periods -> exists page, goto w (url p) = Ok page) ->
   exists log,
     collect tbl w key s (Some e) item_cd csv sup table =
       (Ok (window_rows tbl w key item_cd
              (py_or item_cd (default_item ds)) periods), log)
     /\ fetched log = map url periods
     /\ closed log = map url periods
     /\ warned log = filter (empty_extraction w key item_cd) periods) /\
  (forall pre p post exn0,
     periods = pre ++ p :: post ->
     (forall q, In q pre -> exists page, goto w (url q) = Ok page) ->
     goto w (url p) = Raise exn0 ->
     exists log,
       collect tbl w key s (Some e) item_cd csv sup table = (Raise exn0, log)
       /\ fetched log = map url (pre ++ [p])
       /\ closed log = map url (pre ++ [p])
       /\ upserts log = []).
Proof.
  intros Hds periods url. split.
  - intros Hload. now apply collect_all_load.
  - intros pre p post exn0 Hsplit Hload Hfail.
    now apply (collect_failure tbl w key ds s e item_cd csv sup table
                               pre p post exn0).
Qed.

Lemma failure_propagation_witness :
  (exists log,
     collect ascii_digits_only flaky_world "house_rent" (2024, 1)
             (Some (2024, 2)) None false true "krihs_mindicons"
       = (Raise (EngineError "Timeout 60000ms exceeded"), log)
     /\ fetched log = [planned_url "house_rent" None (2024, 1)]
     /\ closed log = [planned_url "house_rent" None (2024, 1)]
     /\ upserts log = [])
  /\ (exists log,
        collect ascii_digits_only flaky_world "house_rent" (2024, 2)
                (Some (2024, 3)) None false true "krihs_mindicons"
          = (Ok (window_rows ascii_digits_only flaky_world "house_rent"
                   None 14 [(2024, 2); (2024, 3)]), log)
        /\ fetched log = map (planned_url "house_rent" None)
                             [(2024, 2); (2024, 3)]
        /\ closed log = map (planned_url "house_rent" None)
                            [(2024, 2); (2024, 3)]
        /\ warned log = []).
Proof.
  split.
  - refine (proj2 (failure_propagation ascii_digits_only flaky_world
                     "house_rent" (mkDataset "Mind_Rent_Cur" 14) None false
                     true "krihs_mindicons" (2024, 1) (2024, 2) eq_refl)
                  [] (2024, 1) [(2024, 2)] _ eq_refl _ eq_refl).
    intros q [].
  - refine (proj1 (failure_propagation ascii_digits_only flaky_world
                     "house_rent" (mkDataset "Mind_Rent_Cur" 14) None false
                     true "krihs_mindicons" (2024, 2) (2024, 3) eq_refl) _).
    intros p [<-|[<-|[]]]; eexists; reflexivity.
Defined.

(** C1 — a timeout on the first of two periods ends the run with the
    exception: no row comes back and the second period is never fetched. *)
Lemma failure_isolation_counterexample :
  collect ascii_digits_only flaky_world "house_rent" (2024, 1)
          (Some (2024, 2)) None false false EmptyString
    = (Raise (EngineError "Timeout 60000ms exceeded"),
       [EvGoto (planned_url "house_rent" None (2024, 1));
        EvClose (planned_url "house_rent" None (2024, 1))])
  /\ ~ isolates_failures ascii_digits_only flaky_world "house_rent"
                         (2024, 1) (2024, 2).
Proof.
  split; [reflexivity|].
  intros (rows & log & H & _). vm_compute in H. discriminate.
Qed.

(** C4 (amended) — Score range.  Whatever the descriptor, the score is
    absent or an integer between -10 and 10, and so is the score of every
    row [collect] returns, which is the score of the row's weather
    descriptor; the score lies between -4 and 4 whenever the matched
    magnitude is at most 3 or the pattern does not occur. *)
Theorem score_range (tbl : N -> option decimal_digit) :
  (forall alt_text z,
     score_weather tbl alt_text = Some z -> -10 <= z <= 10) /\
  (forall w key s e item_cd csv sup table rows log r,
     collect tbl w key s e item_cd csv sup table = (Ok rows, log) ->
     In r rows ->
     r_weather_score r = score_weather tbl (r_weather r)
     /\ forall z, r_weather_score r = Some z -> -10 <= z <= 10) /\
  (forall alt_text g n,
     first_match tbl (remove_spaces alt_text) g n -> n <= 3 ->
     in_score_range (score_weather tbl alt_text)) /\
  (forall alt_text,
     no_match tbl (remove_spaces alt_text) ->
     in_score_range (score_weather tbl alt_text)).
Proof.
  split; [exact (score_weather_bound tbl)|]. split; [|split].
  - intros w key s e item_cd csv sup table rows log r Hrun Hr.
    assert (H : Forall (fun r => r_weather_score r
                                 = score_weather tbl (r_weather r)) rows).
    { eapply (collect_inv tbl w); [|exact Hrun]. reflexivity. }
    rewrite Forall_forall in H. specialize (H r Hr).
    split; [exact H|]. intros z Hz. rewrite H in Hz.
    now apply score_weather_bound in Hz.
  - intros alt_text g n Hm Hn.
    pose proof (re_search_first tbl _ _ _ Hm) as Hs.
    pose proof (re_search_range tbl _ _ _ Hs) as Hr.
    destruct alt_text as [|c t]; [exact I|].
    rewrite score_weather_nonempty by discriminate. cbv zeta. rewrite Hs.
    unfold in_score_range. simpl.
    destruct (phase_of _) as [[]|]; try exact I;
      destruct (g =? MINUS)%N; lia.
  - intros alt_text Hm.
    pose proof (re_search_none tbl _ Hm) as Hs.
    destruct alt_text as [|c t]; [exact I|].
    rewrite score_weather_nonempty by discriminate. cbv zeta. rewrite Hs.
    unfold in_score_range. simpl.
    destruct (phase_of _) as [[]|]; try exact I; lia.
Qed.

Lemma score_range_witness :
  -10 <= -10 <= 10
  /\ (exists rows log,
        collect ascii_digits_only flaky_world "house_rent" (2024, 2)
                (Some (2024, 2)) None false false EmptyString
          = (Ok rows, log)
        /\ rows <> []
        /\ forall r z, In r rows -> r_weather_score r = Some z ->
                       -10 <= z <= 10)
  /\ in_score_range (score_weather ascii_digits_only (u "확장+3단계"))
  /\ in_score_range (score_weather ascii_digits_only (u "안정")).
Proof.
  destruct (score_range ascii_digits_only) as (H1 & H2 & H3 & H4).
  split; [|split; [|split]].
  - apply (H1 (u "수축+9단계") (-10)). reflexivity.
  - eexists. eexists. split; [reflexivity|]. split; [discriminate|].
    intros r z Hr.
    exact (proj2 (H2 flaky_world "house_rent"%string (2024, 2)
                     (Some (2024, 2))
                     None false false EmptyString _ _ r eq_refl Hr) z).
  - apply (H3 (u "확장+3단계") PLUS 3); [|lia].
    apply (first_match_after_token ascii_digits_only
             54869%N 51109%N PLUS 51%N 3 []);
      try (now left); try reflexivity; discriminate.
  - apply H4. apply no_match_short. vm_compute. lia.
Defined.

(** C4 — a contraction descriptor of magnitude 9 scores -10, outside
    [-4, 4]; magnitude 4 already gives -5. *)
Lemma score_range_counterexample :
  score_weather ascii_digits_only (u "수축+9단계") = Some (-10)
  /\ score_weather ascii_digits_only (u "수축+4단계") = Some (-5)
  /\ ~ in_score_range (score_weather ascii_digits_only (u "수축+9단계")).
Proof.
  split; [reflexivity|]. split; [reflexivity|].
  vm_compute. intros [H _]. apply H. reflexivity.
Qed.

(** C5 — Incremental planner.  With [start] the default start when the
    gateway reports no prior period and the successor of the prior period
    otherwise: when [start > end] the window is empty, the run returns the
    empty row list without an exception, fetches nothing, hands nothing to
    the gateway and logs the up-to-date message; otherwise the run is that
    of [collect] on [start .. end]; for a registered dataset the fetches
    are, in order, those of an initial part of [month_iter start end], and
    of all of it when every page loads; and a prior period equal to the
    end gives [start > end]. *)
Theorem incremental_planner (tbl : N -> option decimal_digit) (w : World)
    key default_start end_ym item_cd csv sup table :
  let e := match end_ym with Some e => e | None => today w end in
  let run :=
    collect_incremental tbl w key default_start end_ym item_cd csv sup table
  in
  let url := planned_url key item_cd in
  forall start,
    (latest_ym w key table = None /\ start = default_start)
    \/ (exists ly lm, latest_ym w key table = Some (ly, lm)
                      /\ start = next_month ly lm) ->
    (ym_gt start e = true ->
     month_iter start e = []
     /\ fst run = Ok []
     /\ fetched (snd run) = []
     /\ upserts (snd run) = []
     /\ In (EvUpToDate key) (snd run)) /\
    (ym_gt start e = false ->
     exists info log,
       snd run = info :: log
       /\ collect tbl w key start (Some e) item_cd csv sup table
          = (fst run, log)) /\
    (registered key ->
     (exists k, fetched (snd run) = map url (firstn k (month_iter start e)))
     /\ ((forall p, In p (month_iter start e) ->
            exists page, goto w (url p) = Ok page) ->
         fetched (snd run) = map url (month_iter start e))) /\
    (latest_ym w key table = Some e -> ym_gt start e = true).
Proof.
  intros e run url start Hstart.
  assert (Hs : start = incremental_start (latest_ym w key table) default_start).
  { destruct Hstart as [(-> & ->)|(ly & lm & -> & ->)]; reflexivity. }
  assert (Hup : ym_gt start e = true ->
                month_iter start e = []
                /\ fst run = Ok []
                /\ fetched (snd run) = []
                /\ upserts (snd run) = []
                /\ In (EvUpToDate key) (snd run)).
  { intros Hgt. split; [now apply month_iter_empty|].
    unfold run, collect_incremental. fold e. rewrite <- Hs, Hgt.
    destruct (latest_ym w key table); simpl; repeat split; auto. }
  assert (Hgo : ym_gt start e = false ->
                exists info log,
                  snd run = info :: log
                  /\ collect tbl w key start (Some e) item_cd csv sup table
                     = (fst run, log)).
  { intros Hgt. unfold run, collect_incremental. fold e.
    rewrite <- Hs, Hgt.
    destruct (collect tbl w key start (Some e) item_cd csv sup table)
      as [r log]. simpl. eauto. }
  split; [exact Hup|]. split; [exact Hgo|]. split.
  - intros Hreg.
    destruct (datasets_getitem_registered key Hreg) as (ds & Hds).
    destruct (ym_gt start e) eqn:Hgt.
    + destruct (Hup eq_refl) as (Hmi & _ & Hf & _).
      rewrite Hmi, Hf. split; [exists 0%nat|]; reflexivity.
    + destruct (Hgo eq_refl) as (info & log & Hsnd & Hrun).
      assert (Hfl : fetched (snd run) = fetched log).
      { rewrite Hsnd. unfold run, collect_incremental in Hsnd.
        destruct (latest_ym w key table); fold e in Hsnd;
          rewrite <- Hs, Hgt in Hsnd;
          destruct (collect tbl w key start (Some e) item_cd csv sup table);
          injection Hsnd as <- _; reflexivity. }
      rewrite Hfl. split.
      * destruct (load_or_fail w key item_cd (month_iter start e))
          as [Hload|(pre & p & post & exn0 & Hsplit & Hload & Hfail)].
        -- destruct (collect_all_load tbl w key ds start e item_cd csv sup
                       table Hds Hload) as (log' & Hrun' & Hf & _).
           rewrite Hrun in Hrun'. injection Hrun' as _ <-.
           exists (List.length (month_iter start e)).
           now rewrite firstn_all.
        -- destruct (collect_failure tbl w key ds start e item_cd csv sup
                       table pre p post exn0 Hds Hsplit Hload Hfail)
             as (log' & Hrun' & Hf & _).
           rewrite Hrun in Hrun'. injection Hrun' as _ <-.
           exists (List.length (pre ++ [p])). rewrite Hsplit.
           replace (pre ++ p :: post) with ((pre ++ [p]) ++ post)
             by (now rewrite <- app_assoc).
           rewrite firstn_app, firstn_all, Nat.sub_diag. simpl.
           now rewrite app_nil_r.
      * intros Hload.
        destruct (collect_all_load tbl w key ds start e item_cd csv sup
                    table Hds Hload) as (log' & Hrun' & Hf & _).
        rewrite Hrun in Hrun'. now injection Hrun' as _ <-.
  - intros Hlat. destruct Hstart as [(Hn & _)|(ly & lm & Hl & ->)];
      [congruence|].
    rewrite Hlat in Hl. injection Hl as ->. apply next_month_gt.
Qed.

Lemma incremental_planner_witness :
  (fst (collect_incremental ascii_digits_only
          (mkWorld (2024, 9) (goto flaky_world) (fun _ _ => Some (2024, 9)))
          "house_rent" (2015, 1) None None false true "krihs_mindicons")
     = Ok []
   /\ ym_gt (2024, 10) (2024, 9) = true)
  /\ fetched (snd (collect_incremental ascii_digits_only flaky_world
                     "house_rent" (2024, 2) None None false true
                     "krihs_mindicons"))
     = [planned_url "house_rent" None (2024, 2)]
  /\ exists info log,
       snd (collect_incremental ascii_digits_only flaky_world
              "house_rent" (2024, 2) None None false true "krihs_mindicons")
         = info :: log
       /\ collect ascii_digits_only flaky_world "house_rent" (2024, 2)
                  (Some (2024, 2)) None false true "krihs_mindicons"
          = (fst (collect_incremental ascii_digits_only flaky_world
                    "house_rent" (2024, 2) None None false true
                    "krihs_mindicons"), log).
Proof.
  split; [|split].
  - destruct (incremental_planner ascii_digits_only
                (mkWorld (2024, 9) (goto flaky_world)
                         (fun _ _ => Some (2024, 9)))
                "house_rent" (2015, 1) None None false true "krihs_mindicons"
                (2024, 10)) as (Hup & _ & _ & Heq).
    + right. exists 2024, 9. split; reflexivity.
    + split; [exact (proj1 (proj2 (Hup eq_refl)))|exact (Heq eq_refl)].
  - refine (proj2 (proj1 (proj2 (proj2
      (incremental_planner ascii_digits_only flaky_world
         "house_rent" (2024, 2) None None false true "krihs_mindicons"
         (2024, 2) _))) _) _).
    + left. split; reflexivity.
    + unfold registered. simpl. tauto.
    + intros p [<-|[]]. eexists. reflexivity.
  - refine (proj1 (proj2
      (incremental_planner ascii_digits_only flaky_world
         "house_rent" (2024, 2) None None false true "krihs_mindicons"
         (2024, 2) _)) eq_refl).
    left. split; reflexivity.
Defined.

(** C10 — A zero override is ignored.  With an item-code override of 0,
    [build_url], [collect] and [collect_incremental] give what they give
    without an override; for a registered dataset the URL then carries the
    dataset's default item code and so does every returned row. *)
Theorem zero_override_ignored (tbl : N -> option decimal_digit) (w : World)
    key year month s e d csv sup table :
  build_url key year month (Some 0) = build_url key year month None /\
  collect tbl w key s e (Some 0) csv sup table =
    collect tbl w key s e None csv sup table /\
  collect_incremental tbl w key d e (Some 0) csv sup table =
    collect_incremental tbl w key d e None csv sup table /\
  (forall ds,
     datasets_getitem key = Ok ds ->
     build_url key year month (Some 0) =
       Ok (BASE ++ "/" ++ path ds ++ "?area_cd=11&Gbn=MONTH&year="
                ++ py_str year ++ "&month=" ++ fmt_02d month
                ++ (if String.eqb (path ds) "SystemIntro"
                    then "&jin=Jindan" else "")
                ++ "&item_cd=" ++ py_str (default_item ds))%string
     /\ forall rows log,
          collect tbl w key s e (Some 0) csv sup table = (Ok rows, log) ->
          Forall (fun r => r_item_cd r = default_item ds) rows).
Proof.
  split; [reflexivity|]. split; [apply collect_zero|]. split.
  - unfold collect_incremental.
    destruct (ym_gt _ _); [reflexivity|]. now rewrite collect_zero.
  - intros ds Hds. split.
    + now rewrite (build_url_registered _ _ _ _ _ Hds).
    + intros rows log Hrun.
      eapply (collect_inv tbl w); [|exact Hrun].
      intros code p url gv Hc.
      rewrite (row_item_cd_registered _ _ _ Hds) in Hc.
      now injection Hc as <-.
Qed.

Lemma zero_override_ignored_witness :
  build_url "house_sale" 2023 4 (Some 0) =
  Ok ("https://kremap.krihs.re.kr/menu2/Mind_House_Cur"
        ++ "?area_cd=11&Gbn=MONTH&year=2023&month=04&item_cd=12")%string.
Proof.
  destruct (zero_override_ignored ascii_digits_only flaky_world
              "house_sale" 2023 4 (2023, 4) None (2015, 1) false false
              EmptyString) as (_ & _ & _ & H).
  exact (proj1 (H (mkDataset "Mind_House_Cur" 12) eq_refl)).
Defined.

(* ================================================================== *)
(** * Further facts: strings and URLs *)
(* ================================================================== *)

Lemma py_str_inj a b : py_str a = py_str b -> a = b.
Proof.
  unfold py_str. intros H.
  assert (Hnn : forall z, Z.to_int z <> Decimal.Pos Decimal.Nil
                          /\ Z.to_int z <> Decimal.Neg Decimal.Nil).
  { intros [|p|p]; simpl; split; try discriminate;
      intros [= Hp]; now apply Unsigned.to_uint_nonnil in Hp. }
  apply (f_equal NilZero.int_of_string) in H.
  rewrite !NilZero.isi in H by apply Hnn.
  injection H as H. apply (f_equal Z.of_int) in H.
  now rewrite !DecimalZ.of_to in H.
Qed.

Lemma append_cancel_l p : forall a b : string,
  (p ++ a = p ++ b)%string -> a = b.
Proof.
  induction p as [|c p IH]; simpl; intros a b H; [exact H|].
  injection H as H. now apply IH.
Qed.

(** Two strings without [&] that are followed by [&] end at the same
    place. *)
Lemma split_at_amp : forall a a' t t' : string,
  all_safe a = true -> all_safe a' = true ->
  (a ++ String "&" t = a' ++ String "&" t')%string ->
  a = a' /\ t = t'.
Proof.
  induction a as [|c a IH]; intros [|c' a'] t t' Ha Ha' H; simpl in *.
  - injection H as H. auto.
  - injection H as Hc _. subst c'. discriminate.
  - injection H as Hc _. subst c. discriminate.
  - injection H as Hc H. subst c'.
    apply andb_prop in Ha as [_ Ha]. apply andb_prop in Ha' as [_ Ha'].
    destruct (IH a' t t' Ha Ha' H) as [-> ->]. auto.
Qed.

Lemma two_digits_inj a b :
  0 <= a < 100 -> 0 <= b < 100 -> two_digits a = two_digits b -> a = b.
Proof.
  intros Ha Hb H.
  assert (H1 : N_of_ascii (ascii_of_N (48 + Z.to_N (a / 10)))
               = N_of_ascii (ascii_of_N (48 + Z.to_N (b / 10))))
    by exact (f_equal (fun s => match s with
                                | String c _ => N_of_ascii c
                                | EmptyString => 0%N
                                end) H).
  assert (H0 : N_of_ascii (ascii_of_N (48 + Z.to_N (a mod 10)))
               = N_of_ascii (ascii_of_N (48 + Z.to_N (b mod 10))))
    by exact (f_equal (fun s => match s with
                                | String _ (String c _) => N_of_ascii c
                                | _ => 0%N
                                end) H).
  assert (Hq : forall n, 0 <= n < 100 -> 0 <= n / 10 < 10).
  { intros n Hn. split;
      [apply Z.div_pos; lia|apply Z.div_lt_upper_bound; lia]. }
  assert (Hr : forall n, 0 <= n mod 10 < 10)
    by (intros n; apply Z.mod_pos_bound; lia).
  pose proof (Hq a Ha). pose proof (Hq b Hb).
  pose proof (Hr a). pose proof (Hr b).
  assert (Hlt : forall q, 0 <= q < 10 -> (48 + Z.to_N q < 256)%N)
    by (intros q Hq'; lia).
  rewrite !N_ascii_embedding in H1 by (apply Hlt; assumption).
  rewrite !N_ascii_embedding in H0 by (apply Hlt; apply Hr).
  rewrite (Z.div_mod a 10), (Z.div_mod b 10) by lia.
  assert (a / 10 = b / 10) by lia. assert (a mod 10 = b mod 10) by lia.
  congruence.
Qed.

Lemma two_digits_app a r :
  (two_digits a ++ r)%string =
  String (ascii_of_N (48 + Z.to_N (a / 10)))
         (String (ascii_of_N (48 + Z.to_N (a mod 10))) r).
Proof. reflexivity. Qed.

Lemma two_digits_app_inv a b r r' :
  (two_digits a ++ r = two_digits b ++ r')%string ->
  two_digits a = two_digits b /\ r = r'.
Proof.
  rewrite !two_digits_app. intros H.
  assert (H1 : ascii_of_N (48 + Z.to_N (a / 10))
               = ascii_of_N (48 + Z.to_N (b / 10)))
    by exact (f_equal (fun s => match s with
                                | String c _ => c
                                | EmptyString => Ascii.zero
                                end) H).
  assert (H0 : ascii_of_N (48 + Z.to_N (a mod 10))
               = ascii_of_N (48 + Z.to_N (b mod 10)))
    by exact (f_equal (fun s => match s with
                                | String _ (String c _) => c
                                | _ => Ascii.zero
                                end) H).
  assert (Hr : r = r')
    by exact (f_equal (fun s => match s with
                                | String _ (String _ t) => t
                                | _ => EmptyString
                                end) H).
  unfold two_digits. now rewrite H1, H0.
Qed.

(** X1 — Distinct periods have distinct URLs.  For a registered dataset
    and a fixed override, two calls of [build_url] with months between 0
    and 99 return the same URL only for the same year and the same
    month. *)
Theorem build_url_injective key ds item_cd y m y' m' :
  datasets_getitem key = Ok ds ->
  0 <= m < 100 -> 0 <= m' < 100 ->
  build_url key y m item_cd = build_url key y' m' item_cd ->
  y = y' /\ m = m'.
Proof.
  intros Hds Hm Hm' H.
  rewrite !(build_url_registered _ _ _ _ _ Hds) in H.
  rewrite !fmt_02d_two_digits in H by assumption.
  set (R := ((if String.eqb (path ds) "SystemIntro"
              then "&jin=Jindan" else "")
             ++ "&item_cd=" ++ py_str (py_or item_cd (default_item ds)))
            %string) in H.
  apply (f_equal (fun r => match r with
                           | Ok url => url
                           | Raise _ => EmptyString
                           end)) in H.
  cbv beta iota in H.
  apply (append_cancel_l BASE) in H.
  apply (append_cancel_l "/") in H.
  apply (append_cancel_l (path ds)) in H.
  apply (append_cancel_l "?area_cd=11&Gbn=MONTH&year=") in H.
  apply (split_at_amp (py_str y) (py_str y')
           ("month=" ++ two_digits m ++ R)
           ("month=" ++ two_digits m' ++ R)
           (py_str_safe y) (py_str_safe y')) in H.
  destruct H as [Hy H]. apply py_str_inj in Hy. split; [exact Hy|].
  apply (append_cancel_l "month=") in H.
  apply two_digits_app_inv in H as [H _].
  now apply two_digits_inj.
Qed.

Lemma build_url_injective_witness :
  build_url "house_rent" 2024 1 None <> build_url "house_rent" 2024 2 None.
Proof.
  intros H.
  destruct (build_url_injective "house_rent" (mkDataset "Mind_Rent_Cur" 14)
              None 2024 1 2024 2 eq_refl ltac:(lia) ltac:(lia) H) as [_ Hm].
  discriminate Hm.
Defined.

(* ================================================================== *)
(** * Further facts: windows of months *)
(* ================================================================== *)

Lemma ym_le_refl p : ym_le p p = true.
Proof. apply ym_le_spec. lia. Qed.

Lemma ym_le_false a b :
  ym_le a b = false <-> fst b < fst a \/ (fst a = fst b /\ snd b < snd a).
Proof.
  split.
  - intros H.
    assert (Hn : ~ (fst a < fst b \/ fst a = fst b /\ snd a <= snd b))
      by (rewrite <- ym_le_spec; congruence).
    lia.
  - intros H. destruct (ym_le a b) eqn:E; [|reflexivity].
    apply ym_le_spec in E. lia.
Qed.

Lemma ym_lt_trans a b c :
  ym_lt a b = true -> ym_lt b c = true -> ym_lt a c = true.
Proof. rewrite !ym_lt_spec. lia. Qed.

Lemma month_iter_single p : month_iter p p = [p].
Proof.
  destruct p as [y m]. rewrite month_iter_unfold, ym_le_refl. f_equal.
  pose proof (next_month_gt y m) as Hg.
  destruct (next_month y m) as [y' m'].
  rewrite month_iter_unfold.
  destruct (ym_le (y', m') (y, m)) eqn:E; [|reflexivity].
  apply ym_le_spec in E. apply ym_lt_spec in Hg. simpl in *. lia.
Qed.

(** A window breaks at any calendar period inside it. *)
Lemma month_iter_app p e :
  valid_ym p -> ym_le p e = true ->
  forall s, valid_ym s -> ym_le s p = true ->
    month_iter s e = month_iter s p ++ month_iter (next_month (fst p) (snd p)) e.
Proof.
  intros Hp Hpe s.
  apply (month_iter_ind p
           (fun s l => valid_ym s -> ym_le s p = true ->
              month_iter s e
              = l ++ month_iter (next_month (fst p) (snd p)) e)).
  - intros y m Hle _ H. congruence.
  - intros y m Hle IH Hv _.
    assert (Hse : ym_le (y, m) e = true).
    { apply ym_le_spec in Hle, Hpe. apply ym_le_spec. simpl in *. lia. }
    rewrite (month_iter_unfold y m e), Hse. simpl. f_equal.
    destruct (ym_le (next_month y m) p) eqn:Hn.
    + apply IH; [now apply next_month_valid|reflexivity].
    + assert (Hnil : month_iter (next_month y m) p = []).
      { destruct (next_month y m) as [y' m'].
        now rewrite month_iter_unfold, Hn. }
      rewrite Hnil. simpl.
      assert (Heq : (y, m) = p).
      { apply ym_le_spec in Hle. apply ym_le_false in Hn.
        unfold valid_ym, next_month in *. destruct p as [py pm].
        destruct (m + 1 >? 12) eqn:E; simpl in *; f_equal; lia. }
      now rewrite <- Heq.
Qed.

Lemma month_iter_length_aux e :
  valid_ym e ->
  forall s, valid_ym s -> ym_le s e = true ->
    Z.of_nat (List.length (month_iter s e))
    = month_index e - month_index s + 1.
Proof.
  intros He s.
  apply (month_iter_ind e
           (fun s l => valid_ym s -> ym_le s e = true ->
              Z.of_nat (List.length l) = month_index e - month_index s + 1)).
  - intros y m Hle _ H. congruence.
  - intros y m Hle IH Hv _.
    destruct (ym_le (next_month y m) e) eqn:Hn.
    + change (List.length ((y, m) :: ?l)) with (S (List.length l)).
      rewrite Nat2Z.inj_succ, IH;
        [|now apply next_month_valid|reflexivity].
      unfold month_index, valid_ym, next_month in *.
      destruct (m + 1 >? 12) eqn:E; cbn [fst snd] in *; lia.
    + assert (Hnil : month_iter (next_month y m) e = []).
      { destruct (next_month y m) as [y' m'].
        now rewrite month_iter_unfold, Hn. }
      rewrite Hnil. simpl List.length.
      apply ym_le_spec in Hle. apply ym_le_false in Hn.
      unfold month_index, valid_ym, next_month in *. destruct e as [ey em].
      destruct (m + 1 >? 12) eqn:E; cbn [fst snd] in *; lia.
Qed.

(** X2 — Size of a window.  For calendar periods [start <= end] the
    generator yields 12 * (end year - start year) + (end month - start
    month) + 1 periods, so a run makes that many page requests at most. *)
Theorem month_iter_length s e :
  valid_ym s -> valid_ym e -> ym_le s e = true ->
  Z.of_nat (List.length (month_iter s e))
  = 12 * (fst e - fst s) + (snd e - snd s) + 1.
Proof.
  intros Hs He Hle.
  rewrite (month_iter_length_aux e He s Hs Hle). unfold month_index. lia.
Qed.

Lemma month_iter_length_witness :
  Z.of_nat (List.length (month_iter (2015, 1) (2025, 11))) = 131.
Proof.
  apply (month_iter_length (2015, 1) (2025, 11));
    unfold valid_ym; simpl; try lia; reflexivity.
Defined.

(* ================================================================== *)
(** * Further facts: runs of the collector *)
(* ================================================================== *)

Lemma csvs_app l1 l2 : csvs (l1 ++ l2) = csvs l1 ++ csvs l2.
Proof.
  induction l1 as [|ev l1 IH]; [reflexivity|].
  destruct ev; simpl; rewrite IH; reflexivity.
Qed.

Lemma window_rows_app tbl w key item_cd code l1 l2 :
  window_rows tbl w key item_cd code (l1 ++ l2)
  = window_rows tbl w key item_cd code l1
    ++ window_rows tbl w key item_cd code l2.
Proof. unfold window_rows. apply flat_map_app. Qed.

(** X3 — Resuming a window.  For a registered dataset whose pages all
    load, collecting [start .. p] and then [successor(p) .. end] fetches
    the same pages in the same order and returns the same rows as
    collecting [start .. end] at once. *)
Theorem window_resumption (tbl : N -> option decimal_digit) (w : World)
    key ds item_cd csv sup table s p e :
  datasets_getitem key = Ok ds ->
  valid_ym s -> valid_ym p -> ym_le s p = true -> ym_le p e = true ->
  (forall q, In q (month_iter s e) ->
     exists page, goto w (planned_url key item_cd q) = Ok page) ->
  month_iter s e
    = month_iter s p ++ month_iter (next_month (fst p) (snd p)) e
  /\ exists rows1 log1 rows2 log2 log,
       collect tbl w key s (Some p) item_cd csv sup table = (Ok rows1, log1)
       /\ collect tbl w key (next_month (fst p) (snd p)) (Some e)
                  item_cd csv sup table = (Ok rows2, log2)
       /\ collect tbl w key s (Some e) item_cd csv sup table
          = (Ok (rows1 ++ rows2), log)
       /\ fetched log = fetched log1 ++ fetched log2.
Proof.
  intros Hds Hs Hp Hsp Hpe Hload.
  pose proof (month_iter_app p e Hp Hpe s Hs Hsp) as Hsplit.
  split; [exact Hsplit|].
  assert (Hl1 : forall q, In q (month_iter s p) ->
                  exists page, goto w (planned_url key item_cd q) = Ok page).
  { intros q Hq. apply Hload. rewrite Hsplit. apply in_or_app. now left. }
  assert (Hl2 : forall q,
                  In q (month_iter (next_month (fst p) (snd p)) e) ->
                  exists page, goto w (planned_url key item_cd q) = Ok page).
  { intros q Hq. apply Hload. rewrite Hsplit. apply in_or_app. now right. }
  destruct (collect_all_load tbl w key ds s p item_cd csv sup table Hds Hl1)
    as (log1 & Hr1 & Hf1 & _).
  destruct (collect_all_load tbl w key ds (next_month (fst p) (snd p)) e
              item_cd csv sup table Hds Hl2) as (log2 & Hr2 & Hf2 & _).
  destruct (collect_all_load tbl w key ds s e item_cd csv sup table Hds Hload)
    as (log & Hr & Hf & _).
  do 5 eexists. split; [exact Hr1|]. split; [exact Hr2|]. split.
  - rewrite Hr, Hsplit, window_rows_app. reflexivity.
  - now rewrite Hf, Hf1, Hf2, Hsplit, map_app.
Qed.

Lemma window_resumption_witness :
  month_iter (2024, 2) (2024, 4)
  = month_iter (2024, 2) (2024, 3) ++ month_iter (2024, 4) (2024, 4).
Proof.
  refine (proj1 (window_resumption ascii_digits_only flaky_world
                   "house_rent" (mkDataset "Mind_Rent_Cur" 14) None false
                   false EmptyString (2024, 2) (2024, 3) (2024, 4)
                   eq_refl _ _ eq_refl eq_refl _));
    try (unfold valid_ym; simpl; lia).
  intros q [<-|[<-|[<-|[]]]]; eexists; reflexivity.
Defined.

(** The loop closes what it opens and persists nothing. *)
Lemma collect_loop_log tbl w key item_cd : forall periods rows log,
  exists d,
    fetched (snd (collect_loop tbl w key item_cd periods rows log))
      = fetched log ++ d
    /\ closed (snd (collect_loop tbl w key item_cd periods rows log))
       = closed log ++ d
    /\ upserts (snd (collect_loop tbl w key item_cd periods rows log))
       = upserts log
    /\ csvs (snd (collect_loop tbl w key item_cd periods rows log))
       = csvs log.
Proof.
  induction periods as [|[y m] periods IH]; intros rows log; simpl.
  - exists []. rewrite !app_nil_r. auto.
  - destruct (build_url key y m item_cd) as [url|]; simpl;
      [|exists []; rewrite !app_nil_r; auto].
    destruct (goto w url) as [page|]; simpl.
    + destruct (append_rows tbl key item_cd y m url
                  (parse_table_icons page) rows) as [rows'|]; simpl.
      * match goal with
        | |- context [collect_loop _ _ _ _ _ ?r ?l] =>
          destruct (IH r l) as (d & Hf & Hc & Hu & Hv)
        end.
        exists (url :: d). rewrite Hf, Hc, Hu, Hv.
        rewrite !fetched_app, !closed_app, !upserts_app, !csvs_app.
        destruct (is_nil (parse_table_icons page)); simpl;
          rewrite <- ?app_assoc, ?app_nil_r; auto.
      * exists [url].
        rewrite !fetched_app, !closed_app, !upserts_app, !csvs_app.
        destruct (is_nil (parse_table_icons page)); simpl;
          rewrite ?app_nil_r; auto.
    + exists [url].
      rewrite !fetched_app, !closed_app, !upserts_app, !csvs_app. simpl.
      rewrite ?app_nil_r. auto.
Qed.

(** X4 — Every page is closed.  Whatever the dataset key, the window and
    the behaviour of the engine, and whether the run returns or raises,
    the pages [collect] and [collect_incremental] closed are exactly the
    pages they opened, in the same order. *)
Theorem pages_closed (tbl : N -> option decimal_digit) (w : World)
    key s e item_cd csv sup table :
  closed (snd (collect tbl w key s e item_cd csv sup table))
    = fetched (snd (collect tbl w key s e item_cd csv sup table))
  /\ closed (snd (collect_incremental tbl w key s e item_cd csv sup table))
     = fetched (snd (collect_incremental tbl w key s e item_cd csv sup table)).
Proof.
  assert (Hc : forall s e,
            closed (snd (collect tbl w key s e item_cd csv sup table))
            = fetched (snd (collect tbl w key s e item_cd csv sup table))).
  { intros s0 e0. unfold collect.
    match goal with
    | |- context [collect_loop _ _ _ _ ?ps [] []] =>
      destruct (collect_loop_log tbl w key item_cd ps [] [])
        as (d & Hf & Hcl & _);
      destruct (collect_loop tbl w key item_cd ps [] []) as [[rows|ex] log]
    end; simpl in *.
    - destruct (csv && negb (is_nil rows)), sup;
        rewrite ?fetched_app, ?closed_app, Hf, Hcl; reflexivity.
    - now rewrite Hf, Hcl. }
  split; [apply Hc|].
  unfold collect_incremental.
  destruct (ym_gt _ _).
  - destruct (latest_ym w key table); reflexivity.
  - match goal with
    | |- context [collect _ _ _ ?s0 ?e0 _ _ _ _] =>
      specialize (Hc s0 e0);
      destruct (collect tbl w key s0 e0 item_cd csv sup table) as [r log]
    end.
    simpl in *. destruct (latest_ym w key table); simpl; exact Hc.
Qed.

(* ================================================================== *)
(** * Further facts: the extracted mapping and the rows *)
(* ================================================================== *)

Lemma dict_set_keys {V} (d : list (ustring * V)) k v :
  map fst (dict_set ueqb d k v)
  = if mem_key k (map fst d) then map fst d else map fst d ++ [k].
Proof.
  induction d as [|[k0 v0] d IH]; simpl; [reflexivity|].
  destruct (ueqb k0 k) eqn:E; simpl; [reflexivity|].
  rewrite IH. now destruct (mem_key k (map fst d)).
Qed.

Lemma mem_key_In k keys : mem_key k keys = true <-> In k keys.
Proof.
  induction keys as [|k' keys IH]; simpl; [split; [discriminate|tauto]|].
  rewrite orb_true_iff, ueqb_eq, IH. tauto.
Qed.

Lemma row_regions_In k rows :
  In k (row_regions rows) <->
  exists r v, In r rows /\ parse_row r = Some (k, v).
Proof.
  induction rows as [|r rows IH]; simpl.
  - split; [tauto|]. intros (r & v & [] & _).
  - destruct (parse_row r) as [[k' v']|] eqn:E; simpl; rewrite ?IH; split.
    + intros [<-|(r0 & v0 & Hin & Hp)]; eauto 6.
    + intros (r0 & v0 & [<-|Hin] & Hp).
      * rewrite E in Hp. injection Hp as -> _. now left.
      * right. eauto.
    + intros (r0 & v0 & Hin & Hp). eauto.
    + intros (r0 & v0 & [<-|Hin] & Hp); [congruence|eauto].
Qed.

Lemma parse_row_Some r k v :
  parse_row r = Some (k, v) ->
  (2 <= List.length (tds r))%nat /\ k = strip (nth 0 (tds r) [])
  /\ k <> [] /\ k <> u "지역명".
Proof.
  unfold parse_row.
  destruct (List.length (tds r) <? 2)%nat eqn:El; [discriminate|].
  destruct (is_nil (strip (nth 0 (tds r) []))
            || ueqb (strip (nth 0 (tds r) [])) HEADER_CAPTION) eqn:Eb;
    [discriminate|].
  intros [= <- _]. apply Nat.ltb_ge in El.
  apply orb_false_elim in Eb as [En Ec].
  split; [exact El|]. split; [reflexivity|]. split.
  - intros H. now rewrite H in En.
  - intros H. rewrite H in Ec. unfold HEADER_CAPTION in Ec.
    now rewrite ueqb_refl in Ec.
Qed.

Lemma parse_rows_keys : forall rows data,
  NoDup (map fst data) ->
  NoDup (map fst (parse_rows rows data))
  /\ (forall k, In k (map fst (parse_rows rows data)) <->
                In k (map fst data) \/ In k (row_regions rows))
  /\ (List.length (parse_rows rows data)
      <= List.length data + List.length rows)%nat.
Proof.
  induction rows as [|r rows IH]; intros data Hnd; simpl.
  - split; [exact Hnd|]. split; [tauto|lia].
  - destruct (parse_row r) as [[k v]|].
    + assert (Hk : map fst (dict_set ueqb data k v)
                   = if mem_key k (map fst data) then map fst data
                     else map fst data ++ [k]) by apply dict_set_keys.
      assert (Hnd' : NoDup (map fst (dict_set ueqb data k v))).
      { rewrite Hk. destruct (mem_key k (map fst data)) eqn:Em; [exact Hnd|].
        apply NoDup_app; [exact Hnd|repeat constructor; intros []|].
        intros x Hx [<-|[]]. apply mem_key_In in Hx. congruence. }
      destruct (IH _ Hnd') as (H1 & H2 & H3).
      split; [exact H1|]. split.
      * intros k0. rewrite H2, Hk. simpl.
        destruct (mem_key k (map fst data)) eqn:Em.
        -- apply mem_key_In in Em. split; [tauto|].
           intros [H|[<-|H]]; tauto.
        -- rewrite in_app_iff. simpl. tauto.
      * assert (Hlen : (List.length (dict_set ueqb data k v)
                        <= S (List.length data))%nat).
        { rewrite <- (length_map fst), Hk, <- (length_map fst data).
          destruct (mem_key k (map fst data));
            rewrite ?length_app; simpl; lia. }
        lia.
    + destruct (IH _ Hnd) as (H1 & H2 & H3).
      split; [exact H1|]. split; [exact H2|lia].
Qed.

Lemma extraction_keys_NoDup (page : Page) :
  NoDup (map fst (parse_table_icons page)).
Proof.
  unfold parse_table_icons.
  destruct (select_table page) as [table|]; [|constructor].
  exact (proj1 (parse_rows_keys table [] (NoDup_nil _))).
Qed.

(** X7 — The extracted mapping.  The regions of the mapping returned for
    a page are pairwise distinct; they are exactly the regions of the rows
    of the selected table that are not skipped, so none is empty or the
    header caption; and the mapping has at most as many entries as the
    selected table has rows. *)
Theorem extraction_keys (page : Page) :
  NoDup (map fst (parse_table_icons page))
  /\ (forall k,
        In k (map fst (parse_table_icons page)) <->
        exists table r v,
          select_table page = Some table /\ In r table
          /\ parse_row r = Some (k, v))
  /\ (forall k, In k (map fst (parse_table_icons page)) ->
                k <> [] /\ k <> u "지역명")
  /\ (forall table, select_table page = Some table ->
        (List.length (parse_table_icons page) <= List.length table)%nat).
Proof.
  unfold parse_table_icons.
  destruct (select_table page) as [table|].
  - destruct (parse_rows_keys table [] (NoDup_nil _)) as (H1 & H2 & H3).
    assert (Hk : forall k,
              In k (map fst (parse_rows table [])) <->
              exists table0 r v,
                Some table = Some table0 /\ In r table0
                /\ parse_row r = Some (k, v)).
    { intros k. rewrite H2, row_regions_In. simpl. split.
      - intros [[]|(r & v & Hin & Hp)]. exists table, r, v. auto.
      - intros (t0 & r & v & [= <-] & Hin & Hp). right. eauto. }
    split; [exact H1|]. split; [exact Hk|]. split.
    + intros k Hin. apply Hk in Hin as (t0 & r & v & _ & _ & Hp).
      now apply parse_row_Some in Hp.
    + intros t0 [= <-]. simpl in H3. exact H3.
  - split; [constructor|]. split; [|split].
    + intros k. simpl. split; [tauto|]. intros (t & r & v & H & _).
      discriminate.
    + intros k [].
    + intros t H. discriminate.
Qed.

Lemma extraction_keys_witness :
  (List.length
     (parse_table_icons
        [[mkRow [u "종로구"; u ""] [Some (u "수축+1단계")];
          mkRow [u " 종로구"; u ""] [Some (u "확장+1단계")]]])
   <= 2)%nat.
Proof.
  destruct (extraction_keys
              [[mkRow [u "종로구"; u ""] [Some (u "수축+1단계")];
                mkRow [u " 종로구"; u ""] [Some (u "확장+1단계")]]])
    as (_ & _ & _ & H).
  exact (H _ eq_refl).
Defined.

Lemma StronglySorted_app {A} (R : A -> A -> Prop) (l1 l2 : list A) :
  StronglySorted R l1 -> StronglySorted R l2 ->
  (forall a b, In a l1 -> In b l2 -> R a b) ->
  StronglySorted R (l1 ++ l2).
Proof.
  induction l1 as [|x l1 IH]; intros H1 H2 H12; simpl; [exact H2|].
  inversion H1 as [|? ? Hs Hf]; subst. constructor.
  - apply IH; [exact Hs|exact H2|]. intros a b Ha Hb. apply H12; simpl; auto.
  - apply Forall_app. split; [exact Hf|].
    apply Forall_forall. intros b Hb. apply H12; simpl; auto.
Qed.

Lemma StronglySorted_all {A} (R : A -> A -> Prop) (l : list A) :
  (forall a b, In a l -> In b l -> R a b) -> StronglySorted R l.
Proof.
  induction l as [|x l IH]; intros H; constructor.
  - apply IH. intros a b Ha Hb. apply H; simpl; auto.
  - apply Forall_forall. intros b Hb. apply H; simpl; auto.
Qed.

Lemma StronglySorted_NoDup {A} (R : A -> A -> Prop) (l : list A) :
  (forall x, ~ R x x) -> StronglySorted R l -> NoDup l.
Proof.
  intros Hirr. induction 1 as [|x l Hs IH Hf]; constructor; [|exact IH].
  intros Hin. rewrite Forall_forall in Hf. exact (Hirr x (Hf x Hin)).
Qed.

Lemma month_iter_strongly_sorted s e :
  StronglySorted (fun a b => ym_lt a b = true) (month_iter s e).
Proof.
  apply Sorted_StronglySorted; [|apply month_iter_sorted].
  intros a b c. apply ym_lt_trans.
Qed.

Lemma month_iter_NoDup s e : NoDup (month_iter s e).
Proof.
  apply (StronglySorted_NoDup (fun a b => ym_lt a b = true));
    [|apply month_iter_strongly_sorted].
  intros x H. apply ym_lt_spec in H. lia.
Qed.

Section RowFacts.

Variable tbl : N -> option decimal_digit.
Variable w : World.
Variables (key : string) (item_cd : option Z) (code : Z).

Lemma window_rows_In r periods :
  In r (window_rows tbl w key item_cd code periods) ->
  exists p page gv,
    In p periods
    /\ goto w (planned_url key item_cd p) = Ok page
    /\ In gv (parse_table_icons page)
    /\ r = make_row tbl key code p (planned_url key item_cd p) gv.
Proof.
  unfold window_rows. rewrite in_flat_map. intros (p & Hp & Hr).
  destruct (goto w (planned_url key item_cd p)) as [page|] eqn:Eg;
    [|destruct Hr].
  unfold period_rows in Hr. apply in_map_iff in Hr as (gv & <- & Hgv).
  exists p, page, gv. auto.
Qed.

Lemma period_rows_keys p url page :
  NoDup (map row_key (period_rows tbl key code p url page)).
Proof.
  unfold period_rows. rewrite map_map.
  replace (map (fun x => row_key (make_row tbl key code p url x))
               (parse_table_icons page))
    with (map (fun k : ustring => (key, k, fst p, snd p))
              (map fst (parse_table_icons page)))
    by (rewrite map_map; reflexivity).
  apply Finite.Injective_map_NoDup.
  - intros a b H. now injection H.
  - apply (extraction_keys_NoDup page).
Qed.

End RowFacts.

Lemma window_rows_keys tbl w key item_cd code periods :
  NoDup periods ->
  NoDup (map row_key (window_rows tbl w key item_cd code periods)).
Proof.
  induction periods as [|p periods IH]; intros Hnd; [constructor|].
  inversion Hnd as [|? ? Hnotin Hnd']; subst.
  change (window_rows tbl w key item_cd code (p :: periods))
    with (window_rows tbl w key item_cd code ([p] ++ periods)).
  rewrite window_rows_app, map_app.
  apply NoDup_app; [|now apply IH|].
  - unfold window_rows. simpl. rewrite app_nil_r.
    destruct (goto w (planned_url key item_cd p)); [|constructor].
    apply period_rows_keys.
  - intros k Hk1 Hk2.
    apply in_map_iff in Hk1 as (r1 & <- & Hr1).
    apply in_map_iff in Hk2 as (r2 & Heq & Hr2).
    apply window_rows_In in Hr1 as (p1 & _ & gv1 & [<-|[]] & _ & _ & ->).
    apply window_rows_In in Hr2 as (p2 & _ & gv2 & Hp2 & _ & _ & ->).
    unfold row_key, make_row in Heq. simpl in Heq.
    injection Heq as _ Hy Hm. apply Hnotin.
    destruct p, p2. simpl in *. now subst.
Qed.

Lemma window_rows_sorted tbl w key item_cd code periods :
  StronglySorted (fun a b => ym_lt a b = true) periods ->
  StronglySorted
    (fun a b => ym_le (r_year a, r_month a) (r_year b, r_month b) = true)
    (window_rows tbl w key item_cd code periods).
Proof.
  induction 1 as [|p periods Hs IH Hf]; [constructor|].
  change (window_rows tbl w key item_cd code (p :: periods))
    with (window_rows tbl w key item_cd code ([p] ++ periods)).
  rewrite window_rows_app. apply StronglySorted_app; [|exact IH|].
  - apply StronglySorted_all. intros a b Ha Hb.
    apply window_rows_In in Ha as (p1 & _ & gv1 & [<-|[]] & _ & _ & ->).
    apply window_rows_In in Hb as (p2 & _ & gv2 & [<-|[]] & _ & _ & ->).
    simpl. apply ym_le_refl.
  - intros a b Ha Hb.
    apply window_rows_In in Ha as (p1 & _ & gv1 & [<-|[]] & _ & _ & ->).
    apply window_rows_In in Hb as (p2 & _ & gv2 & Hp2 & _ & _ & ->).
    simpl. rewrite Forall_forall in Hf. specialize (Hf p2 Hp2).
    apply ym_lt_spec in Hf. apply ym_le_spec.
    destruct p, p2. simpl in *. lia.
Qed.

(** The rows of a run that returns, for a registered dataset. *)
Lemma collect_Ok_rows tbl w key ds s e item_cd csv sup table rows log :
  datasets_getitem key = Ok ds ->
  collect tbl w key s (Some e) item_cd csv sup table = (Ok rows, log) ->
  rows = window_rows tbl w key item_cd (py_or item_cd (default_item ds))
                     (month_iter s e).
Proof.
  intros Hds Hrun.
  destruct (load_or_fail w key item_cd (month_iter s e))
    as [Hload|(pre & p & post & exn0 & Hsplit & Hload & Hfail)].
  - destruct (collect_all_load tbl w key ds s e item_cd csv sup table
                Hds Hload) as (log' & Hrun' & _).
    rewrite Hrun in Hrun'. now injection Hrun' as ->.
  - destruct (collect_failure tbl w key ds s e item_cd csv sup table
                pre p post exn0 Hds Hsplit Hload Hfail)
      as (log' & Hrun' & _).
    rewrite Hrun in Hrun'. discriminate.
Qed.

(** X8 — The rows of a run.  For a registered dataset the rows a run
    returns have pairwise distinct logical keys (dataset, region, year,
    month) and stand in ascending order of their period; each row carries
    the dataset key, a period of the window, the URL of that period, and
    the code and alias the region directory gives its region name, both
    empty when the name is not in the directory. *)
Theorem rows_of_a_run (tbl : N -> option decimal_digit) (w : World)
    key ds s e item_cd csv sup table rows log :
  datasets_getitem key = Ok ds ->
  collect tbl w key s (Some e) item_cd csv sup table = (Ok rows, log) ->
  NoDup (map row_key rows)
  /\ StronglySorted
       (fun a b => ym_le (r_year a, r_month a) (r_year b, r_month b) = true)
       rows
  /\ Forall (fun r =>
               r_dataset r = key
               /\ In (r_year r, r_month r) (month_iter s e)
               /\ r_url r = planned_url key item_cd (r_year r, r_month r)
               /\ (r_region_code r, r_region_alias r)
                  = match dict_get ueqb SEOUL_GU_MAP (r_region_name r) with
                    | Some ca => ca
                    | None => (EmptyString, EmptyString)
                    end) rows.
Proof.
  intros Hds Hrun.
  rewrite (collect_Ok_rows tbl w key ds s e item_cd csv sup table rows log
             Hds Hrun).
  split; [apply window_rows_keys, month_iter_NoDup|].
  split; [apply window_rows_sorted, month_iter_strongly_sorted|].
  apply Forall_forall. intros r Hr.
  apply window_rows_In in Hr as (p & page & gv & Hp & _ & _ & ->).
  destruct p as [y m]. unfold make_row.
  cbn [r_dataset r_year r_month r_url r_region_code r_region_alias
       r_region_name fst snd].
  split; [reflexivity|]. split; [exact Hp|].
  split; [reflexivity|]. unfold gu_lookup.
  destruct (dict_get ueqb SEOUL_GU_MAP (fst gv)) as [[c a]|]; reflexivity.
Qed.

Lemma rows_of_a_run_witness :
  exists rows log,
    collect ascii_digits_only flaky_world "house_rent" (2024, 2)
            (Some (2024, 3)) None false false EmptyString = (Ok rows, log)
    /\ List.length rows = 2%nat
    /\ NoDup (map row_key rows).
Proof.
  eexists. eexists. split; [reflexivity|]. split; [reflexivity|].
  exact (proj1 (rows_of_a_run ascii_digits_only flaky_world "house_rent"
                  (mkDataset "Mind_Rent_Cur" 14) (2024, 2) (2024, 3) None
                  false false EmptyString _ _ eq_refl eq_refl)).
Defined.

(* ================================================================== *)
(** * Further facts: the scorer *)
(* ================================================================== *)

Lemma remove_spaces_app a b :
  remove_spaces (a ++ b) = remove_spaces a ++ remove_spaces b.
Proof. apply filter_app. Qed.

Lemma remove_spaces_idem s : remove_spaces (remove_spaces s) = remove_spaces s.
Proof.
  unfold remove_spaces. induction s as [|c s IH]; simpl; [reflexivity|].
  destruct (negb (c =? 32)%N) eqn:E; simpl; rewrite ?E, IH; reflexivity.
Qed.

Lemma score_weather_spaces_only tbl s :
  remove_spaces s = [] -> score_weather tbl s = None.
Proof.
  intros H. destruct s as [|c t]; [reflexivity|].
  rewrite score_weather_nonempty by discriminate. cbv zeta. now rewrite H.
Qed.

Lemma score_weather_normal tbl s :
  score_weather tbl (remove_spaces s) = score_weather tbl s.
Proof.
  destruct (remove_spaces s) as [|c t] eqn:E.
  - now rewrite (score_weather_spaces_only tbl s E).
  - assert (Hs : s <> []) by (intros ->; discriminate).
    rewrite <- E, (score_weather_nonempty tbl s Hs).
    rewrite score_weather_nonempty by (rewrite E; discriminate).
    cbv zeta. now rewrite remove_spaces_idem.
Qed.

(** X9 — Spaces do not matter.  A space put anywhere into a descriptor
    leaves its score unchanged, and a descriptor scores like the text left
    after all its spaces are removed; a descriptor of spaces only has no
    score. *)
Theorem score_ignores_spaces (tbl : N -> option decimal_digit) :
  (forall a b,
     score_weather tbl (a ++ 32%N :: b) = score_weather tbl (a ++ b)) /\
  (forall s, score_weather tbl (remove_spaces s) = score_weather tbl s) /\
  (forall s, remove_spaces s = [] -> score_weather tbl s = None).
Proof.
  split; [|split].
  - intros a b.
    rewrite <- (score_weather_normal tbl (a ++ 32%N :: b)).
    rewrite <- (score_weather_normal tbl (a ++ b)).
    now rewrite !remove_spaces_app.
  - apply score_weather_normal.
  - apply score_weather_spaces_only.
Qed.

Lemma score_ignores_spaces_witness :
  score_weather ascii_digits_only [32%N; 32%N] = None.
Proof.
  apply (proj2 (proj2 (score_ignores_spaces ascii_digits_only))).
  reflexivity.
Defined.

(** X10 — What the phase token decides.  With the spaces removed, a
    descriptor that starts with the contraction token scores between -10
    and -1, one that starts with the expansion token between 1 and 10, one
    that starts with the stability token between -9 and 9; and the score
    is absent exactly when the descriptor starts with none of the three
    tokens. *)
Theorem score_by_phase (tbl : N -> option decimal_digit) alt_text :
  let alt := remove_spaces alt_text in
  (startswith alt (u "수축") = true ->
   exists z, score_weather tbl alt_text = Some z /\ -10 <= z <= -1) /\
  (startswith alt (u "확장") = true ->
   exists z, score_weather tbl alt_text = Some z /\ 1 <= z <= 10) /\
  (startswith alt (u "안정") = true ->
   exists z, score_weather tbl alt_text = Some z /\ -9 <= z <= 9) /\
  (score_weather tbl alt_text = None <->
   startswith alt (u "수축") = false
   /\ startswith alt (u "확장") = false
   /\ startswith alt (u "안정") = false).
Proof.
  intros alt.
  destruct (phase_of_cases alt) as (Hc & He & Hs & Hn).
  assert (Hss : exists sg n,
            sign_step (re_search tbl alt) = (sg, n)
            /\ 0 <= n <= 9 /\ -1 <= sg <= 1).
  { destruct (re_search tbl alt) as [[g n]|] eqn:Es; simpl.
    - apply re_search_range in Es.
      exists (if (g =? MINUS)%N then -1 else 1), n.
      split; [reflexivity|]. destruct (g =? MINUS)%N; lia.
    - exists 0, 0. split; [reflexivity|lia]. }
  destruct Hss as (sg & n & Hss & Hn9 & Hsg).
  assert (Hsome : forall ph, phase_of alt = Some ph -> alt_text <> []).
  { intros ph Hph ->. discriminate. }
  assert (Hcase : forall ph, phase_of alt = Some ph ->
            score_weather tbl alt_text =
            match ph with
            | Contraction => Some (- (n + 1))
            | Expansion => Some (n + 1)
            | Stability => Some (sg * n)
            end).
  { intros ph Hph.
    rewrite (score_weather_nonempty tbl alt_text (Hsome ph Hph)).
    cbv zeta. fold alt. rewrite Hph, Hss. now destruct ph. }
  split; [|split; [|split]].
  - intros H. rewrite (Hcase _ (Hc H)). eexists. split; [reflexivity|lia].
  - intros H. rewrite (Hcase _ (He H)). eexists. split; [reflexivity|lia].
  - intros H. rewrite (Hcase _ (Hs H)). eexists. split; [reflexivity|nia].
  - split.
    + intros Hnone.
      destruct (startswith alt (u "수축")) eqn:E1;
        [rewrite (Hcase _ (Hc eq_refl)) in Hnone; discriminate|].
      destruct (startswith alt (u "확장")) eqn:E2;
        [rewrite (Hcase _ (He eq_refl)) in Hnone; discriminate|].
      destruct (startswith alt (u "안정")) eqn:E3;
        [rewrite (Hcase _ (Hs eq_refl)) in Hnone; discriminate|].
      auto.
    + intros (H1 & H2 & H3).
      destruct alt_text as [|c t]; [reflexivity|].
      rewrite score_weather_nonempty by discriminate. cbv zeta. fold alt.
      now rewrite (Hn H1 H2 H3).
Qed.

Lemma score_by_phase_witness :
  exists z,
    score_weather ascii_digits_only (u "수축 - 9 단계") = Some z
    /\ -10 <= z <= -1.
Proof.
  exact (proj1 (score_by_phase ascii_digits_only (u "수축 - 9 단계"))
               eq_refl).
Defined.

(* ================================================================== *)
(** * Further facts: the storage helpers *)
(* ================================================================== *)

Lemma get_supabase_client_missing st :
  env_url st = EmptyString \/ env_key st = EmptyString ->
  exists msg, get_supabase_client st = Thrown (RuntimeError msg).
Proof.
  intros H. unfold get_supabase_client.
  destruct H as [-> | ->]; simpl; rewrite ?orb_true_r; eauto.
Qed.

Lemma get_supabase_client_Thrown st e :
  get_supabase_client st = Thrown e ->
  (forall msg, e <> RuntimeError msg) ->
  create_client st (env_url st) (env_key st) = Thrown e.
Proof.
  unfold get_supabase_client.
  destruct (str_empty (env_url st) || str_empty (env_key st)); [|auto].
  intros [= <-] H. now contradiction (H _ eq_refl).
Qed.

(** X11 — When the upsert helper sends and when it raises.  With no rows
    it does not even ask for a client; with a credential missing it sends
    nothing and returns; once a client is there it sends all the rows in
    one call and returns whether or not that call raises.  It raises only
    when [create_client] itself raises something other than a
    [RuntimeError], and then nothing was sent. *)
Theorem upsert_outcomes (st : Storage) rows table :
  (rows = [] ->
   upsert_krihs_rows st rows table = (Done tt, [StInfoEmpty])) /\
  (env_url st = EmptyString \/ env_key st = EmptyString ->
   fst (upsert_krihs_rows st rows table) = Done tt
   /\ sent (snd (upsert_krihs_rows st rows table)) = []) /\
  (get_supabase_client st = Done tt -> rows <> [] ->
   fst (upsert_krihs_rows st rows table) = Done tt
   /\ sent (snd (upsert_krihs_rows st rows table)) = [rows]) /\
  (forall e,
     fst (upsert_krihs_rows st rows table) = Thrown e ->
     rows <> []
     /\ (forall msg, e <> RuntimeError msg)
     /\ create_client st (env_url st) (env_key st) = Thrown e
     /\ snd (upsert_krihs_rows st rows table) = []).
Proof.
  unfold upsert_krihs_rows. split; [|split; [|split]].
  - now intros ->.
  - intros Hmiss. destruct (is_nil rows); [auto|].
    destruct (get_supabase_client_missing st Hmiss) as (msg & ->). auto.
  - intros Hc Hne. destruct rows as [|r rows]; [congruence|]. simpl.
    rewrite Hc. destruct (upsert_execute st table (r :: rows)); auto.
  - intros e. destruct rows as [|r rows]; simpl; [discriminate|].
    destruct (get_supabase_client st) as [[]|[msg|msg]] eqn:Ec; simpl.
    + destruct (upsert_execute st table (r :: rows)); discriminate.
    + discriminate.
    + intros [= <-]. split; [discriminate|].
      assert (Hnr : forall m, OtherError msg <> RuntimeError m)
        by (intros m; discriminate).
      split; [exact Hnr|]. split; [|reflexivity].
      now apply get_supabase_client_Thrown.
Qed.

Lemma upsert_outcomes_witness :
  fst (upsert_krihs_rows storage_without_key [sample_row] "krihs_mindicons")
    = Done tt
  /\ sent (snd (upsert_krihs_rows storage_failing_upsert [sample_row]
                                  "krihs_mindicons"))
     = [[sample_row]].
Proof.
  split.
  - refine (proj1 (proj1 (proj2
      (upsert_outcomes storage_without_key [sample_row] "krihs_mindicons"))
      _)).
    right. reflexivity.
  - refine (proj2 (proj1 (proj2 (proj2
      (upsert_outcomes storage_failing_upsert [sample_row]
                       "krihs_mindicons"))) eq_refl _)).
    discriminate.
Defined.

Lemma loop_events_app a b :
  loop_events (a ++ b) = loop_events a ++ loop_events b.
Proof.
  induction a as [|ev a IH]; [reflexivity|].
  destruct ev; simpl; rewrite IH; reflexivity.
Qed.

Lemma store_events_app a b :
  store_events (a ++ b) = store_events a ++ store_events b.
Proof.
  induction a as [|ev a IH]; [reflexivity|].
  destruct ev; simpl; rewrite IH; reflexivity.
Qed.

Lemma csv_files_app a b : csv_files (a ++ b) = csv_files a ++ csv_files b.
Proof.
  induction a as [|ev a IH]; [reflexivity|].
  destruct ev; simpl; rewrite IH; reflexivity.
Qed.

Lemma trace_of_loop l :
  loop_events (map RLoop l) = l
  /\ store_events (map RLoop l) = []
  /\ csv_files (map RLoop l) = [].
Proof.
  induction l as [|ev l (IH1 & IH2 & IH3)]; simpl; [auto|].
  rewrite IH1. auto.
Qed.

Lemma trace_of_store l :
  loop_events (map RStore l) = []
  /\ store_events (map RStore l) = l
  /\ csv_files (map RStore l) = [].
Proof.
  induction l as [|ev l (IH1 & IH2 & IH3)]; simpl; [auto|].
  rewrite IH2. auto.
Qed.

(** X12 — The latest-period lookup.  The helper reports a period exactly
    when a client is there and the query returns at least one row, and
    the period is that of the first row; with a credential missing it
    makes no query and reports none, and so it does when the query
    raises.  It raises only when [create_client] raises something other
    than a [RuntimeError].  In [collect_incremental]: an exception of the
    lookup leaves the incremental run before anything else is done; a
    lookup that reports none makes the run that of [collect] over the
    window from the default start, with the same result, page fetches and
    CSV file, or return no rows without a fetch when that window is
    empty; a lookup that reports a period makes it that of [collect] from
    the month after that period. *)
Theorem latest_period_lookup (st : Storage) key table :
  (forall p,
     fst (get_latest_ym_from_supabase st key table) = Done (Some p) <->
     get_supabase_client st = Done tt
     /\ exists rest, select_latest st table key = Done (p :: rest)) /\
  (env_url st = EmptyString \/ env_key st = EmptyString ->
   exists msg,
     get_latest_ym_from_supabase st key table
     = (Done None, [StWarnInit msg])) /\
  (forall e,
     get_supabase_client st = Done tt ->
     select_latest st table key = Thrown e ->
     fst (get_latest_ym_from_supabase st key table) = Done None) /\
  (forall e,
     fst (get_latest_ym_from_supabase st key table) = Thrown e ->
     (forall msg, e <> RuntimeError msg)
     /\ create_client st (env_url st) (env_key st) = Thrown e) /\
  (forall tbl w h default_start e item_cd csv out sup,
     let inc :=
       collect_incremental_run tbl w h st key default_start (Some e)
                               item_cd csv out sup table in
     let run_from start :=
       collect_run tbl w h st key start (Some e) item_cd csv out sup table in
     let same_as start :=
       (ym_gt start e = false ->
        fst inc = fst (run_from start)
        /\ fetched (loop_events (snd inc))
           = fetched (loop_events (snd (run_from start)))
        /\ csv_files (snd inc) = csv_files (snd (run_from start)))
       /\ (ym_gt start e = true ->
           fst inc = Returned []
           /\ fetched (loop_events (snd inc)) = []
           /\ csv_files (snd inc) = []) in
     (forall ex,
        fst (get_latest_ym_from_supabase st key table) = Thrown ex ->
        inc = (Raised (HostExn ex), []))
     /\ (fst (get_latest_ym_from_supabase st key table) = Done None ->
         same_as default_start)
     /\ (forall p,
           fst (get_latest_ym_from_supabase st key table) = Done (Some p) ->
           same_as (next_month (fst p) (snd p)))).
Proof.
  split; [|split; [|split; [|split]]].
  - intros p. unfold get_latest_ym_from_supabase.
    destruct (get_supabase_client st) as [[]|[msg|msg]]; simpl.
    + destruct (select_latest st table key) as [[|row rest]|ex]; simpl;
        split; try discriminate.
      * intros (_ & rest & H). discriminate.
      * intros [= ->]. eauto.
      * intros (_ & rest' & [= -> _]). reflexivity.
      * intros (_ & rest & H). discriminate.
    + split; [discriminate|]. intros (H & _). discriminate.
    + split; [discriminate|]. intros (H & _). discriminate.
  - intros Hmiss. unfold get_latest_ym_from_supabase.
    destruct (get_supabase_client_missing st Hmiss) as (msg & ->). eauto.
  - intros e Hc He. unfold get_latest_ym_from_supabase.
    now rewrite Hc, He.
  - intros e. unfold get_latest_ym_from_supabase.
    destruct (get_supabase_client st) as [[]|[msg|msg]] eqn:Ec; simpl.
    + destruct (select_latest st table key) as [[|row rest]|ex];
        discriminate.
    + discriminate.
    + intros [= <-].
      assert (Hnr : forall m, OtherError msg <> RuntimeError m)
        by (intros m; discriminate).
      split; [exact Hnr|]. now apply get_supabase_client_Thrown.
  - intros tbl w h default_start e item_cd csv out sup inc run_from same_as.
    assert (Hsame : forall latest,
              fst (get_latest_ym_from_supabase st key table) = Done latest ->
              same_as (incremental_start latest default_start)).
    { intros latest Hl. unfold same_as, inc, run_from,
        collect_incremental_run.
      destruct (get_latest_ym_from_supabase st key table) as [r sl].
      simpl in Hl. subst r. cbv zeta.
      split; intros Hgt; rewrite Hgt.
      - destruct (collect_run tbl w h st key
                    (incremental_start latest default_start) (Some e)
                    item_cd csv out sup table) as [r tr].
        cbn [fst snd].
        rewrite loop_events_app, csv_files_app.
        destruct (trace_of_store sl) as (-> & _ & ->).
        destruct latest; simpl; auto.
      - cbn [fst snd].
        rewrite loop_events_app, csv_files_app.
        destruct (trace_of_store sl) as (-> & _ & ->).
        destruct latest; simpl; auto. }
    split; [|split].
    + intros ex Hl. unfold inc, collect_incremental_run.
      unfold get_latest_ym_from_supabase in *.
      destruct (get_supabase_client st) as [[]|[msg|msg]]; simpl in *.
      * destruct (select_latest st table key) as [[|row rest]|ex'];
          discriminate.
      * discriminate.
      * injection Hl as <-. reflexivity.
    + intros Hl. exact (Hsame None Hl).
    + intros [py pm] Hl. exact (Hsame (Some (py, pm)) Hl).
Qed.

Lemma latest_period_lookup_witness :
  fst (get_latest_ym_from_supabase storage_failing_upsert
         "house_rent" "krihs_mindicons") = Done (Some (2024, 9))
  /\ fetched (loop_events (snd
       (collect_incremental_run ascii_digits_only flaky_world quiet_host
          storage_without_key "house_rent" (2024, 2) (Some (2024, 3)) None
          false "out.csv" true "krihs_mindicons")))
     = map (planned_url "house_rent" None) (month_iter (2024, 2) (2024, 3))
  /\ collect_incremental_run ascii_digits_only flaky_world quiet_host
       storage_refusing_client "house_rent" (2024, 2) (Some (2024, 3)) None
       false "out.csv" true "krihs_mindicons"
     = (Raised (HostExn (OtherError "Invalid API key")), []).
Proof.
  split; [|split].
  - apply (proj1 (latest_period_lookup storage_failing_upsert
                    "house_rent" "krihs_mindicons")).
    split; [reflexivity|]. eexists. reflexivity.
  - exact (eq_trans
      (proj1 (proj2 (proj1
         (proj1 (proj2
            (proj2 (proj2 (proj2 (proj2
               (latest_period_lookup storage_without_key
                  "house_rent" "krihs_mindicons"))))
               ascii_digits_only flaky_world quiet_host
               (2024, 2) (2024, 3) None false "out.csv"%string true))
            eq_refl)
         eq_refl)))
      eq_refl).
  - exact (proj1
      (proj2 (proj2 (proj2 (proj2
         (latest_period_lookup storage_refusing_client
            "house_rent" "krihs_mindicons"))))
         ascii_digits_only flaky_world quiet_host
         (2024, 2) (2024, 3) None false "out.csv"%string true)
      (OtherError "Invalid API key") eq_refl).
Defined.

(* ================================================================== *)
(** * Further facts: the dashboard helpers *)
(* ================================================================== *)

Lemma prev_month_valid p : valid_ym p -> valid_ym (prev_month p).
Proof.
  unfold valid_ym, prev_month.
  destruct (snd p - 1 <? 1) eqn:E; simpl; lia.
Qed.

Lemma next_prev_month p :
  valid_ym p ->
  next_month (fst (prev_month p)) (snd (prev_month p)) = p.
Proof.
  unfold valid_ym, prev_month, next_month. destruct p as [y m]. simpl.
  intros Hv. destruct (m - 1 <? 1) eqn:E; simpl.
  - destruct (12 + 1 >? 12) eqn:E'; f_equal; lia.
  - destruct (m - 1 + 1 >? 12) eqn:E'; f_equal; lia.
Qed.

Lemma prev_next_month y m :
  valid_ym (y, m) -> prev_month (next_month y m) = (y, m).
Proof.
  unfold valid_ym, prev_month, next_month. simpl. intros Hv.
  destruct (m + 1 >? 12) eqn:E; simpl.
  - destruct (1 - 1 <? 1) eqn:E'; f_equal; lia.
  - destruct (m + 1 - 1 <? 1) eqn:E'; f_equal; lia.
Qed.

Lemma prev_month_index p :
  valid_ym p -> month_index (prev_month p) = month_index p - 1.
Proof.
  unfold valid_ym, prev_month, month_index. destruct p as [y m].
  cbn [fst snd]. intros Hv.
  destruct (m - 1 <? 1) eqn:E; cbn [fst snd]; lia.
Qed.

Lemma prev_month_le p : valid_ym p -> ym_le (prev_month p) p = true.
Proof.
  unfold valid_ym, prev_month. destruct p as [y m]. simpl. intros Hv.
  apply ym_le_spec. destruct (m - 1 <? 1) eqn:E; simpl; lia.
Qed.

Lemma prev_n_months_loop_S n y m :
  prev_n_months_loop (S n) y m
  = (y, m) :: prev_n_months_loop n (fst (prev_month (y, m)))
                                 (snd (prev_month (y, m))).
Proof.
  simpl. unfold prev_month. simpl. now destruct (m - 1 <? 1).
Qed.

Lemma prev_n_months_loop_length n : forall y m,
  List.length (prev_n_months_loop n y m) = n.
Proof.
  induction n as [|n IH]; intros y m; [reflexivity|].
  rewrite prev_n_months_loop_S. simpl. now rewrite IH.
Qed.

Lemma prev_n_months_loop_bound n : forall p,
  valid_ym p ->
  Forall (fun x => valid_ym x /\ ym_le x p = true)
         (prev_n_months_loop n (fst p) (snd p)).
Proof.
  induction n as [|n IH]; intros [y m] Hv; [constructor|].
  cbn [fst snd]. rewrite prev_n_months_loop_S. constructor.
  - split; [exact Hv|apply ym_le_refl].
  - pose proof (prev_month_le _ Hv) as Hle.
    eapply Forall_impl; [|apply (IH _ (prev_month_valid _ Hv))].
    intros x [Hx Hxp]. split; [exact Hx|].
    apply ym_le_spec in Hxp, Hle. apply ym_le_spec. lia.
Qed.

Lemma last_In {A} (l : list A) a d : In (last (a :: l) d) (a :: l).
Proof.
  revert a. induction l as [|b l IH]; intros a; [now left|].
  right. change (In (last (b :: l) d) (b :: l)). apply IH.
Qed.

Lemma prev_n_months_loop_window n : forall p,
  valid_ym p ->
  rev (prev_n_months_loop (S n) (fst p) (snd p))
  = month_iter (last (prev_n_months_loop (S n) (fst p) (snd p)) p) p
  /\ month_index (last (prev_n_months_loop (S n) (fst p) (snd p)) p)
     = month_index p - Z.of_nat n.
Proof.
  induction n as [|n IH]; intros [y m] Hv; cbn [fst snd].
  - rewrite prev_n_months_loop_S. cbn [prev_n_months_loop rev app last].
    split; [now rewrite month_iter_single|change (Z.of_nat 0) with 0; lia].
  - rewrite prev_n_months_loop_S.
    set (q := prev_month (y, m)).
    assert (Hq : valid_ym q) by now apply prev_month_valid.
    destruct (IH q Hq) as (IHw & IHi).
    remember (prev_n_months_loop (S n) (fst q) (snd q)) as l eqn:El.
    assert (Hl : exists a t, l = a :: t).
    { rewrite El, prev_n_months_loop_S. eauto. }
    destruct Hl as (a & t & Hat).
    assert (Hlast : @last ym ((y, m) :: l) (y, m) = last l q).
    { rewrite Hat. change (@last ym (a :: t) (y, m) = last (a :: t) q).
      apply last_cons_default. }
    rewrite Hlast. split.
    + simpl rev. rewrite IHw.
      assert (Hin : In (last l q) l) by (rewrite Hat; apply last_In).
      pose proof (prev_n_months_loop_bound (S n) q Hq) as Hb.
      rewrite <- El in Hb. rewrite Forall_forall in Hb.
      destruct (Hb _ Hin) as (Hlv & Hlq).
      rewrite (month_iter_app q (y, m) Hq (prev_month_le _ Hv)
                 (last l q) Hlv Hlq).
      assert (Hnp : next_month (fst q) (snd q) = (y, m))
        by (apply next_prev_month; exact Hv).
      now rewrite Hnp, month_iter_single.
    + rewrite IHi. unfold q. rewrite (prev_month_index _ Hv). lia.
Qed.

(** X13 — The months before a base month.  [prev_n_months(year, month, n)]
    is empty for [n <= 0].  For a calendar period and [n >= 1] it has [n]
    elements, all calendar periods, the first being the base month; read
    backwards it is the window [month_iter] yields from its last element
    to the base month, and that last element lies [n - 1] months before
    the base month.  On (2024, 5) with [n = 3] it is
    [(2024,5), (2024,4), (2024,3)]. *)
Theorem prev_n_months_window year month n :
  (n <= 0 -> prev_n_months year month n = []) /\
  (valid_ym (year, month) -> 1 <= n ->
   let l := prev_n_months year month n in
   Z.of_nat (List.length l) = n
   /\ hd_error l = Some (year, month)
   /\ Forall valid_ym l
   /\ rev l = month_iter (last l (year, month)) (year, month)
   /\ month_index (last l (year, month))
      = month_index (year, month) - (n - 1)) /\
  prev_n_months 2024 5 3 = [(2024, 5); (2024, 4); (2024, 3)] /\
  prev_n_months 2024 1 3 = [(2024, 1); (2023, 12); (2023, 11)].
Proof.
  split; [|split; [|split; reflexivity]].
  - intros Hn. unfold prev_n_months.
    replace (Z.to_nat n) with O by lia. reflexivity.
  - intros Hv Hn l. unfold l, prev_n_months.
    destruct (Z.to_nat n) as [|k] eqn:Ek; [lia|].
    destruct (prev_n_months_loop_window k (year, month) Hv) as (Hw & Hi).
    cbn [fst snd] in Hw, Hi.
    split; [rewrite prev_n_months_loop_length; lia|].
    split; [now rewrite prev_n_months_loop_S|].
    split.
    + pose proof (prev_n_months_loop_bound (S k) (year, month) Hv) as Hb.
      cbn [fst snd] in Hb. eapply Forall_impl; [|exact Hb]. now intros x [Hx _].
    + split; [exact Hw|]. rewrite Hi. lia.
Qed.

Lemma prev_n_months_window_witness :
  rev (prev_n_months 2025 2 3)
  = month_iter (last (prev_n_months 2025 2 3) (2025, 2)) (2025, 2)
  /\ prev_n_months 2025 2 0 = [].
Proof.
  destruct (prev_n_months_window 2025 2 3) as (_ & H & _).
  destruct (prev_n_months_window 2025 2 0) as (H0 & _).
  split; [|apply H0; lia].
  apply H; [unfold valid_ym; simpl; lia|lia].
Defined.

Lemma string_length_app (a b : string) :
  String.length (a ++ b) = (String.length a + String.length b)%nat.
Proof. induction a as [|c a IH]; simpl; [reflexivity|now rewrite IH]. Qed.

(** Two strings with tails of one length agree part by part. *)
Lemma append_cancel_len : forall a a' t t' : string,
  String.length t = String.length t' ->
  (a ++ t = a' ++ t')%string -> a = a' /\ t = t'.
Proof.
  induction a as [|c a IH]; intros [|c' a'] t t' Hlen H; simpl in H.
  - auto.
  - exfalso. apply (f_equal String.length) in H. simpl in H.
    rewrite string_length_app in H. lia.
  - exfalso. apply (f_equal String.length) in H. simpl in H.
    rewrite string_length_app in H. lia.
  - injection H as -> H. destruct (IH a' t t' Hlen H) as [-> ->]. auto.
Qed.

Lemma ym_label_two_digits y m :
  0 <= m < 100 ->
  ym_label y m = (py_str y ++ String "-" (two_digits m))%string.
Proof.
  intros Hm. unfold ym_label. now rewrite fmt_02d_two_digits.
Qed.

Lemma ym_label_inj y m y' m' :
  0 <= m < 100 -> 0 <= m' < 100 ->
  ym_label y m = ym_label y' m' -> y = y' /\ m = m'.
Proof.
  intros Hm Hm' H. rewrite !ym_label_two_digits in H by assumption.
  apply append_cancel_len in H; [|reflexivity].
  destruct H as [Hy H]. apply py_str_inj in Hy. split; [exact Hy|].
  apply (append_cancel_l "-") in H. now apply two_digits_inj.
Qed.

(** X14 — Labels tell periods apart.  For months between 0 and 99 the
    label [f"{y}-{m:02d}"] of a period is the year, a hyphen and two
    digits, and two periods with the same label are the same period. *)
Theorem ym_label_injective y m y' m' :
  0 <= m < 100 -> 0 <= m' < 100 ->
  ym_label y m = (py_str y ++ "-" ++ two_digits m)%string
  /\ (ym_label y m = ym_label y' m' -> y = y' /\ m = m').
Proof.
  intros Hm Hm'. split; [now apply ym_label_two_digits|].
  now apply ym_label_inj.
Qed.

Lemma ym_label_injective_witness :
  ym_label 2024 5 = "2024-05"%string
  /\ ym_label 2024 5 <> ym_label 2024 4.
Proof.
  destruct (ym_label_injective 2024 5 2024 4 ltac:(lia) ltac:(lia))
    as [H1 H2].
  split; [exact H1|].
  intros H. destruct (H2 H) as [_ Hm]. discriminate Hm.
Defined.

Lemma dict_get_set_str {V} (d : list (string * V)) k v k' :
  dict_get String.eqb (dict_set String.eqb d k v) k' =
  if String.eqb k k' then Some v else dict_get String.eqb d k'.
Proof.
  induction d as [|[k0 v0] d IH]; simpl.
  - reflexivity.
  - destruct (String.eqb k0 k) eqn:E0.
    + apply String.eqb_eq in E0. subst k0. simpl.
      destruct (String.eqb k k'); reflexivity.
    + simpl. destruct (String.eqb k0 k') eqn:E1.
      * apply String.eqb_eq in E1. subst k0.
        destruct (String.eqb k k') eqn:E2; [|reflexivity].
        apply String.eqb_eq in E2. subst k.
        now rewrite String.eqb_refl in E0.
      * exact IH.
Qed.

(** X15 — Marker sizes.  For a calendar base month the loop of [main]
    fills the size table without an index error, and a marker then gets
    radius 12 for the base month, 9 for the month before, 6 for the month
    before that, and 8 for any other label. *)
Theorem marker_sizes year month :
  valid_ym (year, month) ->
  let p1 := prev_month (year, month) in
  let p2 := prev_month p1 in
  exists radius_map,
    main_radius_map year month = Some radius_map
    /\ marker_radius radius_map (ym_label year month) = 12
    /\ marker_radius radius_map (ym_label (fst p1) (snd p1)) = 9
    /\ marker_radius radius_map (ym_label (fst p2) (snd p2)) = 6
    /\ forall l,
         l <> ym_label year month ->
         l <> ym_label (fst p1) (snd p1) ->
         l <> ym_label (fst p2) (snd p2) ->
         marker_radius radius_map l = 8.
Proof.
  intros Hv p1 p2.
  assert (Hv1 : valid_ym p1) by now apply prev_month_valid.
  assert (Hv2 : valid_ym p2) by now apply prev_month_valid.
  assert (Hl : prev_n_months year month 3 = [(year, month); p1; p2]).
  { unfold prev_n_months. change (Z.to_nat 3) with 3%nat.
    rewrite prev_n_months_loop_S. fold p1.
    rewrite prev_n_months_loop_S.
    replace (fst p1, snd p1) with p1 by now destruct p1.
    fold p2. rewrite prev_n_months_loop_S.
    replace (fst p2, snd p2) with p2 by now destruct p2.
    reflexivity. }
  assert (Hi1 : month_index p1 = month_index (year, month) - 1)
    by now apply prev_month_index.
  assert (Hi2 : month_index p2 = month_index p1 - 1)
    by now apply prev_month_index.
  assert (Hne : forall a b : ym,
            valid_ym a -> valid_ym b -> month_index a <> month_index b ->
            String.eqb (ym_label (fst a) (snd a)) (ym_label (fst b) (snd b))
            = false).
  { intros a b Ha Hb Hab. apply String.eqb_neq. intros H.
    unfold valid_ym in Ha, Hb.
    apply ym_label_inj in H; [|lia|lia]. destruct H as [Hy Hm].
    apply Hab. unfold month_index. now rewrite Hy, Hm. }
  unfold main_radius_map. rewrite Hl. cbn [rev app].
  destruct p1 as [y1 m1] eqn:E1, p2 as [y2 m2] eqn:E2.
  cbn [fill_radius_map radii nth_error fst snd].
  eexists. split; [reflexivity|].
  unfold marker_radius. rewrite !dict_get_set_str.
  pose proof (Hne (year, month) (y1, m1) Hv Hv1 ltac:(lia)) as N01.
  pose proof (Hne (year, month) (y2, m2) Hv Hv2 ltac:(lia)) as N02.
  pose proof (Hne (y1, m1) (y2, m2) Hv1 Hv2 ltac:(lia)) as N12.
  pose proof (Hne (y1, m1) (year, month) Hv1 Hv ltac:(lia)) as N10.
  pose proof (Hne (y2, m2) (year, month) Hv2 Hv ltac:(lia)) as N20.
  pose proof (Hne (y2, m2) (y1, m1) Hv2 Hv1 ltac:(lia)) as N21.
  cbn [fst snd] in *.
  rewrite !String.eqb_refl, ?N01, ?N02, ?N12, ?N10, ?N20, ?N21.
  repeat split; try reflexivity.
  intros l H0 H1 H2.
  apply not_eq_sym in H0, H1, H2.
  apply String.eqb_neq in H0, H1, H2.
  now rewrite !dict_get_set_str, H0, H1, H2.
Qed.

Lemma marker_sizes_witness :
  exists radius_map,
    main_radius_map 2024 1 = Some radius_map
    /\ marker_radius radius_map "2024-01" = 12
    /\ marker_radius radius_map "2023-12" = 9
    /\ marker_radius radius_map "2023-11" = 6.
Proof.
  destruct (marker_sizes 2024 1) as (rm & H & H0 & H1 & H2 & _).
  - unfold valid_ym. simpl. lia.
  - exists rm. split; [exact H|]. split; [exact H0|].
    split; [exact H1|exact H2].
Defined.

Lemma scoring_rule_parts tbl alt_text g n :
  first_match tbl (remove_spaces alt_text) g n ->
  (startswith (remove_spaces alt_text) (u "수축") = true ->
   score_weather tbl alt_text = Some (- (n + 1)))
  /\ (startswith (remove_spaces alt_text) (u "확장") = true ->
      score_weather tbl alt_text = Some (n + 1)).
Proof.
  intros Hm. apply re_search_first in Hm.
  destruct (phase_of_cases (remove_spaces alt_text)) as (Hc & He & _).
  split; intros Hp;
    rewrite score_weather_nonempty
      by (eapply startswith_nonempty; exact Hp);
    cbv zeta; rewrite Hm; [rewrite (Hc Hp)|rewrite (He Hp)]; reflexivity.
Qed.

Lemma color_of_int z :
  weather_score_to_color (ScoreInt z) =
  match Z.max (-4) (Z.min 4 z) with
  | -4 => "#08306b" | -3 => "#2171b5" | -2 => "#6baed6" | -1 => "#c6dbef"
  | 0 => "#f7f7f7"
  | 1 => "#fee0d2" | 2 => "#fc9272" | 3 => "#fb6a4a" | _ => "#cb181d"
  end%string.
Proof.
  unfold weather_score_to_color. cbv zeta.
  assert (H : -4 <= Z.max (-4) (Z.min 4 z) <= 4) by lia.
  remember (Z.max (-4) (Z.min 4 z)) as s eqn:Es. clear Es.
  assert (Hc : s = -4 \/ s = -3 \/ s = -2 \/ s = -1 \/ s = 0
               \/ s = 1 \/ s = 2 \/ s = 3 \/ s = 4) by lia.
  repeat (destruct Hc as [->|Hc]; [reflexivity|]). now subst.
Qed.

(** X16 — Colours.  An integer score is drawn in the colour of the score
    clamped to [-4, 4]: everything at or below -4 in the darkest blue,
    everything at or above 4 in the darkest red, and never in the default
    grey, which is kept for a missing score and for the empty string.
    Scores that differ inside [-4, 4] get different colours.  So the score
    of a weather descriptor is grey exactly when it is absent, and a
    contraction of magnitude 3 or more is drawn like magnitude 3. *)
Theorem score_colours :
  (forall z, z <= -4 ->
     weather_score_to_color (ScoreInt z) = "#08306b"%string) /\
  (forall z, 4 <= z ->
     weather_score_to_color (ScoreInt z) = "#cb181d"%string) /\
  (forall z,
     weather_score_to_color (ScoreInt z)
     = weather_score_to_color (ScoreInt (Z.max (-4) (Z.min 4 z)))) /\
  (forall z z', -4 <= z <= 4 -> -4 <= z' <= 4 ->
     weather_score_to_color (ScoreInt z)
     = weather_score_to_color (ScoreInt z') -> z = z') /\
  (forall s,
     weather_score_to_color s = DEFAULT_COLOR <->
     s = ScoreNone \/ s = ScoreEmpty) /\
  (forall tbl alt_text,
     weather_score_to_color (score_arg (score_weather tbl alt_text))
       = DEFAULT_COLOR
     <-> score_weather tbl alt_text = None) /\
  (forall tbl alt_text g n,
     first_match tbl (remove_spaces alt_text) g n -> 3 <= n ->
     startswith (remove_spaces alt_text) (u "수축") = true ->
     weather_score_to_color (score_arg (score_weather tbl alt_text))
     = "#08306b"%string).
Proof.
  assert (Hint : forall z, weather_score_to_color (ScoreInt z)
                           <> DEFAULT_COLOR).
  { intros z. rewrite color_of_int.
    assert (H : -4 <= Z.max (-4) (Z.min 4 z) <= 4) by lia.
    remember (Z.max (-4) (Z.min 4 z)) as s eqn:Es. clear Es.
    assert (Hc : s = -4 \/ s = -3 \/ s = -2 \/ s = -1 \/ s = 0
                 \/ s = 1 \/ s = 2 \/ s = 3 \/ s = 4) by lia.
    repeat (destruct Hc as [->|Hc]; [discriminate|]). subst. discriminate. }
  split; [|split; [|split; [|split; [|split; [|split]]]]].
  - intros z Hz. rewrite color_of_int.
    now replace (Z.max (-4) (Z.min 4 z)) with (-4) by lia.
  - intros z Hz. rewrite color_of_int.
    now replace (Z.max (-4) (Z.min 4 z)) with 4 by lia.
  - intros z. rewrite !color_of_int.
    now replace (Z.max (-4) (Z.min 4 (Z.max (-4) (Z.min 4 z))))
      with (Z.max (-4) (Z.min 4 z)) by lia.
  - intros z z' Hz Hz'. rewrite !color_of_int.
    replace (Z.max (-4) (Z.min 4 z)) with z by lia.
    replace (Z.max (-4) (Z.min 4 z')) with z' by lia.
    assert (Hc : z = -4 \/ z = -3 \/ z = -2 \/ z = -1 \/ z = 0
                 \/ z = 1 \/ z = 2 \/ z = 3 \/ z = 4) by lia.
    assert (Hc' : z' = -4 \/ z' = -3 \/ z' = -2 \/ z' = -1 \/ z' = 0
                  \/ z' = 1 \/ z' = 2 \/ z' = 3 \/ z' = 4) by lia.
    repeat (destruct Hc as [->|Hc]);
      repeat (destruct Hc' as [->|Hc']);
      subst; try reflexivity; discriminate.
  - intros s. destruct s as [| |z]; split; auto.
    + intros H. now apply Hint in H.
    + intros [H|H]; discriminate.
  - intros tbl alt_text.
    destruct (score_weather tbl alt_text) as [z|]; simpl; split; auto.
    + intros H. now apply Hint in H.
    + discriminate.
  - intros tbl alt_text g n Hm Hn Hp.
    pose proof (re_search_range tbl _ _ _ (re_search_first tbl _ _ _ Hm))
      as Hr.
    pose proof (proj1 (scoring_rule_parts tbl alt_text g n Hm) Hp) as Hs.
    rewrite Hs. simpl score_arg. rewrite color_of_int.
    now replace (Z.max (-4) (Z.min 4 (- (n + 1)))) with (-4) by lia.
Qed.

Lemma score_colours_witness :
  weather_score_to_color (ScoreInt (-10)) = "#08306b"%string
  /\ weather_score_to_color
       (score_arg (score_weather ascii_digits_only (u "수축+9단계")))
     = "#08306b"%string
  /\ weather_score_to_color (ScoreInt 2) <> weather_score_to_color (ScoreInt 3).
Proof.
  destruct score_colours as (H1 & _ & _ & H4 & _ & _ & H7).
  split; [apply H1; lia|]. split.
  - apply (H7 ascii_digits_only (u "수축+9단계") PLUS 9);
      [|lia|reflexivity].
    apply (first_match_after_token ascii_digits_only
             49688%N 52629%N PLUS 57%N 9 []);
      try (now left); try reflexivity; discriminate.
  - intros H. apply H4 in H; [discriminate|lia|lia].
Defined.

(* ================================================================== *)
(** * Further facts: sorting and the recent periods *)
(* ================================================================== *)

Section SortingFacts.

Context {A : Type} (ltb : A -> A -> bool) (le : A -> A -> Prop).
Hypothesis ltb_le : forall x y, ltb x y = true -> le x y.
Hypothesis ltb_ge : forall x y, ltb x y = false -> le y x.
Hypothesis le_trans : forall x y z, le x y -> le y z -> le x z.

Lemma insert_sorted_perm x l : Permutation (insert_sorted ltb x l) (x :: l).
Proof.
  induction l as [|y l IH]; simpl; [reflexivity|].
  destruct (ltb x y); [reflexivity|].
  rewrite IH. apply perm_swap.
Qed.

Lemma insert_sorted_sorted x l :
  StronglySorted le l -> StronglySorted le (insert_sorted ltb x l).
Proof.
  induction 1 as [|y l Hs IH Hf]; simpl; [repeat constructor|].
  destruct (ltb x y) eqn:E.
  - constructor; [now constructor|].
    constructor; [now apply ltb_le|].
    eapply Forall_impl; [|exact Hf]. intros z Hz.
    apply (le_trans x y z); [now apply ltb_le|exact Hz].
  - constructor; [exact IH|].
    apply Forall_forall. intros z Hz.
    apply (Permutation_in _ (insert_sorted_perm x l)) in Hz.
    destruct Hz as [<-|Hz]; [now apply ltb_ge|].
    rewrite Forall_forall in Hf. now apply Hf.
Qed.

Lemma py_sorted_fold_perm l : forall acc,
  Permutation (fold_left (fun acc x => insert_sorted ltb x acc) l acc)
              (acc ++ l).
Proof.
  induction l as [|x l IH]; intros acc; simpl.
  - now rewrite app_nil_r.
  - rewrite IH, insert_sorted_perm.
    apply Permutation_cons_app. reflexivity.
Qed.

Lemma py_sorted_fold_sorted l : forall acc,
  StronglySorted le acc ->
  StronglySorted le (fold_left (fun acc x => insert_sorted ltb x acc) l acc).
Proof.
  induction l as [|x l IH]; intros acc Hacc; simpl; [exact Hacc|].
  apply IH. now apply insert_sorted_sorted.
Qed.

Lemma py_sorted_sorted l : StronglySorted le (py_sorted ltb l).
Proof. apply py_sorted_fold_sorted. constructor. Qed.

Lemma py_sorted_perm l : Permutation (py_sorted ltb l) l.
Proof. apply (py_sorted_fold_perm l []). Qed.

End SortingFacts.

Lemma StronglySorted_strict {A} (le lt : A -> A -> Prop) (l : list A) :
  (forall x y, le x y -> x <> y -> lt x y) ->
  NoDup l -> StronglySorted le l -> StronglySorted lt l.
Proof.
  intros Hlt Hnd. induction 1 as [|x l Hs IH Hf]; constructor.
  - apply IH. now inversion Hnd.
  - inversion Hnd as [|? ? Hnotin _]; subst.
    rewrite Forall_forall in *. intros y Hy.
    apply Hlt; [now apply Hf|]. intros ->. contradiction.
Qed.

Lemma StronglySorted_app_inv {A} (R : A -> A -> Prop) (l1 l2 : list A) :
  StronglySorted R (l1 ++ l2) ->
  forall a b, In a l1 -> In b l2 -> R a b.
Proof.
  induction l1 as [|x l1 IH]; intros Hs a b Ha Hb; [destruct Ha|].
  simpl in Hs. inversion Hs as [|? ? Hs' Hf]; subst.
  destruct Ha as [<-|Ha].
  - rewrite Forall_forall in Hf. apply Hf. apply in_or_app. now right.
  - now apply IH.
Qed.

(** The last element of a sorted list is above all the others. *)
Lemma StronglySorted_last {A} (R : A -> A -> Prop) (l : list A) d :
  StronglySorted R l ->
  forall x, In x l -> x = last l d \/ R x (last l d).
Proof.
  induction 1 as [|a l Hs IH Hf]; intros x Hx; [destruct Hx|].
  destruct l as [|b l]; [destruct Hx as [<-|[]]; now left|].
  change (last (a :: b :: l) d) with (last (b :: l) d).
  destruct Hx as [<-|Hx]; [|now apply IH].
  right. rewrite Forall_forall in Hf. apply Hf.
  rewrite (last_cons_default l b d b). apply last_In.
Qed.

Lemma ym_eqb_eq a b : ym_eqb a b = true <-> a = b.
Proof.
  unfold ym_eqb. destruct a, b. simpl.
  rewrite andb_true_iff, !Z.eqb_eq. split; [intros [-> ->]|intros [= -> ->]];
    auto.
Qed.

Lemma mem_ym_In k seen : mem_ym k seen = true <-> In k seen.
Proof.
  induction seen as [|k' seen IH]; simpl; [split; [discriminate|tauto]|].
  rewrite orb_true_iff, ym_eqb_eq, IH. tauto.
Qed.

Lemma recent_loop_cons key data seen desc :
  recent_loop (key :: data) seen desc =
  if mem_ym key seen then recent_loop data seen desc
  else if (36 <=? List.length (desc ++ [key]))%nat then desc ++ [key]
       else recent_loop data (key :: seen) (desc ++ [key]).
Proof. reflexivity. Qed.

(** The loop stops inside the data, keeping what it met before. *)
Lemma recent_loop_spec : forall data seen desc,
  (forall k, In k seen <-> In k desc) -> NoDup desc ->
  exists pre post,
    data = pre ++ post
    /\ NoDup (recent_loop data seen desc)
    /\ (forall x, In x (recent_loop data seen desc)
                  <-> In x desc \/ In x pre)
    /\ (post = [] \/ (36 <= List.length (recent_loop data seen desc))%nat)
    /\ ((List.length desc < 36)%nat ->
        (List.length (recent_loop data seen desc) <= 36)%nat).
Proof.
  induction data as [|key data IH]; intros seen desc Hseen Hnd.
  - simpl. exists [], []. split; [reflexivity|]. split; [exact Hnd|].
    split; [intros x; simpl; tauto|]. split; [now left|lia].
  - rewrite recent_loop_cons. destruct (mem_ym key seen) eqn:Em.
    + apply mem_ym_In in Em. apply Hseen in Em.
      destruct (IH seen desc Hseen Hnd) as (pre & post & -> & H1 & H2 & H3 & H4).
      exists (key :: pre), post. split; [reflexivity|]. split; [exact H1|].
      split; [|split; assumption].
      intros x. rewrite H2. simpl. split; [tauto|].
      intros [H|[<-|H]]; tauto.
    + assert (Hnotin : ~ In key desc).
      { intros H. apply Hseen in H. apply mem_ym_In in H. congruence. }
      assert (Hnd' : NoDup (desc ++ [key])).
      { apply NoDup_app; [exact Hnd|repeat constructor; intros []|].
        intros x Hx [<-|[]]. contradiction. }
      assert (Hseen' : forall k, In k (key :: seen) <-> In k (desc ++ [key])).
      { intros k. rewrite in_app_iff. simpl. rewrite Hseen. tauto. }
      destruct (36 <=? List.length (desc ++ [key]))%nat eqn:E36.
      * apply Nat.leb_le in E36.
        exists [key], data. split; [reflexivity|]. split; [exact Hnd'|].
        split; [intros x; rewrite in_app_iff; simpl; tauto|].
        split; [now right|]. rewrite length_app. simpl. lia.
      * apply Nat.leb_gt in E36.
        destruct (IH (key :: seen) (desc ++ [key]) Hseen' Hnd')
          as (pre & post & -> & H1 & H2 & H3 & H4).
        exists (key :: pre), post. split; [reflexivity|]. split; [exact H1|].
        split; [|split; [exact H3|intros _; now apply H4]].
        intros x. rewrite H2, in_app_iff. simpl. tauto.
Qed.

Lemma ym_sorted_facts (l : list ym) :
  StronglySorted (fun a b => ym_le a b = true) (py_sorted ym_lt l)
  /\ Permutation (py_sorted ym_lt l) l.
Proof.
  split; [|apply py_sorted_perm].
  apply (py_sorted_sorted ym_lt (fun a b => ym_le a b = true)).
  - intros x y H. apply ym_lt_spec in H. apply ym_le_spec. lia.
  - intros x y H. apply ym_le_spec.
    assert (Hn : ~ (fst x < fst y \/ fst x = fst y /\ snd x < snd y))
      by (rewrite <- ym_lt_spec; congruence).
    lia.
  - intros x y z H1 H2. apply ym_le_spec in H1, H2. apply ym_le_spec. lia.
Qed.

Lemma z_sorted_facts (l : list Z) :
  NoDup l ->
  StronglySorted Z.lt (py_sorted Z.ltb l)
  /\ Permutation (py_sorted Z.ltb l) l.
Proof.
  intros Hnd.
  assert (Hp : Permutation (py_sorted Z.ltb l) l) by apply py_sorted_perm.
  split; [|exact Hp].
  apply (StronglySorted_strict Z.le Z.lt); [intros x y; lia| |].
  - apply (Permutation_NoDup (Permutation_sym Hp) Hnd).
  - apply (py_sorted_sorted Z.ltb Z.le).
    + intros x y H. apply Z.ltb_lt in H. lia.
    + intros x y H. apply Z.ltb_ge in H. lia.
    + intros x y z. lia.
Qed.

Section RecentFacts.

Variable select_ym : string -> list ym.
Variable dataset : string.

Lemma get_recent_eq :
  get_recent_ym_list select_ym dataset
  = py_sorted ym_lt (recent_loop (select_ym dataset) [] []).
Proof.
  unfold get_recent_ym_list. now destruct (select_ym dataset).
Qed.

Lemma recent_sorted :
  StronglySorted (fun a b => ym_lt a b = true)
                 (get_recent_ym_list select_ym dataset).
Proof.
  rewrite get_recent_eq.
  destruct (ym_sorted_facts (recent_loop (select_ym dataset) [] []))
    as (Hs & Hp).
  destruct (recent_loop_spec (select_ym dataset) [] []
              (fun k => conj (fun H => H) (fun H => H)) (NoDup_nil _))
    as (pre & post & _ & Hnd & _).
  apply (StronglySorted_strict (fun a b => ym_le a b = true));
    [| |exact Hs].
  - intros x y Hle Hne. apply ym_le_spec in Hle. apply ym_lt_spec.
    destruct x, y. simpl in *.
    assert (~ (z = z1 /\ z0 = z2)) by (intros [-> ->]; now apply Hne).
    lia.
  - apply (Permutation_NoDup (Permutation_sym Hp) Hnd).
Qed.

End RecentFacts.

(** X17 — The recent periods.  [get_recent_ym_list] returns at most 36
    periods in strictly ascending order, without repetition.  They are the
    distinct periods of an initial part of the rows received, and that
    part is all the rows unless 36 periods were reached.  When the rows
    arrive latest first, as the query orders them, every period left out
    is earlier than every period returned. *)
Theorem recent_periods (select_ym : string -> list ym) dataset :
  let data := select_ym dataset in
  let R := get_recent_ym_list select_ym dataset in
  (List.length R <= 36)%nat
  /\ StronglySorted (fun a b => ym_lt a b = true) R
  /\ (exists pre post,
        data = pre ++ post
        /\ (forall p, In p R <-> In p pre)
        /\ (post = [] \/ List.length R = 36%nat))
  /\ (StronglySorted (fun a b => ym_le b a = true) data ->
      forall p q, In p data -> ~ In p R -> In q R -> ym_lt p q = true).
Proof.
  intros data R.
  pose proof (recent_sorted select_ym dataset) as Hsorted. fold R in Hsorted.
  assert (HR : R = py_sorted ym_lt (recent_loop data [] []))
    by apply get_recent_eq.
  destruct (ym_sorted_facts (recent_loop data [] [])) as (_ & Hp).
  rewrite <- HR in Hp.
  destruct (recent_loop_spec data [] []
              (fun k => conj (fun H => H) (fun H => H)) (NoDup_nil _))
    as (pre & post & Hsplit & Hnd & Hin & Hstop & Hlen).
  assert (Hin' : forall p, In p R <-> In p pre).
  { intros p. split.
    - intros H. apply (Permutation_in _ Hp) in H. apply Hin in H.
      destruct H as [[]|H]. exact H.
    - intros H. apply (Permutation_in _ (Permutation_sym Hp)).
      apply Hin. now right. }
  assert (Hlen' : List.length R = List.length (recent_loop data [] []))
    by apply (Permutation_length Hp).
  assert (H36 : (List.length R <= 36)%nat)
    by (rewrite Hlen'; apply Hlen; simpl; lia).
  split; [exact H36|]. split; [exact Hsorted|]. split.
  - exists pre, post. split; [exact Hsplit|]. split; [exact Hin'|].
    destruct Hstop as [H|H]; [now left|right; lia].
  - intros Hdesc p q Hp' Hnot Hq.
    rewrite Hsplit in Hp', Hdesc.
    apply in_app_or in Hp' as [Hp'|Hp']; [now apply Hin' in Hp'|].
    apply Hin' in Hq.
    pose proof (StronglySorted_app_inv _ _ _ Hdesc q p Hq Hp') as Hle.
    simpl in Hle. apply ym_le_spec in Hle. apply ym_lt_spec.
    assert (Hne : p <> q) by (intros ->; apply Hnot; now apply Hin').
    destruct p, q. simpl in *.
    assert (~ (z = z1 /\ z0 = z2)) by (intros [-> ->]; now apply Hne).
    lia.
Qed.

Lemma recent_periods_witness :
  ym_lt (2021, 11) (2024, 10) = true.
Proof.
  destruct (recent_periods
              (fun _ => map (fun i => (2024 - Z.of_nat (i / 12),
                                       12 - Z.of_nat (i mod 12)))
                            (seq 0 40))
              "house_rent") as (_ & _ & _ & H).
  apply H.
  - cbv [map seq]. repeat constructor.
  - vm_compute. do 37 right. left. reflexivity.
  - vm_compute. intros H'.
    repeat (destruct H' as [H'|H']; [discriminate|]). exact H'.
  - vm_compute. do 33 right. left. reflexivity.
Defined.

Lemma last_In_nonempty {A} (l : list A) d : l <> [] -> In (last l d) l.
Proof. destruct l as [|a l]; [congruence|]. intros _. apply last_In. Qed.

Section OptionFacts.

Variable select_ym : string -> list ym.
Variable dataset : string.

Let R := get_recent_ym_list select_ym dataset.

Lemma year_options_facts :
  StronglySorted Z.lt (get_year_options select_ym dataset)
  /\ forall y, In y (get_year_options select_ym dataset)
               <-> exists m, In (y, m) R.
Proof.
  unfold get_year_options. cbv zeta. fold R.
  destruct (z_sorted_facts (nodup Z.eq_dec (map fst R)) (NoDup_nodup _ _))
    as (Hs & Hp).
  split; [exact Hs|]. intros y. split.
  - intros H. apply (Permutation_in _ Hp) in H. apply nodup_In in H.
    apply in_map_iff in H as ([y' m] & <- & H). eauto.
  - intros (m & H). apply (Permutation_in _ (Permutation_sym Hp)).
    apply nodup_In. apply in_map_iff. exists (y, m). auto.
Qed.

Lemma month_options_facts year :
  StronglySorted Z.lt (get_month_options select_ym dataset year)
  /\ forall m, In m (get_month_options select_ym dataset year)
               <-> In (year, m) R.
Proof.
  unfold get_month_options. cbv zeta. fold R.
  destruct (z_sorted_facts
              (nodup Z.eq_dec
                 (map snd (filter (fun p : ym => fst p =? year) R)))
              (NoDup_nodup _ _)) as (Hs & Hp).
  split; [exact Hs|]. intros m. split.
  - intros H. apply (Permutation_in _ Hp) in H. apply nodup_In in H.
    apply in_map_iff in H as ([y m'] & <- & H).
    apply filter_In in H as [H Hy]. simpl in Hy.
    apply Z.eqb_eq in Hy. now subst.
  - intros H. apply (Permutation_in _ (Permutation_sym Hp)).
    apply nodup_In. apply in_map_iff. exists (year, m).
    split; [reflexivity|]. apply filter_In. split; [exact H|].
    simpl. apply Z.eqb_refl.
Qed.

End OptionFacts.

(** X18 — What the dashboard offers.  The year options are the years of
    the recent periods and the month options of a year are the months the
    recent periods have in that year, both in strictly ascending order;
    every year offered has at least one month to offer; and the last year
    offered with the last month offered for it, which [main] preselects,
    is the latest of the recent periods. *)
Theorem selection_options (select_ym : string -> list ym) dataset :
  let R := get_recent_ym_list select_ym dataset in
  let Y := get_year_options select_ym dataset in
  let M := get_month_options select_ym dataset in
  (forall y, In y Y <-> exists m, In (y, m) R) /\
  (forall y m, In m (M y) <-> In (y, m) R) /\
  StronglySorted Z.lt Y /\
  (forall y, StronglySorted Z.lt (M y)) /\
  (forall y, In y Y -> M y <> []) /\
  (R <> [] ->
   forall d, last R d = (last Y 0, last (M (last Y 0)) 0)
             /\ forall p, In p R -> ym_le p (last R d) = true).
Proof.
  intros R Y M.
  destruct (year_options_facts select_ym dataset) as (HYs & HY).
  assert (HM : forall y, StronglySorted Z.lt (M y)
                         /\ forall m, In m (M y) <-> In (y, m) R)
    by (intros y; apply month_options_facts).
  fold Y in HYs, HY. fold R in HY.
  split; [exact HY|]. split; [intros y m; apply (HM y)|].
  split; [exact HYs|]. split; [intros y; apply (HM y)|]. split.
  - intros y Hy Hnil. apply HY in Hy as (m & Hm).
    apply (HM y) in Hm. rewrite Hnil in Hm. destruct Hm.
  - intros Hne d.
    pose proof (recent_sorted select_ym dataset) as HRs. fold R in HRs.
    pose proof (last_In_nonempty R d Hne) as Hlast.
    destruct (last R d) as [ym mm] eqn:El.
    assert (Hmax : forall p, In p R -> ym_le p (ym, mm) = true).
    { intros p Hp.
      destruct (StronglySorted_last _ R d HRs p Hp) as [H|H];
        rewrite El in H.
      - subst p. apply ym_le_refl.
      - apply ym_lt_spec in H. apply ym_le_spec. lia. }
    split; [|exact Hmax].
    assert (HYne : Y <> []).
    { intros Hnil. assert (H : In ym Y) by (apply HY; eauto).
      rewrite Hnil in H. destruct H. }
    assert (Hy : last Y 0 = ym).
    { pose proof (last_In_nonempty Y 0 HYne) as Hin.
      apply HY in Hin as (m' & Hm').
      apply Hmax in Hm'. apply ym_le_spec in Hm'. simpl in Hm'.
      assert (Hym : In ym Y) by (apply HY; eauto).
      destruct (StronglySorted_last _ Y 0 HYs ym Hym); lia. }
    rewrite Hy. f_equal.
    destruct (HM ym) as (HMs & HMin).
    assert (HMne : M ym <> []).
    { intros Hnil. assert (H : In mm (M ym)) by now apply HMin.
      rewrite Hnil in H. destruct H. }
    pose proof (last_In_nonempty (M ym) 0 HMne) as Hin.
    apply HMin in Hin. apply Hmax in Hin. apply ym_le_spec in Hin.
    simpl in Hin.
    assert (Hmm : In mm (M ym)) by now apply HMin.
    destruct (StronglySorted_last _ (M ym) 0 HMs mm Hmm); lia.
Qed.

Lemma selection_options_witness :
  last (get_recent_ym_list
          (fun _ => [(2024, 2); (2024, 2); (2024, 1); (2023, 12)])
          "house_rent") (0, 0)
  = (2024, 2)
  /\ get_month_options
       (fun _ => [(2024, 2); (2024, 2); (2024, 1); (2023, 12)])
       "house_rent" 2023 <> [].
Proof.
  destruct (selection_options
              (fun _ => [(2024, 2); (2024, 2); (2024, 1); (2023, 12)])
              "house_rent") as (_ & _ & _ & _ & H5 & H6).
  split.
  - exact (proj1 (H6 ltac:(discriminate) (0, 0))).
  - apply H5. vm_compute. now left.
Defined.

(* ================================================================== *)
(** * Further facts: the main block and the extracted text *)
(* ================================================================== *)

Lemma collect_Raise_engine tbl w key s e item_cd csv sup table ex log :
  registered key ->
  collect tbl w key s (Some e) item_cd csv sup table = (Raise ex, log) ->
  exists p, In p (month_iter s e)
            /\ goto w (planned_url key item_cd p) = Raise ex.
Proof.
  intros Hreg Hrun.
  destruct (datasets_getitem_registered key Hreg) as (ds & Hds).
  destruct (load_or_fail w key item_cd (month_iter s e))
    as [Hload|(pre & p & post & exn0 & Hsplit & Hload & Hfail)].
  - destruct (collect_all_load tbl w key ds s e item_cd csv sup table
                Hds Hload) as (log' & Hrun' & _).
    rewrite Hrun in Hrun'. discriminate.
  - destruct (collect_failure tbl w key ds s e item_cd csv sup table
                pre p post exn0 Hds Hsplit Hload Hfail)
      as (log' & Hrun' & _).
    rewrite Hrun in Hrun'. injection Hrun' as -> _.
    exists p. split; [|exact Hfail].
    rewrite Hsplit. apply in_or_app. right. now left.
Qed.

(** The loop is the run of [collect] with nothing to save. *)
Lemma collect_of_loop tbl w key s e item_cd :
  collect tbl w key s (Some e) item_cd false false EmptyString
  = collect_loop tbl w key item_cd (month_iter s e) [] [].
Proof.
  unfold collect.
  destruct (collect_loop tbl w key item_cd (month_iter s e) [] [])
    as [[rows|ex] log]; reflexivity.
Qed.

Lemma upsert_sent st rows table :
  sent (snd (upsert_krihs_rows st rows table)) = []
  \/ sent (snd (upsert_krihs_rows st rows table)) = [rows].
Proof.
  unfold upsert_krihs_rows. destruct (is_nil rows); [now left|].
  destruct (get_supabase_client st) as [[]|[msg|msg]]; simpl; auto.
  destruct (upsert_execute st table rows); simpl; auto.
Qed.

Lemma upsert_Thrown st rows table e :
  fst (upsert_krihs_rows st rows table) = Thrown e ->
  snd (upsert_krihs_rows st rows table) = []
  /\ exists msg, e = OtherError msg
                 /\ get_supabase_client st = Thrown (OtherError msg).
Proof.
  unfold upsert_krihs_rows. destruct (is_nil rows); [discriminate|].
  destruct (get_supabase_client st) as [[]|[msg|msg]]; simpl.
  - destruct (upsert_execute st table rows); discriminate.
  - discriminate.
  - intros [= <-]. eauto.
Qed.

Lemma latest_Thrown st key table e :
  fst (get_latest_ym_from_supabase st key table) = Thrown e ->
  exists msg, e = OtherError msg
              /\ get_supabase_client st = Thrown (OtherError msg).
Proof.
  unfold get_latest_ym_from_supabase.
  destruct (get_supabase_client st) as [[]|[msg|msg]]; simpl.
  - destruct (select_latest st table key) as [[|row rest]|ex]; discriminate.
  - discriminate.
  - intros [= <-]. eauto.
Qed.

(** What lines 292-303 leave behind. *)
Lemma save_rows_spec h st rows csv out sup table r tr :
  save_rows h st rows csv out sup table = (r, tr) ->
  let written :=
    if csv && negb (is_nil rows) then [RCsv out rows] else [] in
  loop_events tr = []
  /\ match r with
     | Returned rows' =>
       rows' = rows
       /\ tr = written
               ++ map RStore
                    (if sup then snd (upsert_krihs_rows st rows table)
                     else [])
     | Raised (LoopExn _) => False
     | Raised (HostExn e) =>
       (csv && negb (is_nil rows) = true
        /\ write_csv h out rows = Thrown e /\ tr = [])
       \/ (sup = true
           /\ fst (upsert_krihs_rows st rows table) = Thrown e
           /\ tr = written)
     end.
Proof.
  intros H. cbv zeta. unfold save_rows in H.
  assert (Hst : forall sl, loop_events (map RStore sl) = [])
    by (intros sl; apply trace_of_store).
  destruct (csv && negb (is_nil rows)) eqn:Ecsv.
  - destruct (write_csv h out rows) as [[]|e] eqn:Ew.
    + destruct sup.
      * destruct (upsert_krihs_rows st rows table) as [[[]|e] sl] eqn:Eu;
          injection H as <- <-; cbn [fst snd app loop_events].
        -- rewrite Hst. auto.
        -- pose proof (upsert_Thrown st rows table e) as Ht.
           rewrite Eu in Ht. destruct (Ht eq_refl) as (Hsl & _).
           cbn [snd] in Hsl. subst sl. simpl. auto.
      * injection H as <- <-. simpl. auto.
    + injection H as <- <-. simpl. auto.
  - destruct sup.
    + destruct (upsert_krihs_rows st rows table) as [[[]|e] sl] eqn:Eu;
        injection H as <- <-; cbn [fst snd app loop_events].
      * rewrite Hst. auto.
      * pose proof (upsert_Thrown st rows table e) as Ht.
        rewrite Eu in Ht. destruct (Ht eq_refl) as (Hsl & _).
        cbn [snd] in Hsl. subst sl. simpl. auto.
    + injection H as <- <-. simpl. auto.
Qed.

(** The shape of a whole run of [collect]. *)
Lemma collect_run_inv tbl w h st key s e item_cd csv out sup table r tr :
  collect_run tbl w h st key s (Some e) item_cd csv out sup table = (r, tr) ->
  (exists ex, r = Raised (HostExn ex) /\ tr = []
              /\ (mkdir_parent h out = Thrown ex
                  \/ browser_start h = Thrown ex))
  \/ (exists ex log,
        collect_loop tbl w key item_cd (month_iter s e) [] []
          = (Raise ex, log)
        /\ r = Raised (LoopExn ex) /\ tr = map RLoop log)
  \/ (exists rows log,
        collect_loop tbl w key item_cd (month_iter s e) [] []
          = (Ok rows, log)
        /\ ((exists ex, browser_stop h = Thrown ex
                        /\ r = Raised (HostExn ex) /\ tr = map RLoop log)
            \/ (exists tr',
                  save_rows h st rows csv out sup table = (r, tr')
                  /\ tr = map RLoop log ++ tr'))).
Proof.
  unfold collect_run.
  destruct (mkdir_parent h out) as [[]|ex].
  2: { intros [= <- <-]. left. eauto 6. }
  destruct (browser_start h) as [[]|ex].
  2: { intros [= <- <-]. left. eauto 6. }
  destruct (collect_loop tbl w key item_cd (month_iter s e) [] [])
    as [[rows|ex] log].
  2: { intros [= <- <-]. right. left. eauto 6. }
  destruct (browser_stop h) as [[]|ex].
  2: { intros [= <- <-]. right. right. exists rows, log.
       split; [reflexivity|]. left. eauto. }
  destruct (save_rows h st rows csv out sup table) as [r' tr'] eqn:Es.
  intros [= <- <-]. right. right. exists rows, log.
  split; [reflexivity|]. right. eauto.
Qed.

Lemma collect_loop_Raise_engine tbl w key s e item_cd ex log :
  registered key ->
  collect_loop tbl w key item_cd (month_iter s e) [] [] = (Raise ex, log) ->
  exists p, In p (month_iter s e)
            /\ goto w (planned_url key item_cd p) = Raise ex.
Proof.
  intros Hreg Hrun. rewrite <- collect_of_loop in Hrun.
  exact (collect_Raise_engine _ _ _ _ _ _ _ _ _ _ _ Hreg Hrun).
Qed.

Lemma collect_loop_loads tbl w key s e item_cd :
  registered key ->
  (forall url, exists page, goto w url = Ok page) ->
  exists rows log,
    collect_loop tbl w key item_cd (month_iter s e) [] [] = (Ok rows, log).
Proof.
  intros Hreg Hload.
  destruct (collect_loop tbl w key item_cd (month_iter s e) [] [])
    as [[rows|ex] log] eqn:Hrun; [eauto|].
  destruct (collect_loop_Raise_engine _ _ _ _ _ _ _ _ Hreg Hrun)
    as (p & _ & Hp).
  destruct (Hload (planned_url key item_cd p)) as (page & Hpage).
  congruence.
Qed.

(** When nothing outside the period loop raises, the whole run is the run
    of [collect]: same result, same pages, same CSV file. *)
Lemma collect_run_agrees tbl w h st key s e item_cd csv out sup table :
  host_ok h -> client_ok st ->
  fst (collect_run tbl w h st key s e item_cd csv out sup table)
    = of_loop (fst (collect tbl w key s e item_cd csv sup table))
  /\ fetched (loop_events
                (snd (collect_run tbl w h st key s e item_cd csv out sup
                        table)))
     = fetched (snd (collect tbl w key s e item_cd csv sup table))
  /\ map snd (csv_files
                (snd (collect_run tbl w h st key s e item_cd csv out sup
                        table)))
     = csvs (snd (collect tbl w key s e item_cd csv sup table)).
Proof.
  intros (Hm & Hb & Hc & Hw) Hcl. unfold collect_run, collect.
  rewrite Hm, Hb.
  match goal with
  | |- context [collect_loop _ _ _ _ ?ps [] []] =>
    destruct (collect_loop_log tbl w key item_cd ps [] [])
      as (d & _ & _ & _ & Hv);
    destruct (collect_loop tbl w key item_cd ps [] []) as [[rows|ex] log]
  end; cbn [fst snd] in *.
  2: { destruct (trace_of_loop log) as (-> & _ & ->).
       rewrite Hv. auto. }
  rewrite Hc.
  destruct (save_rows h st rows csv out sup table) as [r tr] eqn:Hs.
  apply save_rows_spec in Hs. cbv zeta in Hs. cbn [fst snd].
  rewrite loop_events_app, csv_files_app.
  destruct (trace_of_loop log) as (-> & _ & ->).
  destruct Hs as (-> & Hs). rewrite app_nil_r.
  destruct r as [rows'|[ex|ex]].
  - destruct Hs as (-> & ->). rewrite csv_files_app.
    match goal with
    | |- context [map RStore ?l] =>
      destruct (trace_of_store l) as (_ & _ & ->)
    end.
    destruct (csv && negb (is_nil rows)), sup; simpl;
      rewrite ?fetched_app, ?csvs_app, ?Hv; simpl;
      rewrite ?app_nil_r; auto.
  - destruct Hs.
  - destruct Hs as [(_ & Hw' & _)|(_ & Hu & _)].
    + rewrite Hw in Hw'. discriminate.
    + destruct (upsert_Thrown _ _ _ _ Hu) as (_ & msg & _ & Hg).
      now contradiction (Hcl msg).
Qed.

(** The same for the incremental run, in a world that answers as the
    lookup does. *)
Lemma collect_incremental_run_agrees tbl w h st key d e item_cd csv out sup
      table :
  host_ok h -> client_ok st ->
  fst (get_latest_ym_from_supabase st key table)
    = Done (latest_ym w key table) ->
  fst (collect_incremental_run tbl w h st key d e item_cd csv out sup table)
    = of_loop (fst (collect_incremental tbl w key d e item_cd csv sup table))
  /\ fetched (loop_events
                (snd (collect_incremental_run tbl w h st key d e item_cd csv
                        out sup table)))
     = fetched (snd (collect_incremental tbl w key d e item_cd csv sup
                       table)).
Proof.
  intros Hh Hcl Hl. unfold collect_incremental_run, collect_incremental.
  destruct (get_latest_ym_from_supabase st key table) as [r sl].
  cbn [fst] in Hl. subst r. cbv zeta.
  set (e' := match e with Some e0 => e0 | None => today w end).
  set (s := incremental_start (latest_ym w key table) d).
  destruct (ym_gt s e').
  - cbn [fst snd]. rewrite loop_events_app.
    destruct (trace_of_store sl) as (-> & _).
    destruct (latest_ym w key table); auto.
  - destruct (collect_run_agrees tbl w h st key s (Some e') item_cd csv out
                sup table Hh Hcl) as (Hr & Hf & _).
    destruct (collect_run tbl w h st key s (Some e') item_cd csv out sup
                table) as [r tr].
    destruct (collect tbl w key s (Some e') item_cd csv sup table)
      as [r' log].
    cbn [fst snd] in *. rewrite loop_events_app.
    destruct (trace_of_store sl) as (-> & _).
    split; [exact Hr|].
    destruct (latest_ym w key table); simpl; exact Hf.
Qed.

(** X5 — One batch, after the loop and after the CSV file.  A run of
    [collect] that returns has written the CSV file exactly when
    [save_csv] is set and there is at least one row, and has called
    [upsert_krihs_rows] exactly when [save_supabase] is set, after the CSV
    file: its trace is that of the loop, then the file, then the storage
    helper, so the rows reach the service in at most one batch, which
    holds all of them.  A run that raises inside the period loop has
    written no file and made no storage call.  A run can also raise after
    the loop; if a CSV file was written by then, the exception is the one
    [upsert_krihs_rows] raised, and nothing was sent. *)
Theorem single_batch (tbl : N -> option decimal_digit) (w : World)
    (h : Host) (st : Storage) key s e item_cd csv out sup table :
  (forall rows tr,
     collect_run tbl w h st key s (Some e) item_cd csv out sup table
       = (Returned rows, tr) ->
     csv_files tr = (if csv && negb (is_nil rows) then [(out, rows)] else [])
     /\ store_events tr
        = (if sup then snd (upsert_krihs_rows st rows table) else [])
     /\ (sent (store_events tr) = []
         \/ sup = true /\ sent (store_events tr) = [rows])
     /\ tr = map RLoop (loop_events tr)
             ++ map (fun f => RCsv (fst f) (snd f)) (csv_files tr)
             ++ map RStore (store_events tr)) /\
  (forall ex tr,
     collect_run tbl w h st key s (Some e) item_cd csv out sup table
       = (Raised (LoopExn ex), tr) ->
     csv_files tr = [] /\ store_events tr = []) /\
  (forall ex tr,
     collect_run tbl w h st key s (Some e) item_cd csv out sup table
       = (Raised (HostExn ex), tr) ->
     sent (store_events tr) = []
     /\ (csv_files tr <> [] ->
         exists rows,
           csv_files tr = [(out, rows)] /\ rows <> [] /\ sup = true
           /\ fst (upsert_krihs_rows st rows table) = Thrown ex)).
Proof.
  split; [|split].
  - intros rows tr Hrun.
    apply collect_run_inv in Hrun
      as [(ex & H & _)|[(ex & log & _ & H & _)
                       |(rows0 & log & _ & [(ex & _ & H & _)
                                           |(tr' & Hs & ->)])]];
      try discriminate.
    apply save_rows_spec in Hs. cbv zeta in Hs.
    destruct Hs as (_ & Hrows & ->). subst rows0.
    rewrite !csv_files_app, !store_events_app, !loop_events_app.
    destruct (trace_of_loop log) as (-> & -> & ->).
    match goal with
    | |- context [map RStore ?l] =>
      destruct (trace_of_store l) as (-> & -> & ->)
    end.
    assert (Hsent : sent (if sup
                          then snd (upsert_krihs_rows st rows table)
                          else []) = []
                    \/ sup = true
                       /\ sent (if sup
                                then snd (upsert_krihs_rows st rows table)
                                else []) = [rows]).
    { destruct sup; [|now left].
      destruct (upsert_sent st rows table) as [H|H]; auto. }
    destruct (csv && negb (is_nil rows)); simpl; rewrite ?app_nil_r;
      auto.
  - intros ex tr Hrun.
    apply collect_run_inv in Hrun
      as [(ex' & H & _)|[(ex' & log & _ & _ & ->)
                        |(rows0 & log & _ & [(ex' & _ & H & _)
                                            |(tr' & Hs & ->)])]];
      try discriminate.
    + destruct (trace_of_loop log) as (_ & -> & ->). auto.
    + apply save_rows_spec in Hs. cbv zeta in Hs.
      destruct Hs as (_ & []).
  - intros ex tr Hrun.
    apply collect_run_inv in Hrun
      as [(ex' & _ & -> & _)|[(ex' & log & _ & H & _)
                             |(rows0 & log & _ & [(ex' & _ & _ & ->)
                                                 |(tr' & Hs & ->)])]];
      try discriminate.
    + split; [reflexivity|]. intros H. now contradiction H.
    + destruct (trace_of_loop log) as (_ & -> & ->).
      split; [reflexivity|]. intros H. now contradiction H.
    + apply save_rows_spec in Hs. cbv zeta in Hs.
      rewrite !csv_files_app, !store_events_app.
      destruct (trace_of_loop log) as (_ & -> & ->).
      destruct Hs as (_ & [(_ & _ & ->)|(-> & Hu & ->)]); simpl.
      * split; [reflexivity|]. intros H. now contradiction H.
      * destruct (csv && negb (is_nil rows0)) eqn:Ecsv; simpl.
        -- split; [reflexivity|]. intros _. exists rows0.
           repeat split; try assumption.
           apply andb_true_iff in Ecsv as (_ & Hn).
           intros ->. discriminate.
        -- split; [reflexivity|]. intros H. now contradiction H.
Qed.

(** A run that returns after one CSV file and one batch, and a run that
    raises after its CSV file was written. *)
Lemma single_batch_witness :
  (exists rows log,
     collect_run ascii_digits_only flaky_world quiet_host
       storage_failing_upsert "house_rent" (2024, 2) (Some (2024, 3)) None
       true "out.csv" true "krihs_mindicons"
     = (Returned rows, log)
     /\ List.length rows = 2%nat
     /\ csv_files log = [("out.csv"%string, rows)]
     /\ sent (store_events log) = [rows])
  /\ (exists rows log,
        collect_run ascii_digits_only flaky_world quiet_host
          storage_refusing_client "house_rent" (2024, 2) (Some (2024, 3))
          None true "out.csv" true "krihs_mindicons"
        = (Raised (HostExn (OtherError "Invalid API key")), log)
        /\ csv_files log = [("out.csv"%string, rows)]
        /\ fst (upsert_krihs_rows storage_refusing_client rows
                                  "krihs_mindicons")
           = Thrown (OtherError "Invalid API key")).
Proof.
  split.
  - eexists. eexists. split; [reflexivity|]. split; [reflexivity|].
    split.
    + exact (proj1 (proj1 (single_batch ascii_digits_only flaky_world
                             quiet_host storage_failing_upsert "house_rent"
                             (2024, 2) (2024, 3) None true "out.csv"%string
                             true "krihs_mindicons") _ _ eq_refl)).
    + reflexivity.
  - destruct (proj2 (proj2 (proj2 (single_batch ascii_digits_only
                flaky_world quiet_host storage_refusing_client "house_rent"
                (2024, 2) (2024, 3) None true "out.csv"%string true
                "krihs_mindicons")) _ _ eq_refl) ltac:(discriminate))
      as (rows & Hc & _ & _ & Hu).
    exists rows. eexists. split; [reflexivity|]. split; assumption.
Defined.

(** X6 — Where the period loop can fail.  For a registered dataset an
    exception that leaves [collect] from inside its period loop is one
    the engine raised on the page of a period of the window: [build_url]
    and the item-code lookup do not raise.  For a key that is not
    registered, once the directory is made and the browser started, a run
    over a non-empty window raises [KeyError] before any page is opened;
    a run over an empty window returns no rows without noticing the key,
    when the directory, the browser and the file do not raise. *)
Theorem collect_exceptions (tbl : N -> option decimal_digit) (w : World)
    (h : Host) (st : Storage) key s e item_cd csv out sup table :
  (registered key ->
   forall ex tr,
     collect_run tbl w h st key s (Some e) item_cd csv out sup table
       = (Raised (LoopExn ex), tr) ->
     exists p, In p (month_iter s e)
               /\ goto w (planned_url key item_cd p) = Raise ex) /\
  (~ registered key -> ym_le s e = true ->
   mkdir_parent h out = Done tt -> browser_start h = Done tt ->
   collect_run tbl w h st key s (Some e) item_cd csv out sup table
     = (Raised (LoopExn (KeyError key)), [])) /\
  (~ registered key -> ym_gt s e = true -> host_ok h ->
   collect_run tbl w h st key s (Some e) item_cd csv out sup table
     = (Returned [], if sup then [RStore StInfoEmpty] else [])).
Proof.
  split; [|split].
  - intros Hreg ex tr Hrun.
    apply collect_run_inv in Hrun
      as [(ex' & H & _)|[(ex' & log & Hloop & H & _)
                        |(rows0 & log & _ & [(ex' & _ & H & _)
                                            |(tr' & Hs & _)])]];
      try discriminate.
    + injection H as <-.
      exact (collect_loop_Raise_engine _ _ _ _ _ _ _ _ Hreg Hloop).
    + apply save_rows_spec in Hs. cbv zeta in Hs.
      destruct Hs as (_ & []).
  - intros Hreg Hle Hm Hb. unfold collect_run. rewrite Hm, Hb.
    destruct (month_iter_head s e Hle) as (rest & ->).
    destruct s as [y m]. simpl. unfold build_url.
    now rewrite (datasets_getitem_unregistered key Hreg).
  - intros Hreg Hgt (Hm & Hb & Hc & _). unfold collect_run.
    rewrite Hm, Hb, (month_iter_empty s e Hgt). simpl. rewrite Hc.
    unfold save_rows. rewrite andb_false_r. simpl.
    destruct sup; reflexivity.
Qed.

Lemma collect_exceptions_witness :
  collect_run ascii_digits_only flaky_world quiet_host
    storage_failing_upsert "rent" (2024, 1) (Some (2024, 2)) None false
    "out.csv" true "krihs_mindicons"
    = (Raised (LoopExn (KeyError "rent")), [])
  /\ collect_run ascii_digits_only flaky_world quiet_host
       storage_failing_upsert "rent" (2024, 3) (Some (2024, 2)) None false
       "out.csv" true "krihs_mindicons"
     = (Returned [], [RStore StInfoEmpty])
  /\ exists p,
       In p (month_iter (2024, 1) (2024, 2))
       /\ goto flaky_world (planned_url "house_rent" None p)
          = Raise (EngineError "Timeout 60000ms exceeded").
Proof.
  assert (Hn : ~ registered "rent").
  { unfold registered. simpl.
    intros H; repeat (destruct H as [H|H]; [discriminate|]); exact H. }
  split; [|split].
  - exact (proj1 (proj2 (collect_exceptions ascii_digits_only flaky_world
                           quiet_host storage_failing_upsert "rent"
                           (2024, 1) (2024, 2) None false "out.csv"%string
                           true "krihs_mindicons"))
                 Hn eq_refl eq_refl eq_refl).
  - refine (proj2 (proj2 (collect_exceptions ascii_digits_only flaky_world
                            quiet_host storage_failing_upsert "rent"
                            (2024, 3) (2024, 2) None false "out.csv"%string
                            true "krihs_mindicons"))
                  Hn eq_refl _).
    unfold host_ok, quiet_host. simpl. auto.
  - refine (proj1 (collect_exceptions ascii_digits_only flaky_world
                     quiet_host storage_failing_upsert "house_rent"
                     (2024, 1) (2024, 2) None false "out.csv"%string true
                     "krihs_mindicons") _ _ _ eq_refl).
    unfold registered. simpl. tauto.
Defined.

Lemma collect_incremental_run_inv tbl w h st key d e item_cd csv out sup
      table r tr :
  collect_incremental_run tbl w h st key d (Some e) item_cd csv out sup table
    = (r, tr) ->
  (exists ex, fst (get_latest_ym_from_supabase st key table) = Thrown ex
              /\ r = Raised (HostExn ex))
  \/ (exists latest,
        fst (get_latest_ym_from_supabase st key table) = Done latest
        /\ ((ym_gt (incremental_start latest d) e = true
             /\ r = Returned [])
            \/ (ym_gt (incremental_start latest d) e = false
                /\ r = fst (collect_run tbl w h st key
                              (incremental_start latest d) (Some e) item_cd
                              csv out sup table)))).
Proof.
  unfold collect_incremental_run.
  destruct (get_latest_ym_from_supabase st key table) as [[latest|ex] sl].
  - cbv zeta. intros H. right. exists latest. split; [reflexivity|].
    destruct (ym_gt (incremental_start latest d) e).
    + left. injection H as <- _. split; reflexivity.
    + right. split; [reflexivity|].
      destruct (collect_run tbl w h st key (incremental_start latest d)
                  (Some e) item_cd csv out sup table) as [r' tr'].
      injection H as <- _. reflexivity.
  - intros [= <- _]. left. exists ex. split; reflexivity.
Qed.

Lemma collect_incremental_run_Raised tbl w h st key d e item_cd csv out sup
      table ex tr :
  registered key ->
  collect_incremental_run tbl w h st key d (Some e) item_cd csv out sup table
    = (Raised (LoopExn ex), tr) ->
  exists p, goto w (planned_url key item_cd p) = Raise ex.
Proof.
  intros Hreg Hrun.
  apply collect_incremental_run_inv in Hrun
    as [(ex' & _ & H)|(latest & _ & [(_ & H)|(_ & H)])];
    try discriminate.
  destruct (collect_run tbl w h st key (incremental_start latest d) (Some e)
              item_cd csv out sup table) as [r' tr'] eqn:Hc.
  cbn [fst] in H. subst r'.
  apply collect_run_inv in Hc
    as [(ex' & H & _)|[(ex' & log & Hloop & H & _)
                      |(rows0 & log & _ & [(ex' & _ & H & _)
                                          |(tr0 & Hs & _)])]];
    try discriminate.
  - injection H as <-.
    destruct (collect_loop_Raise_engine _ _ _ _ _ _ _ _ Hreg Hloop)
      as (p & _ & Hp).
    eauto.
  - apply save_rows_spec in Hs. cbv zeta in Hs. destruct Hs as (_ & []).
Qed.

Lemma collect_incremental_run_Returned tbl w h st key d e item_cd csv out
      sup table :
  registered key ->
  (forall url, exists page, goto w url = Ok page) ->
  host_ok h -> client_ok st ->
  exists rows,
    fst (collect_incremental_run tbl w h st key d (Some e) item_cd csv out
           sup table) = Returned rows.
Proof.
  intros Hreg Hload (Hm & Hb & Hc & Hw) Hcl.
  destruct (collect_incremental_run tbl w h st key d (Some e) item_cd csv
              out sup table) as [r tr] eqn:Hrun.
  apply collect_incremental_run_inv in Hrun
    as [(ex' & Hl & _)|(latest & _ & [(_ & ->)|(_ & ->)])].
  - destruct (latest_Thrown _ _ _ _ Hl) as (msg & _ & Hg).
    now contradiction (Hcl msg).
  - exists []. reflexivity.
  - cbn [fst]. unfold collect_run. rewrite Hm, Hb.
    destruct (collect_loop_loads tbl w key (incremental_start latest d) e
                item_cd Hreg Hload) as (rows & log & ->).
    rewrite Hc.
    destruct (save_rows h st rows csv out sup table) as [r tr'] eqn:Hs.
    cbn [fst]. apply save_rows_spec in Hs. cbv zeta in Hs.
    destruct r as [rows'|[ex|ex]]; [exists rows'; reflexivity| |].
    + destruct Hs as (_ & []).
    + destruct Hs as (_ & [(_ & Hw' & _)|(_ & Hu & _)]).
      * rewrite Hw in Hw'. discriminate.
      * destruct (upsert_Thrown _ _ _ _ Hu) as (_ & msg & _ & Hg).
        now contradiction (Hcl msg).
Qed.

(** The incremental run of the main block for one dataset. *)
Lemma main_loop_spec tbl w h st end_ym : forall targets,
  Forall registered targets ->
  let run key :=
    collect_incremental_run tbl w h st key (2015, 1) (Some end_ym) None
      true (csv_path key) true "krihs_mindicons" in
  (forall e logs,
     main_loop tbl w h st targets end_ym = (Raised e, logs) ->
     exists done key rest,
       targets = done ++ key :: rest
       /\ map fst logs = done ++ [key]
       /\ Forall (fun k => exists rows, fst (run k) = Returned rows) done
       /\ fst (run key) = Raised e
       /\ (forall ex, e = LoopExn ex ->
             exists p, goto w (planned_url key None p) = Raise ex)) /\
  (forall logs,
     main_loop tbl w h st targets end_ym = (Returned tt, logs) ->
     map fst logs = targets
     /\ Forall (fun k => exists rows, fst (run k) = Returned rows) targets)
  /\
  ((forall url, exists page, goto w url = Ok page) ->
   host_ok h -> client_ok st ->
   exists logs, main_loop tbl w h st targets end_ym = (Returned tt, logs)).
Proof.
  induction targets as [|key targets IH]; intros Hreg run.
  - simpl. split; [discriminate|]. split; [|eauto].
    intros logs [= <-]. auto.
  - inversion Hreg as [|? ? Hk Hrest]; subst.
    destruct (IH Hrest) as (IH1 & IH2 & IH3). fold run in IH1, IH2.
    cbn [main_loop]. fold (run key).
    destruct (run key) as [[rows|ex0] tr] eqn:Hrun.
    + destruct (main_loop tbl w h st targets end_ym) as [r logs0] eqn:Hm.
      assert (Hdone : exists rows0, fst (run key) = Returned rows0)
        by (exists rows; now rewrite Hrun).
      split; [|split].
      * intros e logs [= -> <-].
        destruct (IH1 e logs0 eq_refl)
          as (done & k & rest & -> & Hl & Hd & Hf & Hp).
        exists (key :: done), k, rest. simpl. rewrite Hl.
        split; [reflexivity|]. split; [reflexivity|].
        split; [constructor; [exact Hdone|exact Hd]|].
        split; [exact Hf|exact Hp].
      * intros logs [= -> <-]. simpl.
        destruct (IH2 logs0 eq_refl) as (-> & Hd).
        split; [reflexivity|]. constructor; [exact Hdone|exact Hd].
      * intros Hload Hh Hc.
        destruct (IH3 Hload Hh Hc) as (logs & [= -> <-]). eauto.
    + split; [|split].
      * intros e logs [= <- <-]. exists [], key, targets.
        split; [reflexivity|]. split; [reflexivity|].
        split; [constructor|]. split; [now rewrite Hrun|].
        intros ex ->.
        exact (collect_incremental_run_Raised _ _ _ _ _ _ _ _ _ _ _ _ _ _
                 Hk Hrun).
      * discriminate.
      * intros Hload Hh Hc.
        destruct (collect_incremental_run_Returned tbl w h st key (2015, 1)
                    end_ym None true (csv_path key) true "krihs_mindicons"
                    Hk Hload Hh Hc) as (rows & H).
        fold (run key) in H. rewrite Hrun in H. discriminate.
Qed.

(** X19 — The main block.  It runs the datasets in the order of the
    registry, each with the CSV path of its key.  When it raises, the
    exception is the one the incremental run of the dataset it was
    running raised, and if that exception comes from the period loop the
    engine raised it on a page of that dataset; the datasets before that
    one returned and those after it are not started.  When it returns,
    all five were run, each to its return.  It returns when every page
    loads, the directory, the browser and the CSV file do not raise, and
    creating the client raises at most a [RuntimeError].  When creating
    the client raises anything else, the block ends in the lookup of the
    first dataset, before any page is opened. *)
Theorem main_block_runs (tbl : N -> option decimal_digit) (w : World)
    (h : Host) (st : Storage) :
  let run key :=
    collect_incremental_run tbl w h st key (2015, 1) (Some (today w)) None
      true (csv_path key) true "krihs_mindicons" in
  (forall e logs,
     main_block tbl w h st = (Raised e, logs) ->
     exists done key rest,
       map fst DATASETS = done ++ key :: rest
       /\ map fst logs = done ++ [key]
       /\ Forall (fun k => exists rows, fst (run k) = Returned rows) done
       /\ fst (run key) = Raised e
       /\ (forall ex, e = LoopExn ex ->
             exists p, goto w (planned_url key None p) = Raise ex)) /\
  (forall logs,
     main_block tbl w h st = (Returned tt, logs) ->
     map fst logs = map fst DATASETS
     /\ Forall (fun k => exists rows, fst (run k) = Returned rows)
               (map fst DATASETS)) /\
  ((forall url, exists page, goto w url = Ok page) ->
   host_ok h -> client_ok st ->
   exists logs, main_block tbl w h st = (Returned tt, logs)) /\
  (forall msg,
     get_supabase_client st = Thrown (OtherError msg) ->
     main_block tbl w h st
     = (Raised (HostExn (OtherError msg)), [("market_consume"%string, [])])).
Proof.
  intros run.
  assert (Hreg : Forall registered (map fst DATASETS)).
  { apply Forall_forall. intros k Hk. exact Hk. }
  destruct (main_loop_spec tbl w h st (today w) (map fst DATASETS) Hreg)
    as (H1 & H2 & H3).
  split; [exact H1|]. split; [exact H2|]. split; [exact H3|].
  intros msg Hg. unfold main_block. cbn [map fst DATASETS main_loop].
  unfold collect_incremental_run, get_latest_ym_from_supabase.
  rewrite Hg. reflexivity.
Qed.

Lemma main_block_runs_witness :
  (exists logs,
     main_block ascii_digits_only
       (mkWorld (2015, 2) (fun _ => Ok []) (fun _ _ => None))
       quiet_host storage_without_key = (Returned tt, logs))
  /\ main_block ascii_digits_only flaky_world quiet_host
       storage_refusing_client
     = (Raised (HostExn (OtherError "Invalid API key")),
        [("market_consume"%string, [])]).
Proof.
  split.
  - apply (proj1 (proj2 (proj2 (main_block_runs ascii_digits_only
                           (mkWorld (2015, 2) (fun _ => Ok [])
                                    (fun _ _ => None))
                           quiet_host storage_without_key)))).
    + intros url. eexists. reflexivity.
    + unfold host_ok, quiet_host. simpl. auto.
    + intros msg. discriminate.
  - exact (proj2 (proj2 (proj2 (main_block_runs ascii_digits_only
                           flaky_world quiet_host storage_refusing_client)))
                 "Invalid API key"%string eq_refl).
Defined.

Lemma lstrip_head s c t : lstrip s = c :: t -> isspace c = false.
Proof.
  induction s as [|a s IH]; simpl; [discriminate|].
  destruct (isspace a) eqn:E; [exact IH|]. intros [= <- _]. exact E.
Qed.

Lemma lstrip_suffix s : exists pre, s = pre ++ lstrip s.
Proof.
  induction s as [|a s (pre & IH)]; simpl; [now exists []|].
  destruct (isspace a).
  - exists (a :: pre). simpl. now rewrite <- IH.
  - now exists [].
Qed.

Lemma strip_trimmed s : trimmed (strip s).
Proof.
  unfold strip, trimmed. split.
  - intros c t H. apply (f_equal (@rev N)) in H.
    rewrite rev_involutive in H. simpl in H.
    destruct (lstrip_suffix (rev (lstrip s))) as (pre & Hpre).
    rewrite H in Hpre. apply (f_equal (@rev N)) in Hpre.
    rewrite rev_involutive, !rev_app_distr, rev_involutive in Hpre.
    simpl in Hpre. now apply lstrip_head in Hpre.
  - intros c t H. apply (f_equal (@rev N)) in H.
    rewrite rev_involutive, rev_app_distr in H. simpl in H.
    now apply lstrip_head in H.
Qed.

Lemma trimmed_nil : trimmed [].
Proof.
  split; intros c t H; [discriminate|]. now destruct t.
Qed.

Lemma collect_alts_trimmed r : Forall trimmed (collect_alts r).
Proof.
  apply Forall_forall. intros a Ha. unfold collect_alts in Ha.
  apply filter_In in Ha as [Ha _]. apply in_map_iff in Ha as (x & <- & _).
  apply strip_trimmed.
Qed.

Lemma parse_row_trimmed r k v :
  parse_row r = Some (k, v) ->
  trimmed k /\ trimmed (weather v) /\ trimmed (mom v)
  /\ (weather v = [] -> mom v = []).
Proof.
  intros H. pose proof (parse_row_Some r k v H) as (_ & Hk & _ & _).
  split; [rewrite Hk; apply strip_trimmed|].
  unfold parse_row in H.
  destruct (List.length (tds r) <? 2)%nat; [discriminate|].
  destruct (is_nil (strip (nth 0 (tds r) []))
            || ueqb (strip (nth 0 (tds r) [])) HEADER_CAPTION);
    [discriminate|].
  injection H as _ <-. cbn [weather mom].
  pose proof (collect_alts_trimmed r) as Ht.
  pose proof (collect_alts_nonempty r) as Hn.
  destruct (collect_alts r) as [|a [|b alts]] eqn:Ea.
  - simpl. repeat split; try apply trimmed_nil; auto.
  - simpl. inversion Ht; subst. inversion Hn; subst.
    repeat split; try apply trimmed_nil; try (apply H1); auto.
  - assert (Hlast : In (last (a :: b :: alts) []) (a :: b :: alts))
      by apply last_In.
    rewrite Forall_forall in Ht.
    inversion Hn as [|? ? Ha' _]; subst.
    cbn [List.length Nat.leb nth].
    split; [apply Ht; now left|]. split; [now apply Ht|].
    intros H0. contradiction.
Qed.

Lemma dict_set_Forall {V} (P : ustring * V -> Prop) d k v :
  Forall P d -> P (k, v) -> Forall P (dict_set ueqb d k v).
Proof.
  induction d as [|[k0 v0] d IH]; intros Hd Hkv; simpl.
  - now constructor.
  - inversion Hd; subst. destruct (ueqb k0 k) eqn:E.
    + apply ueqb_eq in E. subst. now constructor.
    + constructor; auto.
Qed.

Lemma parse_rows_Forall (P : ustring * Icons -> Prop) :
  (forall r k v, parse_row r = Some (k, v) -> P (k, v)) ->
  forall rows data, Forall P data -> Forall P (parse_rows rows data).
Proof.
  intros HP. induction rows as [|r rows IH]; intros data Hd; simpl;
    [exact Hd|].
  destruct (parse_row r) as [[k v]|] eqn:E; [|now apply IH].
  apply IH. apply dict_set_Forall; [exact Hd|]. now apply (HP r).
Qed.

(** X20 — Extracted text is trimmed.  [strip] leaves no whitespace at
    either end.  In the mapping [parse_table_icons] returns, every region
    name is non-empty and trimmed, both descriptors are trimmed, and the
    month-over-month descriptor is empty whenever the weather descriptor
    is.  The rows a run returns for a registered dataset carry such
    names and descriptors. *)
Theorem extracted_text_trimmed :
  (forall s, trimmed (strip s)) /\
  (forall page k v,
     In (k, v) (parse_table_icons page) ->
     k <> [] /\ trimmed k /\ trimmed (weather v) /\ trimmed (mom v)
     /\ (weather v = [] -> mom v = [])) /\
  (forall tbl w key ds s e item_cd csv sup table rows log r,
     datasets_getitem key = Ok ds ->
     collect tbl w key s (Some e) item_cd csv sup table = (Ok rows, log) ->
     In r rows ->
     r_region_name r <> [] /\ trimmed (r_region_name r)
     /\ trimmed (r_weather r) /\ trimmed (r_mom r)
     /\ (r_weather r = [] -> r_mom r = [])).
Proof.
  assert (Hentry : forall page k v,
            In (k, v) (parse_table_icons page) ->
            k <> [] /\ trimmed k /\ trimmed (weather v) /\ trimmed (mom v)
            /\ (weather v = [] -> mom v = [])).
  { intros page k v Hin.
    assert (HF : Forall (fun kv : ustring * Icons =>
                           fst kv <> [] /\ trimmed (fst kv)
                           /\ trimmed (weather (snd kv))
                           /\ trimmed (mom (snd kv))
                           /\ (weather (snd kv) = [] -> mom (snd kv) = []))
                        (parse_table_icons page)).
    { unfold parse_table_icons.
      destruct (select_table page) as [table|]; [|constructor].
      apply parse_rows_Forall; [|constructor].
      intros r k0 v0 Hp. simpl.
      pose proof (parse_row_Some r k0 v0 Hp) as (_ & _ & Hne & _).
      pose proof (parse_row_trimmed r k0 v0 Hp). tauto. }
    rewrite Forall_forall in HF. exact (HF (k, v) Hin). }
  split; [exact strip_trimmed|]. split; [exact Hentry|].
  intros tbl w key ds s e item_cd csv sup table rows log r Hds Hrun Hr.
  rewrite (collect_Ok_rows tbl w key ds s e item_cd csv sup table rows log
             Hds Hrun) in Hr.
  apply window_rows_In in Hr as (p & page & [k v] & _ & _ & Hgv & ->).
  unfold make_row. cbn [r_region_name r_weather r_mom fst snd].
  now apply (Hentry page).
Qed.

Lemma extracted_text_trimmed_witness :
  trimmed (u "확장+1단계").
Proof.
  destruct extracted_text_trimmed as (_ & H & _).
  exact (proj1 (proj2 (proj2
    (H [[mkRow [u " 종로구 "; u ""] [Some (u " 확장+1단계 ")]]]
       (u "종로구") (mkIcons (u "확장+1단계") [])
       (or_introl eq_refl))))).
Defined.
